(** * gltfvue: the scene-graph to Vue/TresJS markup compiler ([src/utils/parser.js])

    A shallow embedding of [parse] and of the functions nested in it, with
    the properties of its specification stated over the embedding.

    Conventions of the embedding.
    - A JavaScript number is a finite double, represented by the
      rational it denotes ([Q]).  An arithmetic operation is the exact
      operation followed by the rounding [fl] to the nearest double
      (halves to the even mantissa); [parseFloat] of a decimal text is
      [fl] of the decimal; [String(x)] is the shortest decimal that reads
      back as [x].  The functions on numbers are defined on all rationals
      and are the JavaScript functions on those that are doubles
      ([isDouble]).  NaN, the infinities, the sign of zero and overflow
      are not part of the model.  [Math.PI] is the double
      3.141592653589793.  [options.precision] is a number.
    - A JavaScript string is a [string] (a sequence of code units); string
      concatenation is [+:+].
    - Scene objects are heap objects with identity: they live in a [Heap]
      indexed by the position of the object in the [objects] array (the
      pre-order of the loaded scene), and the hierarchy ([children] and
      [parent]) is kept apart from the fields, in a [Tree] of identities.
      [print] leaves the hierarchy alone and changes fields; the passes
      between the two runs of [print] change the hierarchy alone.
    - [duplicates.geometries] is a plain object: its own entries are a
      finite map from keys to entries, and a key it does not own is
      looked up in [Object.prototype] ([inherited]).  [duplicates.names]
      is written nowhere and [duplicates.materials] is read nowhere: the
      first traversal, which only fills the latter, is left out.
    - Two things [parse] uses come from outside the file and are
      parameters: [isVarName] (imported from [isVarName.js]) and the
      world transform three.js computes for an object.
    - [console.log] output is not part of any result and is left out, and
      with it the option [debug], the function [p] and the [silent]
      argument of [print] and [prune], which only steer logging. *)

From Stdlib Require Import ZArith QArith Qround Qabs Qpower Lqa Ascii.
From Stdlib Require String.
From stdpp Require Import gmap strings pretty list.

Set Warnings "-register-all".

(** ** JavaScript strings *)

Module JsString.

Definition is_lower (c : ascii) : bool :=
  let n := nat_of_ascii c in (97 <=? n) && (n <=? 122).
Definition is_upper (c : ascii) : bool :=
  let n := nat_of_ascii c in (65 <=? n) && (n <=? 90).
Definition is_digit (c : ascii) : bool :=
  let n := nat_of_ascii c in (48 <=? n) && (n <=? 57).
Definition is_letter (c : ascii) : bool := is_lower c || is_upper c.

Definition toUpperChar (c : ascii) : ascii :=
  if is_lower c then ascii_of_nat (nat_of_ascii c - 32) else c.
Definition toLowerChar (c : ascii) : ascii :=
  if is_upper c then ascii_of_nat (nat_of_ascii c + 32) else c.

(** [s.charAt(0).toUpperCase() + s.slice(1)] *)
Definition capitalize (s : string) : string :=
  match s with
  | EmptyString => EmptyString
  | String c r => String (toUpperChar c) r
  end.

(** [s.charAt(0).toLowerCase() + s.slice(1)] *)
Definition uncapitalize (s : string) : string :=
  match s with
  | EmptyString => EmptyString
  | String c r => String (toLowerChar c) r
  end.

Fixpoint toLowerCase (s : string) : string :=
  match s with
  | EmptyString => EmptyString
  | String c r => String (toLowerChar c) (toLowerCase r)
  end.

(** [s.replace(/[^...]/g, by)] for a character class given as a test. *)
Fixpoint replaceOutside (keep : ascii -> bool) (by_ : string) (s : string) : string :=
  match s with
  | EmptyString => EmptyString
  | String c r =>
      (if keep c then String c EmptyString else by_) +:+ replaceOutside keep by_ r
  end.

Definition startsWith (s p : string) : bool := String.prefix p s.

(** Every character of [s] passes the test. *)
Fixpoint every (test : ascii -> bool) (s : string) : bool :=
  match s with
  | EmptyString => true
  | String c r => test c && every test r
  end.

Fixpoint includes (s p : string) : bool :=
  String.prefix p s ||
  match s with
  | EmptyString => false
  | String _ r => includes r p
  end.

Definition endsWith (s p : string) : bool :=
  let ls := String.length s in
  let lp := String.length p in
  (lp <=? ls) && String.eqb (String.substring (ls - lp) lp s) p.

(** [s.lastIndexOf('/') + 1], as a count of code units. *)
Fixpoint afterLastSlash (s : string) : nat :=
  match s with
  | EmptyString => O
  | String c r =>
      if includes r "/" then S (afterLastSlash r)
      else if Ascii.eqb c "/"%char then 1 else O
  end.

End JsString.

(** ** JavaScript numbers *)

Module JsNumber.

Local Open Scope Q_scope.

Definition Math_PI : Q := 884279719003555 # 281474976710656.

Definition ltb (x y : Q) : bool := negb (Qle_bool y x).
Definition eqb (x y : Q) : bool := Qeq_bool x y.

(** [Math.round]: the nearest integer, halves towards plus infinity. *)
Definition Math_round (x : Q) : Z := Qfloor (x + (1 # 2)).

Definition pow2 (e : Z) : Q := 2 ^ e.
Definition pow10 (p : Z) : Z := (10 ^ p)%Z.
Definition pow10Q (e : Z) : Q := 10 ^ e.

(** The exponent of the binade of [a > 0]: [2^e <= a < 2^(e+1)].  The
    difference of the logarithms of numerator and denominator is the
    exponent or one more. *)
Definition binade (a : Q) : Z :=
  let e := (Z.log2 (Qnum a) - Z.log2 (Zpos (Qden a)))%Z in
  if Qle_bool (pow2 e) a then e else (e - 1)%Z.

(** The exponent of the unit in the last place of the doubles around
    [a]: 52 below the binade, and that of the subnormal numbers below
    2^-1022. *)
Definition ulpExp (a : Q) : Z := (Z.max (binade a) (-1022) - 52)%Z.

(** The nearest integer, halves to the even one. *)
Definition roundEven (t : Q) : Z :=
  let f := Qfloor t in
  let r := t - inject_Z f in
  if ltb r (1 # 2) then f
  else if ltb (1 # 2) r then (f + 1)%Z
  else if Z.even f then f else (f + 1)%Z.

(** The double nearest to [q]: the value of a numeric literal, of
    [parseFloat] on a decimal text, and of an arithmetic operation
    whose exact result is [q]. *)
Definition fl (q : Q) : Q :=
  let a := Qabs q in
  let u := ulpExp a in
  let y := Qred (inject_Z (roundEven (a / pow2 u)) * pow2 u) in
  if ltb q 0 then - y else y.

(** [q] is a double. *)
Definition isDouble (q : Q) : bool := eqb (fl q) q.

(** [Math.sqrt]: the double nearest to the root.  The root of a double
    is a normal number and never half-way between two doubles; with [u]
    the exponent of its unit in the last place, the nearest integer to
    [sqrt q / 2^u] is [(floor (2 sqrt q / 2^u) + 1) / 2]. *)
Definition Math_sqrt (q : Q) : Q :=
  if Qle_bool q 0 then 0
  else
    let u := (binade q / 2 - 52)%Z in
    let r := Z.sqrt (Qfloor (4 * (q / pow2 (2 * u)))) in
    Qred (inject_Z ((r + 1) / 2) * pow2 u).

(** The integer [n] of [x.toFixed(p)], whose digits are those of
    [n / 10^p]: the nearest one to [x * 10^p], halves away from zero.
    (From 1e21 on [toFixed] writes [String(x)]; a double of that size is
    an integer, and either text reads back as [x].) *)
Definition toFixed (p : Z) (x : Q) : Z :=
  if ltb x 0
  then (- Qfloor (- x * inject_Z (pow10 p) + (1 # 2)))%Z
  else Qfloor (x * inject_Z (pow10 p) + (1 # 2)).

(** [parseFloat(x.toFixed(p))] *)
Definition roundTo (p : Z) (x : Q) : Q :=
  fl (toFixed p x # Z.to_pos (pow10 p)).

(** [n] with [10^(n-1) <= a < 10^n], for [a > 0]: an estimate from the
    binade, off by one at most, and its correction. *)
Definition decade (a : Q) : Z :=
  let e0 := (binade a * 30103 / 100000)%Z in
  let e1 := if Qle_bool (pow10Q (e0 + 1)) a then (e0 + 1)%Z else e0 in
  let e2 := if Qle_bool (pow10Q e1) a then e1 else (e1 - 1)%Z in
  (e2 + 1)%Z.

(** The shortest decimal that reads back as the double [x > 0], and
    among those of that length the one nearest to [x]: its digits as an
    integer and the power of ten it is multiplied by.  With [k] digits
    the candidates are the two multiples of [10^(n-k)] around [x];
    seventeen digits always identify a double. *)
Fixpoint shortest (fuel : nat) (k : Z) (n : Z) (x : Q) : Z * Z :=
  let w := pow10Q (n - k) in
  let t := x / w in
  let lo := Qfloor t in
  let hi := (lo + 1)%Z in
  let dlo := t - inject_Z lo in
  let dhi := inject_Z hi - t in
  let first := if ltb dlo dhi then lo
               else if ltb dhi dlo then hi
               else if Z.even lo then lo else hi in
  let second := if (first =? lo)%Z then hi else lo in
  match fuel with
  | O => (first, (n - k)%Z)
  | S fuel' =>
      if eqb (fl (inject_Z first * w)) x then (first, (n - k)%Z)
      else if eqb (fl (inject_Z second * w)) x then (second, (n - k)%Z)
      else shortest fuel' (k + 1) n x
  end.

(** Trailing zeros moved from the digits to the exponent. *)
Fixpoint stripZeros (fuel : nat) (s e : Z) : Z * Z :=
  match fuel with
  | O => (s, e)
  | S fuel' =>
      if (0 <? s)%Z && (s mod 10 =? 0)%Z then stripZeros fuel' (s / 10) (e + 1) else (s, e)
  end.

Fixpoint zeros (n : nat) : string :=
  match n with O => "" | S n' => String "0" (zeros n') end.

(** The digits with the decimal point after [n] of them, as
    Number::toString lays them out: plain up to 21 integer digits and
    down to 1e-6, with an exponent beyond. *)
Definition layout (digits : string) (n : Z) : string :=
  let k := Z.of_nat (String.length digits) in
  if ((k <=? n) && (n <=? 21))%Z then digits +:+ zeros (Z.to_nat (n - k))
  else if ((0 <? n) && (n <=? 21))%Z
  then String.substring 0 (Z.to_nat n) digits +:+ "."
       +:+ String.substring (Z.to_nat n) (Z.to_nat (k - n)) digits
  else if ((-6 <? n) && (n <=? 0))%Z then "0." +:+ zeros (Z.to_nat (- n)) +:+ digits
  else
    String.substring 0 1 digits
    +:+ (if (1 <? k)%Z then "." +:+ String.substring 1 (Z.to_nat (k - 1)) digits else "")
    +:+ "e" +:+ (if (0 <=? n - 1)%Z then "+" else "-") +:+ pretty (Z.abs (n - 1)).

(** [String(x)] *)
Definition toString (x : Q) : string :=
  if eqb x 0 then "0"
  else
    let a := Qabs x in
    let '(s, e) := shortest 17 1 (decade a) a in
    let '(s, e) := stripZeros 17 s e in
    let digits := pretty s in
    (if ltb x 0 then "-" else "")
    +:+ layout digits (e + Z.of_nat (String.length digits)).

End JsNumber.

Import JsString JsNumber.

(** A value interpolated into a template literal: [rDeg] returns a string
    or a number. *)
Inductive JsValue : Type :=
  | JsStr (s : string)
  | JsNum (x : Q).

Definition interpolate (v : JsValue) : string :=
  match v with
  | JsStr s => s
  | JsNum x => JsNumber.toString x
  end.

(** A [THREE.Vector3], or the angles of a [THREE.Euler]. *)
Record Vec3 : Type := vec3 { vx : Q; vy : Q; vz : Q }.

(** ** The numeric formatter *)

Section NumericFormatter.

Local Open Scope Q_scope.

(** [options.precision]; [0] stands for an unset or zero option, which
    [options.precision || 2] replaces by 2. *)
Variable precision : Q.

(** [Math.round(options.precision || 2)] *)
Definition digits : Z := Math_round (if JsNumber.eqb precision 0 then 2 else precision).

(** [rNbr(number)], for digits [toFixed] accepts (see [handleProps]). *)
Definition rNbr (number : Q) : Q := roundTo digits number.

(** [v.length()]: [Math.sqrt(x * x + y * y + z * z)] *)
Definition Vector3_length (v : Vec3) : Q :=
  Math_sqrt (fl (fl (fl (vx v * vx v) + fl (vy v * vy v)) + fl (vz v * vz v))).

(** [Math.round(parseFloat(number) * 100000)] *)
Definition scaled (number : Q) : Z := Math_round (fl (number * 100000)).

Definition sign (number : Q) : string := if ltb number 0 then "-" else "".

Definition rDeg (number : Q) : JsValue :=
  let abs := Z.abs (scaled number) in
  match find (fun i => (abs =? scaled (fl (Math_PI / inject_Z i)))%Z) (seqZ 1 10) with
  | Some i =>
      JsStr (sign number +:+ "Math.PI" +:+ (if (1 <? i)%Z then " / " +:+ pretty i else ""))
  | None =>
      match find (fun i => (abs =? scaled (fl (Math_PI * inject_Z i)))%Z) (seqZ 1 10) with
      | Some i =>
          JsStr (sign number +:+ "Math.PI" +:+ (if (1 <? i)%Z then " * " +:+ pretty i else ""))
      | None => JsNum (rNbr number)
      end
  end.

End NumericFormatter.

(** ** The data model: three.js objects as the compiler reads them *)

(** Errors the embedded code can raise. *)
Inductive JsError : Type :=
  | TypeError (message : string)
  | RangeError (message : string).

(** [obj.userData] as [handleProps] reads it: unset or without a key of
    its own; or the text [JSON.stringify] returns for it; or a value on
    which [JSON.stringify] throws (a cyclic structure, a BigInt). *)
Inductive UserData : Type :=
  | NoKeys
  | JsonText (text : string)
  | Unserializable (e : JsError).

(** Position, Euler rotation and scale of an object. *)
Record Transform : Type :=
  { t_position : Vec3; t_rotation : Vec3; t_scale : Vec3 }.

Record Geometry : Type := { geo_uuid : string }.

Record Material : Type :=
  { mat_uuid : string; mat_name : string; mat_type : string }.

(** The fields of a scene object that [parse] reads or writes.  A field the
    source tests for presence only is a [bool]; an optional number is an
    [option]; [target] is the identity of the light's target object;
    [count] is 0 when the field is unset. *)
Record Object3D : Type :=
  { type : string;
    name : string;
    isMesh : bool;
    isBone : bool;
    isInstancedMesh : bool;
    geometry : option Geometry;
    material : option Material;
    zoom : Q;
    far : Q;
    near : Q;
    fov : Q;
    instanceMatrix : bool;
    instanceColor : bool;
    skeleton : bool;
    visible : bool;
    castShadow : bool;
    receiveShadow : bool;
    morphTargetDictionary : bool;
    morphTargetInfluences : bool;
    intensity : option Q;
    angle : option Q;
    penumbra : option Q;
    decay : option Q;
    distance : option Q;
    up : Vec3;
    color : option string;
    position : Vec3;
    rotation : Vec3;
    scale : Vec3;
    userData : UserData;
    count : nat;
    target : option nat;
    __removed : bool }.

Definition zero3 : Vec3 := vec3 0%Q 0%Q 0%Q.
Definition one3 : Vec3 := vec3 1%Q 1%Q 1%Q.
Definition up3 : Vec3 := vec3 0%Q 1%Q 0%Q.

(** A freshly constructed [THREE.Object3D] of the given type and name. *)
Definition object3D (ty nm : string) : Object3D :=
  {| type := ty; name := nm;
     isMesh := false; isBone := false; isInstancedMesh := false;
     geometry := None; material := None;
     zoom := 1%Q; far := 2000%Q; near := fl (1 # 10); fov := 50%Q;
     instanceMatrix := false; instanceColor := false; skeleton := false;
     visible := true; castShadow := false; receiveShadow := false;
     morphTargetDictionary := false; morphTargetInfluences := false;
     intensity := None; angle := None; penumbra := None; decay := None;
     distance := None; up := up3; color := None;
     position := zero3; rotation := zero3; scale := one3;
     userData := NoKeys; count := 0; target := None; __removed := false |}.

Global Instance Object3D_inhabited : Inhabited Object3D :=
  populate (object3D "Object3D" "").

Definition set_position (v : Vec3) (o : Object3D) : Object3D :=
  {| type := type o; name := name o; isMesh := isMesh o; isBone := isBone o;
     isInstancedMesh := isInstancedMesh o; geometry := geometry o;
     material := material o; zoom := zoom o; far := far o; near := near o;
     fov := fov o; instanceMatrix := instanceMatrix o;
     instanceColor := instanceColor o; skeleton := skeleton o;
     visible := visible o; castShadow := castShadow o;
     receiveShadow := receiveShadow o;
     morphTargetDictionary := morphTargetDictionary o;
     morphTargetInfluences := morphTargetInfluences o;
     intensity := intensity o; angle := angle o; penumbra := penumbra o;
     decay := decay o; distance := distance o; up := up o; color := color o;
     position := v; rotation := rotation o; scale := scale o;
     userData := userData o; count := count o; target := target o;
     __removed := __removed o |}.

Definition set_rotation (v : Vec3) (o : Object3D) : Object3D :=
  {| type := type o; name := name o; isMesh := isMesh o; isBone := isBone o;
     isInstancedMesh := isInstancedMesh o; geometry := geometry o;
     material := material o; zoom := zoom o; far := far o; near := near o;
     fov := fov o; instanceMatrix := instanceMatrix o;
     instanceColor := instanceColor o; skeleton := skeleton o;
     visible := visible o; castShadow := castShadow o;
     receiveShadow := receiveShadow o;
     morphTargetDictionary := morphTargetDictionary o;
     morphTargetInfluences := morphTargetInfluences o;
     intensity := intensity o; angle := angle o; penumbra := penumbra o;
     decay := decay o; distance := distance o; up := up o; color := color o;
     position := position o; rotation := v; scale := scale o;
     userData := userData o; count := count o; target := target o;
     __removed := __removed o |}.

Definition set_scale (v : Vec3) (o : Object3D) : Object3D :=
  {| type := type o; name := name o; isMesh := isMesh o; isBone := isBone o;
     isInstancedMesh := isInstancedMesh o; geometry := geometry o;
     material := material o; zoom := zoom o; far := far o; near := near o;
     fov := fov o; instanceMatrix := instanceMatrix o;
     instanceColor := instanceColor o; skeleton := skeleton o;
     visible := visible o; castShadow := castShadow o;
     receiveShadow := receiveShadow o;
     morphTargetDictionary := morphTargetDictionary o;
     morphTargetInfluences := morphTargetInfluences o;
     intensity := intensity o; angle := angle o; penumbra := penumbra o;
     decay := decay o; distance := distance o; up := up o; color := color o;
     position := position o; rotation := rotation o; scale := v;
     userData := userData o; count := count o; target := target o;
     __removed := __removed o |}.

Definition set_removed (b : bool) (o : Object3D) : Object3D :=
  {| type := type o; name := name o; isMesh := isMesh o; isBone := isBone o;
     isInstancedMesh := isInstancedMesh o; geometry := geometry o;
     material := material o; zoom := zoom o; far := far o; near := near o;
     fov := fov o; instanceMatrix := instanceMatrix o;
     instanceColor := instanceColor o; skeleton := skeleton o;
     visible := visible o; castShadow := castShadow o;
     receiveShadow := receiveShadow o;
     morphTargetDictionary := morphTargetDictionary o;
     morphTargetInfluences := morphTargetInfluences o;
     intensity := intensity o; angle := angle o; penumbra := penumbra o;
     decay := decay o; distance := distance o; up := up o; color := color o;
     position := position o; rotation := rotation o; scale := scale o;
     userData := userData o; count := count o; target := target o;
     __removed := b |}.

Definition transform_of (o : Object3D) : Transform :=
  {| t_position := position o; t_rotation := rotation o; t_scale := scale o |}.

Definition set_transform (t : Transform) (o : Object3D) : Object3D :=
  set_scale (t_scale t) (set_rotation (t_rotation t) (set_position (t_position t) o)).

(** The scene as the loader hands it over: each object with its children. *)
Inductive Object : Type :=
  | Obj (fields : Object3D) (children : list Object).

(** The [objects] array and the heap are one list: an object's identity is
    its index.  Reading an index outside the list gives a fresh object and
    writing there does nothing; no function below does either on the
    trees [load] builds. *)
Abbreviation Heap := (list Object3D).

Definition get (h : Heap) (id : nat) : Object3D := h !!! id.
Definition update (id : nat) (f : Object3D -> Object3D) (h : Heap) : Heap :=
  <[id := f (get h id)]> h.

(** The hierarchy: object identities and the [children] arrays.  The
    [parent] of an object is the node above it. *)
Inductive Tree : Type :=
  | Node (id : nat) (children : list Tree).

Definition root (t : Tree) : nat := match t with Node i _ => i end.
Definition children (t : Tree) : list Tree := match t with Node _ cs => cs end.

(** Numbering of the loaded scene in pre-order, the order of
    [gltf.scene.traverse]. *)
Fixpoint load_from (next : nat) (o : Object) : Tree * Heap :=
  match o with
  | Obj f cs =>
      let fix go (n : nat) (cs : list Object) : list Tree * Heap :=
        match cs with
        | [] => ([], [])
        | c :: cs' =>
            let '(t, os) := load_from n c in
            let '(ts, os') := go (n + length os) cs' in
            (t :: ts, os ++ os')
        end in
      let '(ts, os) := go (S next) cs in
      (Node next ts, f :: os)
  end.

Definition load (scene : Object) : Tree * Heap := load_from 0 scene.

(** [obj.traverse(callback)]: the object, then its descendants, in
    pre-order. *)
Fixpoint traverse (t : Tree) : list nat :=
  match t with
  | Node i cs => i :: flat_map traverse cs
  end.

(** The node of the object [i] in the hierarchy, if it is attached. *)
Fixpoint subtree (i : nat) (t : Tree) : option Tree :=
  match t with
  | Node j cs =>
      if (i =? j) then Some t
      else
        (fix first (cs : list Tree) : option Tree :=
           match cs with
           | [] => None
           | c :: cs' =>
               match subtree i c with
               | Some s => Some s
               | None => first cs'
               end
           end) cs
  end.

(** Identities from the root down to the object [i], both included. *)
Fixpoint pathTo (i : nat) (t : Tree) : option (list nat) :=
  match t with
  | Node j cs =>
      if (i =? j) then Some [j]
      else
        (fix first (cs : list Tree) : option (list nat) :=
           match cs with
           | [] => None
           | c :: cs' =>
               match pathTo i c with
               | Some p => Some (j :: p)
               | None => first cs'
               end
           end) cs
  end.

(** [obj.parent] *)
Definition parent (t : Tree) (i : nat) : option nat :=
  match pathTo i t with
  | Some p => last (removelast p)
  | None => None
  end.

(** [parent.remove(obj)]: the object leaves the hierarchy with everything
    still below it.  The root has no parent and stays. *)
Fixpoint detach (i : nat) (t : Tree) : Tree :=
  match t with
  | Node j cs =>
      Node j (filter (fun c => negb (root c =? i)) (map (detach i) cs))
  end.

(** [children.push(sub)] on the object [p]. *)
Fixpoint attach (p : nat) (sub : Tree) (t : Tree) : Tree :=
  match t with
  | Node j cs =>
      let cs' := map (attach p sub) cs in
      Node j (if (j =? p) then cs' ++ [sub] else cs')
  end.

(** [p.add(c)]: [c] leaves its parent and becomes the last child of [p];
    three.js refuses to add an object to itself.  [parse] only adds an
    object to the scene root or to one of its own ancestors, never to an
    object below it. *)
Definition add (p c : nat) (t : Tree) : Tree :=
  if (p =? c) then t
  else
    match subtree c t with
    | Some sub => attach p sub (detach c t)
    | None => t
    end.

(** ** Configuration and input *)

(** [options]: an unset flag is [false], an unset text the empty string,
    an unset precision 0.  [debug] and [console] only steer logging. *)
Record Options : Type :=
  { precision : Q;
    instance : bool;
    instanceall : bool;
    keepgroups : bool;
    keepnames : bool;
    bones : bool;
    shadows : bool;
    meta : bool;
    header : string;
    fileSize : string (* [options.size] *) }.

Definition defaultOptions : Options :=
  {| precision := 0; instance := false; instanceall := false;
     keepgroups := false; keepnames := false; bones := false;
     shadows := false; meta := false; header := ""; fileSize := "" |}.

(** An entry of [duplicates.geometries]. *)
Record DuplicateRecord : Type :=
  { dup_count : nat; dup_name : string; dup_node : string }.

Definition increment (r : DuplicateRecord) : DuplicateRecord :=
  {| dup_count := S (dup_count r); dup_name := dup_name r; dup_node := dup_node r |}.

Definition nl : string := String (ascii_of_nat 10) EmptyString.
Definition dq : string := String (ascii_of_nat 34) EmptyString.

(** [key="value" ], with the blank that follows every attribute. *)
Definition attr (key value : string) : string :=
  key +:+ "=" +:+ dq +:+ value +:+ dq +:+ " ".

Inductive Result (A : Type) : Type :=
  | Ok (a : A)
  | Throw (e : JsError).
Arguments Ok {A} a.
Arguments Throw {A} e.

(** Sequencing: a raised error ends the computation.  stdpp's notation
    [x ← r; k] is used for it. *)
Global Instance Result_bind : MBind Result := fun A B k r =>
  match r with
  | Ok a => k a
  | Throw e => Throw e
  end.

(** A material of [gltf.parser.json.materials], as far as [parse] reads
    it: its name, whether it has the extension KHR_materials_unlit, the
    index of its emissive texture, and whether
    [pbrMetallicRoughness.baseColorTexture] is defined. *)
Record JsonMaterial : Type :=
  { jm_name : string;
    jm_unlit : bool;
    jm_emissiveTexture : option nat;
    jm_baseColorTexture : bool }.

(** [gltf.parser.json]: the extras of the asset (key and text of the
    value), [extensionsUsed], the materials, the [source] of each texture
    and the [uri] of each image (empty when unset). *)
Record Json : Type :=
  { extras : option (list (string * string));
    extensionsUsed : list string;
    materials : option (list JsonMaterial);
    textures : list (option nat);
    images : option (list string) }.

Definition emptyJson : Json :=
  {| extras := None; extensionsUsed := []; materials := None;
     textures := []; images := None |}.

(** The argument [gltf]: the scene, the names of the animation clips and
    the JSON of the file. *)
Record GLTF : Type :=
  { scene : Object;
    animations : list string;
    json : Json }.

(** [parse] wraps a bare scene this way. *)
Definition ofObject3D (o : Object) : GLTF :=
  {| scene := o; animations := []; json := emptyJson |}.

Section Parser.

(** [isVarName.js] is imported by the parser; it decides whether a name
    can follow a dot. *)
Variable isVarName : string -> bool.

(** three.js: [o.updateWorldMatrix(true, false)] followed by
    [o.matrixWorld.decompose(...)], as a function of the local transforms
    from the root down to [o]; the rotation is the Euler rotation the
    decomposed quaternion gives. *)
Variable worldTransform : list Transform -> Transform.

Definition sanitizeName (nm : string) : string :=
  if isVarName nm then "." +:+ nm else "['" +:+ nm +:+ "']".

(** *** The graph indexer *)

(** [Object.values(duplicates.geometries).find(({ name }) => name === a)
     !== undefined] *)
Definition nameTaken (geometries : gmap string DuplicateRecord) (a : string) : bool :=
  bool_decide (a ∈ (dup_name <$> (map_to_list geometries).*2)).

Definition newAttempt (attempt : string) (index : nat) : string :=
  if 0 <? index then attempt +:+ pretty index else attempt.

(** [uniqueName(attempt, index)], with a bound on the depth of the
    recursion; [uniqueName_from_is_Some] shows that the bound [uniqueName]
    takes is never reached. *)
Fixpoint uniqueName_from (fuel : nat) (geometries : gmap string DuplicateRecord)
    (attempt : string) (index : nat) : option string :=
  match fuel with
  | O => None
  | S fuel' =>
      if nameTaken geometries (newAttempt attempt index)
      then uniqueName_from fuel' geometries attempt (S index)
      else Some (newAttempt attempt index)
  end.

Definition uniqueName (geometries : gmap string DuplicateRecord) (attempt : string) : string :=
  default attempt (uniqueName_from (S (size geometries)) geometries attempt 0).

(** [child.geometry.uuid + child.material?.name ?? ''].  The sum binds
    tighter than [??]: the left operand of [??] is a string, never
    undefined, and a missing material is concatenated as the text
    "undefined". *)
Definition signature (g : Geometry) (m : option Material) : string :=
  geo_uuid g +:+ match m with Some m => mat_name m | None => "undefined" end.

(** [(child.name || 'Part').replace(/[^a-zA-Z]/g, '')], first letter in
    upper case. *)
Definition baseName (nm : string) : string :=
  capitalize (replaceOutside is_letter "" (if String.eqb nm "" then "Part" else nm)).

(** The names of the properties of [Object.prototype].  Reading one of
    them from a plain object that has no entry of that name gives the
    inherited value, a function, or the prototype itself for
    [__proto__]: a truthy value without a count. *)
Definition prototypeKeys : list string :=
  ["constructor"; "__proto__"; "hasOwnProperty"; "isPrototypeOf";
   "propertyIsEnumerable"; "toLocaleString"; "toString"; "valueOf";
   "__defineGetter__"; "__defineSetter__"; "__lookupGetter__"; "__lookupSetter__"].

Definition inherited (key : string) : bool := bool_decide (key ∈ prototypeKeys).

(** The body of the second traversal.  For an inherited key without an
    entry of its own the test [!duplicates.geometries[key]] fails and
    [count++] is applied to the inherited value: no entry is made. *)
Definition indexGeometry (geometries : gmap string DuplicateRecord) (child : Object3D)
    : gmap string DuplicateRecord :=
  if isMesh child then
    match geometry child with
    | Some g =>
        let key := signature g (material child) in
        match geometries !! key with
        | None =>
            if inherited key then geometries
            else
              <[key := {| dup_count := 1;
                          dup_name := uniqueName geometries (baseName (name child));
                          dup_node := "nodes" +:+ sanitizeName (name child) |}]> geometries
        | Some r => <[key := increment r]> geometries
        end
    | None => geometries
    end
  else geometries.

Definition indexGeometries (objects : Heap) : gmap string DuplicateRecord :=
  foldl indexGeometry ∅ objects.

(** Entries seen once are deleted unless [instanceall] is set. *)
Definition pruneDuplicates (options : Options)
    (geometries : gmap string DuplicateRecord) : gmap string DuplicateRecord :=
  if instanceall options then geometries
  else filter (fun kr => dup_count kr.2 ≠ 1) geometries.

Definition duplicateGeometries (options : Options) (objects : Heap)
    : gmap string DuplicateRecord :=
  pruneDuplicates options (indexGeometries objects).

(** *** Attribute keys read back from the markup

    [str.matchAll(regex)] for the regular expression of [prune]: a run
    of characters of the class a-z, dash, A-Z (the first group), the two
    characters equals sign and opening brace, a run of letters, digits
    and the characters dot, brackets, dash, comma, blank and slash (the
    second group), and a closing brace.  Neither run can give back a
    character to what follows it (the equals sign and the closing brace
    are in neither class), so a match at a position is decided by one
    greedy scan; the search resumes after each match. *)

Definition isKeyChar (c : ascii) : bool :=
  is_lower c || is_upper c || Ascii.eqb c "-"%char.

Definition isValueChar (c : ascii) : bool :=
  is_lower c || is_upper c || is_digit c
  || bool_decide (c ∈ ["."; "["; "]"; "-"; ","; " "; "/"]%char).

(** The longest prefix of [s] in the class, and the rest. *)
Fixpoint span (class : ascii -> bool) (s : string) : string * string :=
  match s with
  | EmptyString => (EmptyString, EmptyString)
  | String c r =>
      if class c then let '(run, rest) := span class r in (String c run, rest)
      else (EmptyString, s)
  end.

(** A match that starts at the head of [s]: the two groups and the
    number of characters matched. *)
Definition matchAt (s : string) : option (string * string * nat) :=
  let '(key, r1) := span isKeyChar s in
  match r1 with
  | String "="%char (String "{"%char r2) =>
      let '(value, r3) := span isValueChar r2 in
      match r3 with
      | String "}"%char _ =>
          Some (key, value, String.length key + String.length value + 3)
      | _ => None
      end
  | _ => None
  end.

(** [skip] characters of the last match are still to be passed. *)
Fixpoint matchAll_from (skip : nat) (s : string) : list (string * string) :=
  match s with
  | EmptyString => []
  | String _ r =>
      match skip with
      | S k => matchAll_from k r
      | O =>
          match matchAt s with
          | Some (key, value, len) => (key, value) :: matchAll_from (len - 1) r
          | None => matchAll_from 0 r
          end
      end
  end.

Definition matchAll (s : string) : list (string * string) := matchAll_from 0 s.

(** [[...str.matchAll(regex)].map(([, match]) => match)] *)
Definition keysOf (s : string) : list string := (matchAll s).*1.

(** *** The emitter: what [parse] closes over *)

Section Emitter.

Variable options : Options.
(** [gltf.animations], the clip names. *)
Variable clips : list string.
(** [duplicates.geometries], after the deletion of single entries. *)
Variable geometries : gmap string DuplicateRecord.

Definition getType (obj : Object3D) : string :=
  let ty := uncapitalize (type obj) in
  let ty := if String.eqb ty "object3D" then "group" else ty in
  let ty := if String.eqb ty "perspectiveCamera" then "TresPerspectiveCamera" else ty in
  let ty := if String.eqb ty "orthographicCamera" then "TresOrthographicCamera" else ty in
  ty.

Definition getTresType (ty : string) : string := "Tres" +:+ capitalize ty.

(** The entry of [duplicates.geometries] for [obj.geometry.uuid +
    obj.material.name].  An inherited property found in its place has
    no count above the threshold of [getInfo], so the object is not
    instanced then either. *)
Definition duplicateOf (obj : Object3D) : option DuplicateRecord :=
  match geometry obj, material obj with
  | Some g, Some m => geometries !! (geo_uuid g +:+ mat_name m)
  | _, _ => None
  end.

(** [getInfo(obj).instanced], with the entry that makes it true. *)
Definition instancedAs (obj : Object3D) : option DuplicateRecord :=
  if instance options || instanceall options then
    match duplicateOf obj with
    | Some r =>
        if (if instanceall options then 0 else 1) <? dup_count r then Some r else None
    | None => None
    end
  else None.

Definition instanced (obj : Object3D) : bool :=
  match instancedAs obj with Some _ => true | None => false end.

(** [getInfo(obj).animated] *)
Definition animated : bool := 0 <? length clips.

Definition num (x : Q) : string := JsNumber.toString (rNbr (precision options) x).

(** [rNbr(v.length())] *)
Definition rNbrLength (v : Vec3) : Q := rNbr (precision options) (Vector3_length v).
Definition deg (x : Q) : string := interpolate (rDeg (precision options) x).

Definition truthy (x : option Q) : option Q :=
  match x with
  | Some v => if JsNumber.eqb v 0 then None else Some v
  | None => None
  end.

Definition vec3_eqb (a b : Vec3) : bool :=
  JsNumber.eqb (vx a) (vx b) && JsNumber.eqb (vy a) (vy b) && JsNumber.eqb (vz a) (vz b).

Definition when (b : bool) (s : string) : string := if b then s else "".

Definition nodeRef (obj : Object3D) (field : string) : string :=
  "nodes" +:+ sanitizeName (name obj) +:+ field.

(** The attribute text of [handleProps(obj)] when every [toFixed]
    succeeds. *)
Definition propsText (obj : Object3D) : string :=
  let ty := getType obj in
  let isCamera :=
    String.eqb ty "TresPerspectiveCamera" || String.eqb ty "TresOrthographicCamera" in
  let r := rNbr (precision options) in
  when isCamera
    (attr ":make-default" "false"
     +:+ when (negb (JsNumber.eqb (zoom obj) 1)) (attr ":zoom" (num (zoom obj)))
     +:+ when (negb (JsNumber.eqb (far obj) 2000)) (attr ":far" (num (far obj)))
     +:+ when (negb (JsNumber.eqb (near obj) (fl (1 # 10)))) (attr ":near" (num (near obj))))
  +:+ when (String.eqb ty "TresPerspectiveCamera")
    (when (negb (JsNumber.eqb (fov obj) 50)) (attr ":fov" (num (fov obj))))
  +:+ when (negb (instanced obj))
    (when (String.eqb ty "mesh" && shadows options) "cast-shadow receive-shadow "
     +:+ when (bool_decide (is_Some (geometry obj)) && negb (isInstancedMesh obj))
           (attr ":geometry" (nodeRef obj ".geometry"))
     +:+ match material obj with
         | Some m =>
             when (negb (isInstancedMesh obj))
               (if String.eqb (mat_name m) ""
                then attr ":material" (nodeRef obj ".material")
                else attr ":material" ("materials" +:+ sanitizeName (mat_name m)))
         | None => ""
         end
     +:+ when (instanceMatrix obj) (attr ":instance-matrix" (nodeRef obj ".instanceMatrix"))
     +:+ when (instanceColor obj) (attr ":instance-color" (nodeRef obj ".instanceColor"))
     +:+ when (skeleton obj) (attr ":skeleton" (nodeRef obj ".skeleton"))
     +:+ when (negb (visible obj)) (attr ":visible" "false")
     +:+ when (castShadow obj) "cast-shadow "
     +:+ when (receiveShadow obj) "receive-shadow "
     +:+ when (morphTargetDictionary obj)
           (attr ":morph-target-dictionary" (nodeRef obj ".morphTargetDictionary"))
     +:+ when (morphTargetInfluences obj)
           (attr ":morph-target-influences" (nodeRef obj ".morphTargetInfluences"))
     +:+ match truthy (intensity obj) with
         | Some v => when (negb (JsNumber.eqb (r v) 0)) (attr ":intensity" (num v))
         | None => ""
         end
     +:+ match truthy (angle obj) with
         | Some v => when (negb (JsNumber.eqb v (fl (Math_PI / 3)))) (attr ":angle" (deg v))
         | None => ""
         end
     +:+ match truthy (penumbra obj) with
         | Some v => when (negb (JsNumber.eqb (r v) 0)) (attr ":penumbra" (num v))
         | None => ""
         end
     +:+ match truthy (decay obj) with
         | Some v => when (negb (JsNumber.eqb (r v) 1)) (attr ":decay" (num v))
         | None => ""
         end
     +:+ match truthy (distance obj) with
         | Some v => when (negb (JsNumber.eqb (r v) 0)) (attr ":distance" (num v))
         | None => ""
         end
     +:+ when (negb (vec3_eqb (up obj) up3))
           (attr ":up" ("[" +:+ num (vx (up obj)) +:+ ", " +:+ num (vy (up obj))
                        +:+ ", " +:+ num (vz (up obj)) +:+ "]")))
  +:+ match color obj with
      | Some hex => when (negb (String.eqb hex "ffffff")) (attr "color" ("#" +:+ hex))
      | None => ""
      end
  +:+ when (negb (JsNumber.eqb (rNbrLength (position obj)) 0))
        (attr ":position" ("[" +:+ num (vx (position obj)) +:+ ", "
                           +:+ num (vy (position obj)) +:+ ", "
                           +:+ num (vz (position obj)) +:+ "]"))
  +:+ when (negb (JsNumber.eqb (rNbrLength (rotation obj)) 0))
        (attr ":rotation" ("[" +:+ deg (vx (rotation obj)) +:+ ", "
                           +:+ deg (vy (rotation obj)) +:+ ", "
                           +:+ deg (vz (rotation obj)) +:+ "]"))
  +:+ (let rX := r (vx (scale obj)) in
       let rY := r (vy (scale obj)) in
       let rZ := r (vz (scale obj)) in
       when (negb (JsNumber.eqb rX 1 && JsNumber.eqb rY 1 && JsNumber.eqb rZ 1))
         (if JsNumber.eqb rX rY && JsNumber.eqb rX rZ
          then attr ":scale" (JsNumber.toString rX)
          else attr ":scale" ("[" +:+ JsNumber.toString rX +:+ ", "
                              +:+ JsNumber.toString rY +:+ ", "
                              +:+ JsNumber.toString rZ +:+ "]")))
  +:+ match userData obj with
      | JsonText json => when (meta options) (":user-data='" +:+ json +:+ "' ")
      | _ => ""
      end.

(** [toFixed] accepts from 0 to 100 digits. *)
Definition toFixedAccepts (d : Z) : bool := (0 <=? d)%Z && (d <=? 100)%Z.

(** [handleProps(obj)].  Every call reaches [rNbr] (at the latest for
    the position), and [toFixed] raises a RangeError for a number of
    digits below 0 or above 100; at the end [JSON.stringify] raises its
    error on user data it cannot write, when [meta] asks for them. *)
Definition handleProps (obj : Object3D) : Result string :=
  if negb (toFixedAccepts (digits (precision options)))
  then Throw (RangeError "toFixed() digits argument must be between 0 and 100")
  else
    match userData obj with
    | Unserializable e => if meta options then Throw e else Ok (propsText obj)
    | _ => Ok (propsText obj)
    end.

Definition equalOrNegated (a b : Vec3) : bool :=
  (JsNumber.eqb (vx a) (vx b) || JsNumber.eqb (vx a) (- vx b))
  && (JsNumber.eqb (vy a) (vy b) || JsNumber.eqb (vy a) (- vy b))
  && (JsNumber.eqb (vz a) (vz b) || JsNumber.eqb (vz a) (- vz b)).

(** [dst[key].copy(src[key])] for the keys [prune] lets through; its
    guard [hasOtherProps] excludes every other key. *)
Definition copyKey (key : string) (src dst : Object3D) : Object3D :=
  if String.eqb key "position" then set_position (position src) dst
  else if String.eqb key "rotation" then set_rotation (rotation src) dst
  else if String.eqb key "scale" then set_scale (scale src) dst
  else dst.

Definition isTransformKey (key : string) : bool :=
  bool_decide (key ∈ ["position"; "scale"; "rotation"]).

Definition isGroupType (ty : string) : bool :=
  String.eqb ty "group" || String.eqb ty "object3D".

(** [prune(obj, children, result, oldResult)] for the object [id] with
    the child nodes [kids].  [printFirst] is [print(first, true)] and
    [printGrandchildren] the loop of [print] over [first.children].
    [None] is the result [undefined].  The first test of the source,
    [result === oldResult || obj.children.length === 0], is taken by cases
    on the children, so that [first] is at hand in the rest. *)
Definition prune (id : nat) (kids : list Tree)
    (printFirst printGrandchildren : Heap -> Result (string * Heap))
    (children_ result oldResult : string) (h : Heap)
    : Result (option string * Heap) :=
  let obj := get h id in
  let ty := getType obj in
  if negb (__removed obj) && negb (keepgroups options) && negb animated
     && (String.eqb ty "group" || String.eqb ty "scene")
  then
    match kids with
    | [] => Ok (Some children_, update id (set_removed true) h)
    | firstNode :: _ =>
        if String.eqb result oldResult
        then Ok (Some children_, update id (set_removed true) h)
        else
          let fid := root firstNode in
          let first := get h fid in
          firstProps ← handleProps first;
          let keys1 := keysOf result in
          let keys2 := keysOf firstProps in
          let doubleNegative :=
            (length kids =? 1) && String.eqb (getType first) ty
            && equalOrNegated (rotation obj) (rotation first) in
          if doubleNegative
             && (length keys1 =? 1) && (length keys2 =? 1)
             && bool_decide (keys1 !! 0 = Some "rotation")
             && bool_decide (keys2 !! 0 = Some "rotation")
          then
            let h1 := update id (set_removed true) (update fid (set_removed true) h) in
            '(s, h2) ← printGrandchildren h1;
            Ok (Some s, h2)
          else if doubleNegative
             && (length keys1 =? 1) && (1 <? length keys2)
             && bool_decide (keys1 !! 0 = Some "rotation")
             && bool_decide ("rotation" ∈ keys2)
          then
            let h1 := update fid (set_rotation zero3) (update id (set_removed true) h) in
            '(s, h2) ← printFirst h1;
            Ok (Some s, h2)
          else
            let isChildTransformed :=
              bool_decide ("position" ∈ keys2) || bool_decide ("rotation" ∈ keys2)
              || bool_decide ("scale" ∈ keys2) in
            let hasOtherProps := existsb (fun key => negb (isTransformKey key)) keys1 in
            if (length kids =? 1) && negb (__removed first)
               && negb isChildTransformed && negb hasOtherProps
            then
              let h1 :=
                foldl (fun h key => update fid (copyKey key (get h id)) h) h keys1 in
              '(s, h2) ← printFirst h1;
              Ok (Some s, update id (set_removed true) h2)
            else
              let empty :=
                filter (fun o => negb (isGroupType (getType (get h o))))
                       (traverse (Node id kids)) in
              if length empty =? 0 then Ok (Some "", h) else Ok (None, h)
    end
  else Ok (None, h).

(** The opening of the element in [print], and the value [type] has
    afterwards. *)
Definition openTag (obj : Object3D) : Result (string * string) :=
  match instancedAs obj with
  | Some r => Ok ("<instances." +:+ dup_name r +:+ " ", "instances." +:+ dup_name r)
  | None =>
      if isInstancedMesh obj then
        match material obj with
        | None => Throw (TypeError "Cannot read properties of undefined (reading 'name')")
        | Some m =>
            let geo := nodeRef obj ".geometry" in
            let mat :=
              if String.eqb (mat_name m) "" then nodeRef obj ".material"
              else "materials" +:+ sanitizeName (mat_name m) in
            let cnt :=
              if count obj =? 0 then nodeRef obj ".count" else pretty (count obj) in
            Ok ("<TresInstancedMesh "
                +:+ attr ":args" ("[" +:+ geo +:+ ", " +:+ mat +:+ ", " +:+ cnt +:+ "]"),
                "TresInstancedMesh")
        end
      else if String.eqb (getType obj) "bone"
      then Ok ("<TresPrimitive " +:+ attr ":object" (nodeRef obj ""), getType obj)
      else Ok ("<" +:+ getTresType (getType obj) +:+ " ", getType obj)
  end.

(** The [name] attribute of [print]. *)
Definition nameAttr (obj : Object3D) : string :=
  when ((0 <? String.length (name obj))
        && (keepnames options || morphTargetDictionary obj || animated))
    (attr "name" (name obj)).

(** [obj.target && obj.children[0] === obj.target] *)
Definition targetIsFirstChild (obj : Object3D) (kids : list Tree) : bool :=
  match target obj, kids with
  | Some tg, k :: _ => tg =? root k
  | _, _ => false
  end.

Definition lightWithTarget (obj tgt : Object3D) : Result string :=
  let tresLightType := getTresType (getType obj) in
  props ← handleProps obj;
  targetProps ← handleProps tgt;
  Ok ("<" +:+ tresLightType +:+ " " +:+ props +:+ " :target=" +:+ dq
      +:+ nodeRef obj ".target" +:+ dq +:+ ">" +:+ nl
      +:+ "        <TresPrimitive " +:+ attr ":object" (nodeRef obj ".target")
      +:+ targetProps +:+ " />" +:+ nl
      +:+ "      </" +:+ tresLightType +:+ ">").

(** [children.forEach((child) => (text += print(child)))], from the text
    [acc]. *)
Definition printEach (print : Tree -> Heap -> Result (string * Heap))
    : list Tree -> string -> Heap -> Result (string * Heap) :=
  fix each (ks : list Tree) (acc : string) (h : Heap) {struct ks} :=
    match ks with
    | [] => Ok (acc, h)
    | k :: ks' => '(s, h') ← print k h; each ks' (acc +:+ s) h'
    end.

Definition bonePrimitive (obj : Object3D) : string :=
  "<TresPrimitive " +:+ attr ":object" (nodeRef obj "") +:+ "/>".

(** The end of [print] when [prune] has returned [undefined]. *)
Definition closeTag (ty ty' children_ result : string) : string :=
  if 0 <? String.length children_
  then result +:+ ">" +:+ nl +:+ children_
       +:+ (if String.eqb ty' "bone" then "</TresPrimitive>"
            else "</" +:+ getTresType ty +:+ ">")
  else result +:+ "/>" +:+ nl.

(** [print(obj)] for the object at the root of [t]: the markup and the
    heap it leaves. *)
Fixpoint print (t : Tree) (h : Heap) {struct t} : Result (string * Heap) :=
  match t with
  | Node id kids =>
      let obj := get h id in
      let ty := getType obj in
      if __removed obj && (0 <? length kids) then printEach print kids "" h
      else if negb (bones options) && String.eqb ty "bone"
      then Ok (bonePrimitive obj, h)
      else if endsWith ty "Light" && targetIsFirstChild obj kids
      then
        s ← lightWithTarget obj (get h (default 0 (target obj)));
        Ok (s, h)
      else
        '(children_, h1) ← printEach print kids "" h;
        let obj := get h1 id in
        '(opening, ty') ← openTag obj;
        let oldResult := opening +:+ nameAttr obj in
        props ← handleProps obj;
        let result := oldResult +:+ props in
        '(pruned, h2) ←
          prune id kids
            (match kids with
             | first :: _ => print first
             | [] => fun h => Ok ("", h)
             end)
            (match kids with
             | Node _ grandchildren :: _ => printEach print grandchildren ""
             | [] => fun h => Ok ("", h)
             end)
            children_ result oldResult h1;
        match pruned with
        | Some replacement => Ok (replacement, h2)
        | None => Ok (closeTag ty ty' children_ result, h2)
        end
  end.

(** [printTypes(objects, animations)].  The function is defined in
    [parse] and called nowhere. *)
Definition hasInstances : bool :=
  (instance options || instanceall options) && (0 <? size geometries).

Definition bracketName (nm : string) : string :=
  if isVarName nm then nm else "['" +:+ nm +:+ "']".

Fixpoint join (sep : string) (l : list string) : string :=
  match l with
  | [] => ""
  | [s] => s
  | s :: l' => s +:+ sep +:+ join sep l'
  end.

(** [[...new Set(l)]] for values compared by [eqb]. *)
Fixpoint distinct {A : Type} (eqb : A -> A -> bool) (seen l : list A) : list A :=
  match l with
  | [] => []
  | a :: l' =>
      if existsb (eqb a) seen then distinct eqb seen l'
      else a :: distinct eqb (a :: seen) l'
  end.

Definition printTypes (t : Tree) (h : Heap) : string :=
  let objects := seq 0 (length h) in
  let meshes :=
    filter (fun o => isMesh (get h o) && negb (__removed (get h o))) objects in
  let parentIsBone o :=
    match parent t o with Some q => isBone (get h q) | None => false end in
  let bones_ :=
    filter (fun o => isBone (get h o) && negb (parentIsBone o)
                     && negb (__removed (get h o))) objects in
  let materials_ :=
    distinct (fun a b => String.eqb (mat_uuid a) (mat_uuid b)) []
      (omap (fun o => match material (get h o) with
                      | Some m => if String.eqb (mat_name m) "" then None else Some m
                      | None => None
                      end) objects) in
  let animationTypes :=
    when (0 <? length clips)
      (nl +:+ nl +:+ "  type ActionName = "
       +:+ join " | " (map (fun clip => dq +:+ clip +:+ dq) clips) +:+ ";" +:+ nl
       +:+ nl +:+ "  interface GLTFAction extends THREE.AnimationClip { name: ActionName }"
       +:+ nl) in
  let types :=
    distinct String.eqb [] (map (fun o => getType (get h o)) (meshes ++ bones_)) in
  let contextType :=
    when hasInstances
      (nl +:+ "type ContextType = Record<string, React.ForwardRefExoticComponent<" +:+ nl
       +:+ "     "
       +:+ join " | " (map (fun ty => "JSX.IntrinsicElements['" +:+ ty +:+ "']") types)
       +:+ nl +:+ "    >>" +:+ nl) in
  let entry o := bracketName (name (get h o)) +:+ ": THREE." +:+ type (get h o) in
  nl +:+ animationTypes +:+ nl +:+ "type GLTFResult = GLTF & {" +:+ nl
  +:+ "    nodes: {" +:+ nl
  +:+ "      " +:+ join "," (map entry meshes) +:+ nl
  +:+ "      " +:+ join "," (map entry bones_) +:+ nl
  +:+ "    }" +:+ nl
  +:+ "    materials: {" +:+ nl
  +:+ "      "
  +:+ join "," (map (fun m => bracketName (mat_name m) +:+ ": THREE." +:+ mat_type m)
                    materials_) +:+ nl
  +:+ "    }" +:+ nl
  +:+ "    animations: GLTFAction[]" +:+ nl
  +:+ "  }" +:+ nl +:+ contextType.

(** *** The passes of [parse] over the hierarchy *)

(** The body of the flattening loop, for the object [o]. *)
Definition flattenObject (st : Tree * Heap) (o : nat) : Tree * Heap :=
  let '(t, h) := st in
  if isMesh (get h o) then
    let chain := (fun i => transform_of (get h i)) <$> default [o] (pathTo o t) in
    let h' := update o (set_transform (worldTransform chain)) h in
    (if bool_decide (parent t o = Some (root t)) then t else add (root t) o t, h')
  else st.

Definition flatten (t : Tree) (h : Heap) : Tree * Heap :=
  foldl flattenObject (t, h) (seq 0 (length h)).

(** The parent the children of a removed object move to. *)
Definition survivingParent (t : Tree) (h : Heap) (o : nat) : nat :=
  let ancestors := reverse (removelast (default [] (pathTo o t))) in
  default (root t) (find (fun a => negb (__removed (get h a))) ancestors).

(** "Move children of deleted objects to their new parents" *)
Definition moveChildren (h : Heap) (t : Tree) (o : nat) : Tree :=
  if __removed (get h o) then
    let p := survivingParent t h o in
    let kids := root <$> match subtree o t with Some s => children s | None => [] end in
    foldl (fun t c => add p c t) t kids
  else t.

(** "Remove deleted objects" *)
Definition removeDeleted (h : Heap) (t : Tree) (o : nat) : Tree :=
  if __removed (get h o) then detach o t else t.

Definition restructure (t : Tree) (h : Heap) : Tree :=
  let objects := seq 0 (length h) in
  foldl (removeDeleted h) (foldl (moveChildren h) t objects) objects.

(** The body of the [try] block: the value of [scene]. *)
Definition compileScene (t : Tree) (h : Heap) : Result string :=
  if keepgroups options then
    '(scene_, _) ← print t h; Ok scene_
  else
    '(_, h1) ← print t h;
    '(scene_, _) ← print (restructure t h1) h1;
    Ok scene_.

End Emitter.

(** *** The document *)

(** [parseExtras(extras)] *)
Definition parseExtras (ex : option (list (string * string))) : string :=
  match ex with
  | Some entries =>
      join nl (map (fun kv => capitalize kv.1 +:+ ": " +:+ kv.2) entries) +:+ nl
  | None => ""
  end.

Definition headerText (options : Options) (js : Json) : string :=
  "/*" +:+ nl
  +:+ (if String.eqb (header options) ""
       then "Auto-generated by: https://github.com/OmnomnomTee/gltfvue"
       else header options)
  +:+ " "
  +:+ when (negb (String.eqb (fileSize options) ""))
        (nl +:+ "Files: " +:+ fileSize options)
  +:+ nl +:+ parseExtras (extras js) +:+ "*/".

(** What the loop over [gltfJson.materials] appends for one material. *)
Definition materialFix (url : string) (js : Json) (mat : JsonMaterial) : string :=
  when (jm_unlit mat)
    (let setWhite :=
       "materials" +:+ sanitizeName (jm_name mat) +:+ ".color.setRGB(1, 1, 1)" +:+ nl in
     if jm_baseColorTexture mat then setWhite
     else
       match jm_emissiveTexture mat, images js with
       | Some texIndex, Some imgs =>
           setWhite +:+
           match mjoin (textures js !! texIndex) with
           | Some imageIndex =>
               match imgs !! imageIndex with
               | Some imagePath =>
                   when (negb (String.eqb imagePath ""))
                     (let dir := String.substring 0 (afterLastSlash url) url in
                      let var :=
                        replaceOutside (fun c => is_letter c || is_digit c) "_"
                                       (jm_name mat) +:+ "_map" in
                      "const " +:+ var +:+ " = textureLoader.load('" +:+ dir
                        +:+ imagePath +:+ "')" +:+ nl
                      +:+ var +:+ ".flipY = false" +:+ nl
                      +:+ "materials" +:+ sanitizeName (jm_name mat) +:+ ".map = "
                        +:+ var +:+ nl)
               | None => ""
               end
           | None => ""
           end
       | _, _ => ""
       end).

Definition materialFixCode (url : string) (js : Json) : string :=
  match materials js with
  | Some mats =>
      when (bool_decide ("KHR_materials_unlit" ∈ extensionsUsed js)
            && existsb (fun mat => jm_unlit mat
                                   && bool_decide (is_Some (jm_emissiveTexture mat))) mats)
        (nl +:+ "// Fix unlit materials: Apply emissive textures to base color for proper display"
         +:+ nl +:+ "import { TextureLoader } from 'three'"
         +:+ nl +:+ "const textureLoader = new TextureLoader()" +:+ nl +:+ nl
         +:+ foldr (fun mat rest => materialFix url js mat +:+ rest) "" mats
         +:+ nl +:+ "// Mark materials as needing update" +:+ nl
         +:+ "Object.values(materials).forEach(mat => mat.needsUpdate = true)" +:+ nl)
  | None => ""
  end.

(** The Vue single-file component around the markup [scene_]. *)
Definition document (url : string) (hasAnimations : bool) (fix_ scene_ : string)
    : string :=
  "<script setup lang=" +:+ dq +:+ "ts" +:+ dq +:+ ">" +:+ nl
  +:+ "import { useGLTF } from '@tresjs/cientos'"
  +:+ when hasAnimations (nl +:+ "import { useAnimations } from '@tresjs/cientos'")
  +:+ nl +:+ nl
  +:+ "const { nodes, materials" +:+ when hasAnimations ", animations"
  +:+ " } = await useGLTF('" +:+ url +:+ "')" +:+ nl
  +:+ fix_ +:+ when hasAnimations "const { actions } = useAnimations(animations)" +:+ nl
  +:+ "</script>" +:+ nl +:+ nl
  +:+ "<template>" +:+ nl
  +:+ "  <TresGroup>" +:+ nl
  +:+ scene_ +:+ nl
  +:+ "  </TresGroup>" +:+ nl
  +:+ "</template>".

(** The hierarchy and heap the [try] block starts from: the loaded
    scene, flattened unless [keepgroups] is set. *)
Definition prepared (options : Options) (gltf : GLTF) : Tree * Heap :=
  let '(t, h) := load (scene gltf) in
  if keepgroups options then (t, h) else flatten t h.

(** The value of [scene] after the [try] statement; an error means the
    [catch] clause ran and [scene] is still undefined. *)
Definition sceneMarkup (options : Options) (gltf : GLTF) : Result string :=
  let objects := (load (scene gltf)).2 in
  let '(t, h) := prepared options gltf in
  compileScene options (animations gltf) (duplicateGeometries options objects) t h.

(** [parse(gltf, { fileName, ...options })]: the text returned, or the
    error the call ends with.  An error inside the [try] block is
    caught and logged; [scene.includes] then fails on the undefined
    [scene]. *)
Definition parse (gltf : GLTF) (fileName : string) (options : Options)
    : Result string :=
  let url :=
    (if startsWith (toLowerCase fileName) "http" then "" else "/") +:+ fileName in
  let hasAnimations := 0 <? length (animations gltf) in
  match sceneMarkup options gltf with
  | Throw _ =>
      Throw (TypeError "Cannot read properties of undefined (reading 'includes')")
  | Ok scene_ =>
      Ok (headerText options (json gltf) +:+ nl
          +:+ document url hasAnimations (materialFixCode url (json gltf)) scene_)
  end.

End Parser.

(** ** The imported helpers, for closed examples *)

(** Modelled from the spec: [isVarName.js] is imported by the parser and
    is not among the sources.  The specification describes it as true iff
    the string is syntactically valid as a bare, dot-access identifier,
    the empty string falling into the bracket form; this is that test on
    ASCII names. *)
Definition isVarName (nm : string) : bool :=
  match nm with
  | EmptyString => false
  | String c r =>
      (is_letter c || Ascii.eqb c "_"%char || Ascii.eqb c "$"%char)
      && every (fun c => is_letter c || is_digit c || Ascii.eqb c "_"%char
                         || Ascii.eqb c "$"%char) r
  end.

(** The world transform three.js computes for a chain of identity
    transforms is the identity transform (position 0, quaternion
    (0, 0, 0, 1), hence Euler angles 0, scale 1).  The meshes of the closed
    examples only have such chains; on any other chain this function
    still answers with the identity and is not the function of
    three.js. *)
Definition identityTransform : Transform :=
  {| t_position := zero3; t_rotation := zero3; t_scale := one3 |}.

Definition localWorld (chain : list Transform) : Transform := identityTransform.

Definition parseModel (gltf : GLTF) (options : Options) : Result string :=
  parse isVarName localWorld gltf "model" options.

(** ** Example scenes *)

Module Examples.

Definition halfPi : Q := (Math_PI / 2)%Q.

Definition group (nm : string) : Object3D := object3D "Group" nm.

Definition pointLight (nm : string) : Object3D :=
  {| type := "PointLight"; name := nm;
     isMesh := false; isBone := false; isInstancedMesh := false;
     geometry := None; material := None;
     zoom := 1; far := 2000; near := fl (1 # 10); fov := 50;
     instanceMatrix := false; instanceColor := false; skeleton := false;
     visible := true; castShadow := false; receiveShadow := false;
     morphTargetDictionary := false; morphTargetInfluences := false;
     intensity := Some 1%Q; angle := None; penumbra := None; decay := Some 2%Q;
     distance := Some 0%Q; up := up3; color := Some "ffffff";
     position := zero3; rotation := zero3; scale := one3;
     userData := NoKeys; count := 0; target := None; __removed := false |}.

Definition mesh (nm uuid : string) (m : option Material) : Object3D :=
  {| type := "Mesh"; name := nm;
     isMesh := true; isBone := false; isInstancedMesh := false;
     geometry := Some {| geo_uuid := uuid |}; material := m;
     zoom := 1; far := 2000; near := fl (1 # 10); fov := 50;
     instanceMatrix := false; instanceColor := false; skeleton := false;
     visible := true; castShadow := false; receiveShadow := false;
     morphTargetDictionary := false; morphTargetInfluences := false;
     intensity := None; angle := None; penumbra := None; decay := None;
     distance := None; up := up3; color := None;
     position := zero3; rotation := zero3; scale := one3;
     userData := NoKeys; count := 0; target := None; __removed := false |}.

Definition standard (uuid nm : string) : Material :=
  {| mat_uuid := uuid; mat_name := nm; mat_type := "MeshStandardMaterial" |}.

(** A group turned by -pi/2 about x whose only child is a group turned
    by pi/2, with two point lights below. *)
Definition cancelling : GLTF :=
  ofObject3D
    (Obj (group "Scene")
       [Obj (set_rotation (vec3 (- halfPi) 0 0) (group "P"))
          [Obj (set_rotation (vec3 halfPi 0 0) (group "C"))
             [Obj (pointLight "L1") []; Obj (pointLight "L2") []]]]).

(** A group moved to (10, 0, 0) around one point light. *)
Definition moved : GLTF :=
  ofObject3D
    (Obj (group "Scene")
       [Obj (set_position (vec3 10 0 0) (group "P")) [Obj (pointLight "L") []]]).

Definition bone (nm : string) : Object3D :=
  {| type := "Bone"; name := nm;
     isMesh := false; isBone := true; isInstancedMesh := false;
     geometry := None; material := None;
     zoom := 1; far := 2000; near := fl (1 # 10); fov := 50;
     instanceMatrix := false; instanceColor := false; skeleton := false;
     visible := true; castShadow := false; receiveShadow := false;
     morphTargetDictionary := false; morphTargetInfluences := false;
     intensity := None; angle := None; penumbra := None; decay := None;
     distance := None; up := up3; color := None;
     position := zero3; rotation := zero3; scale := one3;
     userData := NoKeys; count := 0; target := None; __removed := false |}.

(** A bone with a mesh attached below it. *)
Definition boneWithMesh : GLTF :=
  ofObject3D
    (Obj (group "Scene")
       [Obj (bone "B")
          [Obj (mesh "M" "g1" (Some (standard "m1" "Red"))) []]]).

(** Two meshes without material over one geometry. *)
Definition twoBare : GLTF :=
  ofObject3D
    (Obj (group "Scene")
       [Obj (mesh "A" "g1" None) []; Obj (mesh "B" "g1" None) []]).

(** A mesh without material and a mesh whose material is named
    "undefined", over one geometry. *)
Definition bareAndUndefined : GLTF :=
  ofObject3D
    (Obj (group "Scene")
       [Obj (mesh "A" "g1" None) [];
        Obj (mesh "B" "g1" (Some (standard "m1" "undefined"))) []]).

(** Two meshes of one geometry and material, and a third of its own. *)
Definition twoRedOneOther : GLTF :=
  ofObject3D
    (Obj (group "Scene")
       [Obj (mesh "A" "g1" (Some (standard "m1" "Red"))) [];
        Obj (mesh "B" "g1" (Some (standard "m1" "Red"))) [];
        Obj (mesh "C" "g2" (Some (standard "m1" "Red"))) []]).

(** [instance] set, [instanceall] unset. *)
Definition sparse : Options :=
  {| precision := 0; instance := true; instanceall := false;
     keepgroups := false; keepnames := false; bones := false;
     shadows := false; meta := false; header := ""; fileSize := "" |}.

Definition precision101 : Options :=
  {| precision := 101; instance := false; instanceall := false;
     keepgroups := false; keepnames := false; bones := false;
     shadows := false; meta := false; header := ""; fileSize := "" |}.

Definition lightMarkup : string :=
  "<TresPointLight " +:+ attr ":intensity" "1" +:+ attr ":decay" "2" +:+ "/>" +:+ nl.

End Examples.

(** ** Definitions used to state the properties *)

(** The integers [rDeg] compares with: the five-decimal roundings of
    pi / i and of pi * i, times 100000, as the code computes them. *)
Definition piOver (i : Z) : Z := scaled (fl (Math_PI / inject_Z i)).
Definition piTimes (i : Z) : Z := scaled (fl (Math_PI * inject_Z i)).

(** The names the entries of the table carry. *)
Definition names (geometries : gmap string DuplicateRecord) : list string :=
  dup_name <$> (map_to_list geometries).*2.

Definition distinctNames (geometries : gmap string DuplicateRecord) : Prop :=
  forall k1 k2 r1 r2,
    geometries !! k1 = Some r1 -> geometries !! k2 = Some r2 ->
    k1 <> k2 -> dup_name r1 <> dup_name r2.

(** The signature of the specification: the geometry identity
    concatenated with the material name, the empty string if the mesh has
    no material; defined for a mesh with a geometry. *)
Definition specSignature (o : Object3D) : option string :=
  if isMesh o then
    match geometry o with
    | Some g =>
        Some (geo_uuid g +:+ match material o with Some m => mat_name m | None => "" end)
    | None => None
    end
  else None.

(** How many meshes of the scene have the signature [sig]. *)
Definition occurrences (sig : string) (objects : Heap) : nat :=
  length (filter (fun o => bool_decide (specSignature o = Some sig)) objects).

(** The key under which the second traversal counts the object. *)
Definition codeKey (o : Object3D) : option string :=
  if isMesh o then
    match geometry o with
    | Some g => Some (signature g (material o))
    | None => None
    end
  else None.

(** How many meshes with a geometry the second traversal meets under
    the key. *)
Definition indexed (key : string) (objects : Heap) : nat :=
  length (filter (fun o => bool_decide (codeKey o = Some key)) objects).

(** No mesh without material bears on the key: neither its geometry
    identity nor that identity followed by "undefined" is the key. *)
Definition noBareCollision (key : string) (objects : Heap) : Prop :=
  forall o g, o ∈ objects -> isMesh o = true -> geometry o = Some g ->
              material o = None ->
              geo_uuid g <> key /\ geo_uuid g +:+ "undefined" <> key.

(** The table holds no entry under the name of an inherited property. *)
Definition ownKeysOnly (geometries : gmap string DuplicateRecord) : Prop :=
  forall k, inherited k = true -> geometries !! k = None.

(** The arguments of the element of an InstancedMesh. *)
Definition instancedMeshArgs (isVar : string -> bool) (m : Object3D) (mt : Material)
    : string :=
  "[" +:+ nodeRef isVar m ".geometry" +:+ ", "
  +:+ (if String.eqb (mat_name mt) "" then nodeRef isVar m ".material"
       else "materials" +:+ sanitizeName isVar (mat_name mt))
  +:+ ", " +:+ (if count m =? 0 then nodeRef isVar m ".count" else pretty (count m))
  +:+ "]".

Definition countOf (geometries : gmap string DuplicateRecord) (key : string) : nat :=
  from_option dup_count 0 (geometries !! key).

Definition positiveCounts (geometries : gmap string DuplicateRecord) : Prop :=
  forall k r, geometries !! k = Some r -> 1 <= dup_count r.

(** The fields of an object that [parse] never writes: the object with
    its transform and its removal mark reset. *)
Definition static (o : Object3D) : Object3D :=
  set_removed false (set_scale one3 (set_rotation zero3 (set_position zero3 o))).

(** [h'] differs from [h] in transforms and removal marks only. *)
Definition sameStatic (h h' : Heap) : Prop :=
  forall i, static (get h' i) = static (get h i).

Definition preserves (f : Heap -> Result (string * Heap)) : Prop :=
  forall h s h', f h = Ok (s, h') -> sameStatic h h'.

(** The type of an object that [print] neither prunes nor treats as a
    bone or a light. *)
Definition plainType (ty : string) : bool :=
  negb (String.eqb ty "group") && negb (String.eqb ty "scene")
  && negb (String.eqb ty "bone") && negb (endsWith ty "Light").

(** [print] emits the object [m] as an element that opens with the text
    [opening]: wherever [m] sits in the hierarchy and whatever the state
    of the heap, unless it is marked removed, the markup is [opening],
    the name and the attributes of the object, and the closing around the
    markup of the children; an error comes from the children or from the
    attributes only. *)
Definition emittedWith (isVar : string -> bool) (options : Options)
    (geometries : gmap string DuplicateRecord) (opening ty' : string)
    (m : Object3D) : Prop :=
  forall (clips : list string) (id : nat) (kids : list Tree) (h : Heap),
    static (get h id) = static m ->
    __removed (get h id) = false ->
    print isVar options clips geometries (Node id kids) h
    = '(children_, h1) ← printEach (print isVar options clips geometries) kids "" h;
      props ← handleProps isVar options geometries (get h1 id);
      Ok (closeTag (getType m) ty' children_
            (opening +:+ nameAttr options clips (get h1 id) +:+ props), h1).

(** Two meshes over the geometry of identity "" with a material named
    "constructor": their key is the name of a property every plain
    object inherits. *)
Definition twoInherited : GLTF :=
  ofObject3D
    (Obj (Examples.group "Scene")
       [Obj (Examples.mesh "A" "" (Some (Examples.standard "m1" "constructor"))) [];
        Obj (Examples.mesh "B" "" (Some (Examples.standard "m1" "constructor"))) []]).

(** Two meshes of the same name over different geometries. *)
Definition twoParts : Heap :=
  [Examples.mesh "part" "g1" (Some (Examples.standard "m1" "Red"));
   Examples.mesh "part" "g2" (Some (Examples.standard "m1" "Red"))].

(** The type of an object [prune] may mark as removed. *)
Definition scenic (o : Object3D) : bool :=
  String.eqb (getType o) "group" || String.eqb (getType o) "scene".

(** The writes [print] and [prune] perform on an object: the removal
    mark, on a group or a scene; the rotation reset of the second
    rotation rule; the copy of a transform by the single-child rule. *)
Inductive Write (o : Object3D) : (Object3D -> Object3D) -> Prop :=
  | write_removed : scenic o = true -> Write o (set_removed true)
  | write_rotation : Write o (set_rotation zero3)
  | write_copy key src : Write o (copyKey key src).

(** [h'] is reached from [h] by such writes to objects among [ids]. *)
Inductive Writes (ids : list nat) : Heap -> Heap -> Prop :=
  | writes_refl h : Writes ids h h
  | writes_step h j f h' :
      j ∈ ids -> Write (get h j) f -> Writes ids (update j f h) h' ->
      Writes ids h h'.

Definition writesWithin (ids : list nat) (f : Heap -> Result (string * Heap)) : Prop :=
  forall h s h', f h = Ok (s, h') -> Writes ids h h'.

(** [JSON.stringify] does not throw on the user data of the object. *)
Definition serializable (o : Object3D) : bool :=
  match userData o with Unserializable _ => false | _ => true end.

(** [handleProps] raises no error for the object: [toFixed] accepts the
    configured digits, and the user data can be written if [meta] asks
    for them. *)
Definition writable (options : Options) (o : Object3D) : Prop :=
  toFixedAccepts (digits (precision options)) = true
  /\ (meta options = true -> serializable o = true).

(** What [print] needs of an object to raise no error: an instanced
    mesh has a material, and the user data can be written if [meta] asks
    for them. *)
Definition compilable (options : Options) (o : Object3D) : Prop :=
  (isInstancedMesh o = true -> is_Some (material o))
  /\ (meta options = true -> serializable o = true).

Definition allCompilable (options : Options) (h : Heap) : Prop :=
  forall i, compilable options (get h i).

Definition succeeds (options : Options) (f : Heap -> Result (string * Heap)) : Prop :=
  forall h, allCompilable options h -> exists s h', f h = Ok (s, h').

(** No character of [s] is an opening brace. *)
Definition noBrace (s : string) : bool :=
  every (fun c => negb (Ascii.eqb c "{"%char)) s.

(** The characters of a number as [String] writes it. *)
Definition numberChar (c : ascii) : bool :=
  is_digit c || bool_decide (c ∈ ["."; "-"; "e"; "+"]%char).

(** The characters of the texts the emitter writes of its own: those of
    a number, letters, and the punctuation of the markup. *)
Definition markupChar (c : ascii) : bool :=
  numberChar c || is_letter c
  || bool_decide (c ∈ [" "; ":"; "="; "'"; "["; "]"; "<"; ">"; "/"; "#"; ","; "*";
                       ascii_of_nat 34; ascii_of_nat 10]%char).

(** The characters of the document around the markup. *)
Definition documentChar (c : ascii) : bool :=
  markupChar c || bool_decide (c ∈ ["{"; "}"; "@"; "("; ")"; "_"]%char).

(** The character [c] occurs nowhere in [s]. *)
Definition without (c : ascii) (s : string) : bool :=
  every (fun x => negb (Ascii.eqb x c)) s.

(** Every character of the texts the object brings into the markup
    passes the test: its type, its name, the name of its material, its
    colour and the text of its user data. *)
Definition objectTexts (test : ascii -> bool) (o : Object3D) : Prop :=
  every test (type o) = true
  /\ every test (name o) = true
  /\ (forall m, material o = Some m -> every test (mat_name m) = true)
  /\ (forall hex, color o = Some hex -> every test hex = true)
  /\ (forall json, userData o = JsonText json -> every test json = true).

(** Every character of the texts a compilation copies from its input
    passes the test: the texts of the objects of the scene, the file
    name, the header and the file size of the options, the extras, the
    material names and the image paths of the JSON. *)
Definition inputTexts (test : ascii -> bool) (gltf : GLTF) (fileName : string)
    (options : Options) : Prop :=
  Forall (objectTexts test) (load (scene gltf)).2
  /\ every test fileName = true
  /\ every test (header options) = true
  /\ every test (fileSize options) = true
  /\ (forall entries, extras (json gltf) = Some entries ->
        Forall (fun kv => every test kv.1 = true /\ every test kv.2 = true) entries)
  /\ (forall mats, materials (json gltf) = Some mats ->
        Forall (fun mat => every test (jm_name mat) = true) mats)
  /\ (forall imgs, images (json gltf) = Some imgs ->
        Forall (fun path => every test path = true) imgs).

(** [s] nowhere has an equals sign followed by an opening brace, and
    does not begin with an opening brace. *)
Definition noKey (s : string) : bool :=
  negb (includes s "={") && negb (String.prefix "{" s).

(** The texts an object brings into its attributes hold no opening
    brace, and its user data no equals sign followed by one. *)
Definition braceFree (obj : Object3D) : Prop :=
  noBrace (name obj) = true
  /\ (forall m, material obj = Some m -> noBrace (mat_name m) = true)
  /\ (forall hex, color obj = Some hex -> noBrace hex = true)
  /\ (forall json, userData obj = JsonText json -> includes json "={" = false).

(** The default options with [keepgroups] set. *)
Definition keepingGroups : Options :=
  {| precision := 0; instance := false; instanceall := false;
     keepgroups := true; keepnames := false; bones := false;
     shadows := false; meta := false; header := ""; fileSize := "" |}.

(** The objects directly below the root. *)
Definition topLevel (t : Tree) : list nat := root <$> children t.

(** The parent-child pairs of the hierarchy. *)
Fixpoint edges (t : Tree) : list (nat * nat) :=
  match t with
  | Node j cs => map (fun c => (j, root c)) cs ++ flat_map edges cs
  end.

(** The children of the object [o]. *)
Definition kidsOf (t : Tree) (o : nat) : list nat :=
  root <$> match subtree o t with Some s => children s | None => [] end.

(** [s] is the node of some object of [t]. *)
Inductive Within (s : Tree) : Tree -> Prop :=
  | within_here : Within s s
  | within_child j cs c : c ∈ cs -> Within s c -> Within s (Node j cs).

(** * Properties *)

(** ** Strings *)

Lemma append_cons (ch : ascii) (a b : string) :
  String ch a +:+ b = String ch (a +:+ b).
Proof. reflexivity. Qed.

Lemma append_inj_l (a b c : string) : a +:+ b = a +:+ c -> b = c.
Proof. apply (inj (String.app a)). Qed.

Lemma append_empty_r (a : string) : a +:+ "" = a.
Proof.
  induction a as [| ch a IH]; [done |]. by rewrite append_cons, IH.
Qed.

Lemma append_assoc (a b c : string) : (a +:+ b) +:+ c = a +:+ (b +:+ c).
Proof.
  induction a as [| ch a IH]; [done |]. by rewrite !append_cons, IH.
Qed.

Lemma pretty_N_go_nonempty (x : N) (s : string) :
  s <> "" -> pretty_N_go x s <> "".
Proof.
  revert s. induction (N.lt_wf_0 x) as [x _ IH]. intros s Hs.
  destruct (decide (x = 0)%N) as [-> | Hx].
  - by rewrite pretty_N_go_0.
  - rewrite pretty_N_go_step by lia.
    apply IH; [apply N.div_lt; lia | done].
Qed.

Lemma pretty_nat_nonempty (n : nat) : pretty n <> "".
Proof.
  unfold pretty, pretty_nat, pretty, pretty_N.
  case_decide as Hn; [done |].
  rewrite pretty_N_go_step by lia.
  by apply pretty_N_go_nonempty.
Qed.

(** ** The numeric formatter *)

Local Open Scope Q_scope.

(** *** Powers of two *)

Lemma pow2_pos (e : Z) : 0 < pow2 e.
Proof. unfold pow2. apply Qpower_0_lt. reflexivity. Qed.

Lemma pow2_plus (a b : Z) : pow2 (a + b) == pow2 a * pow2 b.
Proof. unfold pow2. apply Qpower_plus. discriminate. Qed.

Lemma pow2_minus (a b : Z) : pow2 (a - b) == pow2 a / pow2 b.
Proof. unfold pow2. apply Qpower_minus. discriminate. Qed.

Lemma pow2_le (a b : Z) : (a <= b)%Z -> pow2 a <= pow2 b.
Proof. intros H. unfold pow2. apply Qpower_le_compat_l; [exact H | discriminate]. Qed.

Lemma pow2_lt (a b : Z) : (a < b)%Z -> pow2 a < pow2 b.
Proof. intros H. unfold pow2. apply Qpower_lt_compat_l; [exact H | reflexivity]. Qed.

Lemma pow2_lt_inv (a b : Z) : pow2 a < pow2 b -> (a < b)%Z.
Proof. intros H. unfold pow2 in H. apply Qpower_lt_compat_l_inv in H; [exact H | reflexivity]. Qed.

Lemma pow2_Z (a : Z) : (0 <= a)%Z -> pow2 a == inject_Z (2 ^ a).
Proof. intros H. unfold pow2. symmetry. apply (Zpower_Qpower 2 a H). Qed.

Lemma pow2_succ (a : Z) : pow2 (a + 1) == 2 * pow2 a.
Proof. rewrite pow2_plus. change (pow2 1) with 2. ring. Qed.

Lemma pow2_pred (a : Z) : pow2 (a - 1) == (1 # 2) * pow2 a.
Proof. rewrite pow2_minus. change (pow2 1) with 2. field. Qed.

(** *** Binades *)

Lemma Qabs_nonneg_eq (q : Q) : 0 <= q -> Qabs q = q.
Proof.
  destruct q as [n d]. unfold Qle, Qabs. simpl. intros H.
  f_equal. apply Z.abs_eq. lia.
Qed.

Lemma Qabs_opp_eq (q : Q) : Qabs (- q) = Qabs q.
Proof. destruct q as [n d]. unfold Qabs, Qopp. simpl. by rewrite Z.abs_opp. Qed.

Lemma binade_spec (a : Q) : 0 < a -> pow2 (binade a) <= a < pow2 (binade a + 1).
Proof.
  intros Ha. destruct a as [n d].
  assert (0 < n)%Z as Hn by (unfold Qlt in Ha; simpl in Ha; lia).
  pose proof (Z.log2_spec n Hn) as [Hn1 Hn2].
  pose proof (Z.log2_spec (Z.pos d) ltac:(lia)) as [Hd1 Hd2].
  pose proof (Z.log2_nonneg n) as Hln. pose proof (Z.log2_nonneg (Z.pos d)) as Hld.
  set (ln := Z.log2 n) in *. set (ld := Z.log2 (Z.pos d)) in *.
  unfold Z.succ in *.
  assert (pow2 (ln - ld - 1) <= n # d < pow2 (ln - ld + 1)) as [Hlo Hhi].
  { rewrite (Qmake_Qdiv n d).
    replace (ln - ld - 1)%Z with (ln - (ld + 1))%Z by lia.
    replace (ln - ld + 1)%Z with (ln + 1 - ld)%Z by lia.
    rewrite !pow2_minus, !pow2_Z by lia.
    rewrite Zle_Qle in Hn1, Hd1. rewrite Zlt_Qlt in Hn2, Hd2.
    assert (0 < inject_Z (2 ^ ld)) as Hp1.
    { rewrite <- (Zlt_Qlt 0). apply Z.pow_pos_nonneg; lia. }
    assert (0 < inject_Z (2 ^ (ld + 1))) as Hp2.
    { rewrite <- (Zlt_Qlt 0). apply Z.pow_pos_nonneg; lia. }
    assert (0 < inject_Z (2 ^ ln)) as Hp3.
    { rewrite <- (Zlt_Qlt 0). apply Z.pow_pos_nonneg; lia. }
    assert (0 < inject_Z (Z.pos d)) as Hp4 by (rewrite <- (Zlt_Qlt 0); lia).
    set (N := inject_Z n) in *. set (D := inject_Z (Z.pos d)) in *.
    set (A := inject_Z (2 ^ ln)) in *. set (A' := inject_Z (2 ^ (ln + 1))) in *.
    set (B := inject_Z (2 ^ ld)) in *. set (B' := inject_Z (2 ^ (ld + 1))) in *.
    split.
    - apply Qle_shift_div_l; [done |].
      assert (A / B' * D == A * D / B') as -> by (field; lra).
      apply Qle_shift_div_r; [done |]. nra.
    - apply Qlt_shift_div_r; [done |].
      assert (A' / B * D == A' * D / B) as -> by (field; lra).
      apply Qlt_shift_div_l; [done |]. nra. }
  unfold binade. cbn [Qnum Qden]. fold ln ld.
  destruct (Qle_bool (pow2 (ln - ld)) (n # d)) eqn:Hle.
  - apply Qle_bool_iff in Hle. split; [done | done].
  - assert (~ pow2 (ln - ld) <= n # d) as Hnle.
    { intros H. apply Qle_bool_iff in H. congruence. }
    apply Qnot_le_lt in Hnle.
    replace (ln - ld - 1 + 1)%Z with (ln - ld)%Z by lia. split; done.
Qed.

Lemma binade_unique (a : Q) (e : Z) :
  pow2 e <= a < pow2 (e + 1) -> binade a = e.
Proof.
  intros [Hlo Hhi].
  assert (0 < a) as Ha by (pose proof (pow2_pos e); lra).
  destruct (binade_spec a Ha) as [Hlo' Hhi'].
  assert (pow2 e < pow2 (binade a + 1)) as H1 by lra.
  assert (pow2 (binade a) < pow2 (e + 1)) as H2 by lra.
  apply pow2_lt_inv in H1, H2. lia.
Qed.

Lemma binade_lt (a : Q) (e : Z) : 0 < a -> a < pow2 e -> (binade a < e)%Z.
Proof.
  intros Ha Hlt. destruct (binade_spec a Ha) as [Hlo _].
  apply pow2_lt_inv. lra.
Qed.

Lemma binade_ge (a : Q) (e : Z) : pow2 e <= a -> (e <= binade a)%Z.
Proof.
  intros Hle.
  assert (0 < a) as Ha by (pose proof (pow2_pos e); lra).
  destruct (binade_spec a Ha) as [_ Hhi].
  assert (pow2 e < pow2 (binade a + 1)) as H by lra.
  apply pow2_lt_inv in H. lia.
Qed.

(** *** Rounding to an integer *)

Lemma ltb_lt (x y : Q) : ltb x y = true <-> x < y.
Proof.
  unfold ltb. rewrite negb_true_iff. split.
  - intros H. apply Qnot_le_lt. intros Hle. apply Qle_bool_iff in Hle. congruence.
  - intros H. apply not_true_is_false. intros Hle. apply Qle_bool_iff in Hle.
    by apply Qlt_not_le in H.
Qed.

Lemma ltb_ge (x y : Q) : ltb x y = false <-> y <= x.
Proof. unfold ltb. rewrite negb_false_iff. apply Qle_bool_iff. Qed.

Lemma eqb_true (a b : Q) : JsNumber.eqb a b = true <-> a == b.
Proof. apply Qeq_bool_iff. Qed.

Lemma inject_Z_minus (a b : Z) : inject_Z (a - b) = inject_Z a - inject_Z b.
Proof. unfold Z.sub. by rewrite inject_Z_plus, inject_Z_opp. Qed.

Lemma Qfloor_bounds (t : Q) : inject_Z (Qfloor t) <= t < inject_Z (Qfloor t) + 1.
Proof.
  pose proof (Qfloor_le t) as Hlo. pose proof (Qlt_floor t) as Hhi.
  rewrite inject_Z_plus in Hhi. change (inject_Z 1) with 1 in Hhi. done.
Qed.

Lemma Qfloor_unique (t : Q) (n : Z) : inject_Z n <= t < inject_Z n + 1 -> Qfloor t = n.
Proof.
  intros [Hlo Hhi]. destruct (Qfloor_bounds t) as [Hlo' Hhi'].
  assert (inject_Z n < inject_Z (Qfloor t + 1)) as H1.
  { rewrite inject_Z_plus. change (inject_Z 1) with 1. lra. }
  assert (inject_Z (Qfloor t) < inject_Z (n + 1)) as H2.
  { rewrite inject_Z_plus. change (inject_Z 1) with 1. lra. }
  rewrite <- Zlt_Qlt in H1, H2. lia.
Qed.

Lemma roundEven_error (t : Q) : Qabs (inject_Z (roundEven t) - t) <= 1 # 2.
Proof.
  unfold roundEven. destruct (Qfloor_bounds t) as [Hlo Hhi].
  set (f := Qfloor t) in *.
  destruct (ltb (t - inject_Z f) (1 # 2)) eqn:H1.
  { apply ltb_lt in H1. apply Qabs_case; intros _; lra. }
  apply ltb_ge in H1.
  assert (Qabs (inject_Z (f + 1) - t) <= 1 # 2) as Hup.
  { rewrite inject_Z_plus. change (inject_Z 1) with 1. apply Qabs_case; intros _; lra. }
  destruct (ltb (1 # 2) (t - inject_Z f)) eqn:H2; [done |].
  apply ltb_ge in H2.
  destruct (Z.even f); [| done].
  apply Qabs_case; intros _; lra.
Qed.

Lemma roundEven_near (t : Q) (n : Z) :
  Qabs (t - inject_Z n) < 1 # 2 -> roundEven t = n.
Proof.
  intros Hn. unfold roundEven. destruct (Qfloor_bounds t) as [Hlo Hhi].
  set (f := Qfloor t) in *.
  assert (- (1 # 2) < t - inject_Z n < 1 # 2) as [Hn1 Hn2].
  { revert Hn. apply Qabs_case; intros ? ?; lra. }
  assert (f = n \/ f = (n - 1)%Z) as [-> | ->].
  { assert (inject_Z f < inject_Z (n + 1)) as H1.
    { rewrite inject_Z_plus. change (inject_Z 1) with 1. lra. }
    assert (inject_Z (n - 1) < inject_Z (f + 1)) as H2.
    { rewrite inject_Z_plus, inject_Z_minus. change (inject_Z 1) with 1. lra. }
    rewrite <- Zlt_Qlt in H1, H2. lia. }
  - destruct (ltb (t - inject_Z n) (1 # 2)) eqn:H1; [done |].
    apply ltb_ge in H1. lra.
  - rewrite inject_Z_minus in *. change (inject_Z 1) with 1 in *.
    destruct (ltb (t - (inject_Z n - 1)) (1 # 2)) eqn:H1.
    { apply ltb_lt in H1. lra. }
    destruct (ltb (1 # 2) (t - (inject_Z n - 1))) eqn:H2; [f_equal; lia |].
    apply ltb_ge in H2. lra.
Qed.

Lemma roundEven_nonneg (t : Q) : 0 <= t -> (0 <= roundEven t)%Z.
Proof.
  intros Ht. unfold roundEven.
  assert (0 <= Qfloor t)%Z as Hf.
  { change 0%Z with (Qfloor 0). by apply Qfloor_resp_le. }
  repeat case_match; lia.
Qed.

Lemma roundEven_le (t : Q) (n : Z) : t <= inject_Z n -> (roundEven t <= n)%Z.
Proof.
  intros Ht. pose proof (roundEven_error t) as He.
  assert (inject_Z (roundEven t) < inject_Z (n + 1)) as H.
  { rewrite inject_Z_plus. change (inject_Z 1) with 1.
    revert He. apply Qabs_case; intros ? ?; lra. }
  rewrite <- Zlt_Qlt in H. lia.
Qed.

Lemma roundEven_ge (t : Q) (n : Z) : inject_Z n <= t -> (n <= roundEven t)%Z.
Proof.
  intros Ht. pose proof (roundEven_error t) as He.
  assert (inject_Z (n - 1) < inject_Z (roundEven t)) as H.
  { rewrite inject_Z_minus. change (inject_Z 1) with 1.
    revert He. apply Qabs_case; intros ? ?; lra. }
  rewrite <- Zlt_Qlt in H. lia.
Qed.

Lemma ltb_wd (a a' b b' : Q) : a == a' -> b == b' -> ltb a b = ltb a' b'.
Proof. intros Ha Hb. unfold ltb. by rewrite Ha, Hb. Qed.

Lemma roundEven_wd (t t' : Q) : t == t' -> roundEven t = roundEven t'.
Proof.
  intros Ht. unfold roundEven. rewrite (Qfloor_comp _ _ Ht).
  rewrite (ltb_wd (t - inject_Z (Qfloor t')) (t' - inject_Z (Qfloor t')) (1 # 2) (1 # 2))
    by (rewrite ?Ht; reflexivity).
  rewrite (ltb_wd (1 # 2) (1 # 2) (t - inject_Z (Qfloor t')) (t' - inject_Z (Qfloor t')))
    by (rewrite ?Ht; reflexivity).
  reflexivity.
Qed.

Lemma roundEven_Z (n : Z) : roundEven (inject_Z n) = n.
Proof.
  apply roundEven_near.
  assert (inject_Z n - inject_Z n == 0) as -> by ring. reflexivity.
Qed.

(** *** The nearest double *)

Lemma pow2_nonzero (e : Z) : ~ pow2 e == 0.
Proof. pose proof (pow2_pos e). lra. Qed.

Lemma fl_nonneg (q : Q) :
  0 <= q ->
  fl q = Qred (inject_Z (roundEven (q / pow2 (ulpExp q))) * pow2 (ulpExp q)).
Proof.
  intros Hq. unfold fl. rewrite (Qabs_nonneg_eq q Hq).
  by rewrite (proj2 (ltb_ge q 0) Hq).
Qed.

Lemma Qopp_involutive_eq (q : Q) : - - q = q.
Proof. destruct q as [n d]. unfold Qopp. simpl. by rewrite Z.opp_involutive. Qed.

Lemma fl_zero (q : Q) : q == 0 -> fl q = 0.
Proof.
  intros Hq. rewrite fl_nonneg by lra.
  change 0 with (Qred 0). apply Qred_complete.
  rewrite (roundEven_wd _ (inject_Z 0)).
  - rewrite roundEven_Z. ring.
  - generalize (pow2 (ulpExp q)). intros p.
    unfold Qdiv. rewrite Hq. change (inject_Z 0) with 0. ring.
Qed.

Lemma fl_opp (q : Q) : fl (- q) = - fl q.
Proof.
  destruct (Qlt_le_dec q 0) as [Hneg | Hpos].
  - unfold fl at 2. rewrite (proj2 (ltb_lt q 0) Hneg), Qopp_involutive_eq.
    rewrite fl_nonneg by lra. rewrite <- (Qabs_opp_eq q).
    rewrite (Qabs_nonneg_eq (- q)) by lra. reflexivity.
  - destruct (Qlt_le_dec 0 q) as [Hlt | Hle].
    + unfold fl at 1. rewrite (Qabs_opp_eq q).
      assert (ltb (- q) 0 = true) as -> by (apply ltb_lt; lra).
      by rewrite fl_nonneg, (Qabs_nonneg_eq q) by lra.
    + rewrite (fl_zero q), (fl_zero (- q)) by lra. reflexivity.
Qed.

Lemma Qred_involutive (q : Q) : Qred (Qred q) = Qred q.
Proof. apply Qred_complete, Qred_correct. Qed.

Lemma fl_canon (q : Q) : Qred (fl q) = fl q.
Proof.
  unfold fl. destruct (ltb q 0).
  - by rewrite Qred_opp, Qred_involutive.
  - by rewrite Qred_involutive.
Qed.

Lemma fl_eq (a b : Q) : fl a == fl b -> fl a = fl b.
Proof. intros H. rewrite <- (fl_canon a), <- (fl_canon b). by apply Qred_complete. Qed.

Lemma fl_value (q : Q) :
  0 <= q ->
  fl q == inject_Z (roundEven (q / pow2 (ulpExp q))) * pow2 (ulpExp q).
Proof. intros Hq. rewrite fl_nonneg by done. apply Qred_correct. Qed.

Lemma fl_ge_0 (q : Q) : 0 <= q -> 0 <= fl q.
Proof.
  intros Hq. rewrite fl_value by done.
  pose proof (pow2_pos (ulpExp q)) as Hp.
  assert (0 <= q / pow2 (ulpExp q)) as Ht.
  { apply Qle_shift_div_l; [done | lra]. }
  apply roundEven_nonneg in Ht. rewrite Zle_Qle in Ht. change (inject_Z 0) with 0 in Ht.
  nra.
Qed.

(** The error of the rounding is at most half a unit in the last place. *)
Lemma fl_error_nonneg (q : Q) :
  0 <= q -> Qabs (fl q - q) <= (1 # 2) * pow2 (ulpExp q).
Proof.
  intros Hq. rewrite fl_value by done.
  pose proof (pow2_pos (ulpExp q)) as Hp.
  pose proof (roundEven_error (q / pow2 (ulpExp q))) as He.
  set (u := pow2 (ulpExp q)) in *. set (m := inject_Z (roundEven (q / u))) in *.
  assert (m * u - q == (m - q / u) * u) as -> by (field; lra).
  rewrite Qabs_Qmult, (Qabs_pos u) by lra.
  nra.
Qed.

Lemma binade_wd (a b : Q) : 0 < a -> a == b -> binade a = binade b.
Proof.
  intros Ha Hab. symmetry. apply binade_unique. rewrite <- Hab. by apply binade_spec.
Qed.

Lemma fl_wd (a b : Q) : a == b -> fl a = fl b.
Proof.
  assert (forall a b, 0 < a -> a == b -> fl a = fl b) as Hpos.
  { intros x y Hx Hxy. rewrite !fl_nonneg by lra. apply Qred_complete.
    unfold ulpExp. rewrite <- (binade_wd x y Hx Hxy).
    set (p := pow2 (Z.max (binade x) (-1022) - 52)). clearbody p.
    rewrite (roundEven_wd (y / p) (x / p)); [reflexivity |].
    unfold Qdiv. by rewrite Hxy. }
  intros Hab. destruct (Qlt_le_dec 0 a) as [Ha | Ha]; [by apply Hpos |].
  destruct (Qlt_le_dec a 0) as [Hneg | Hzero].
  - assert (forall c, fl c = - fl (- c)) as Hflip
      by (intros c; by rewrite fl_opp, Qopp_involutive_eq).
    rewrite (Hflip a), (Hflip b). f_equal. apply Hpos; [lra | by rewrite Hab].
  - rewrite (fl_zero a), (fl_zero b) by lra. reflexivity.
Qed.

Lemma ulpExp_normal (q : Q) (e : Z) :
  pow2 e <= q < pow2 (e + 1) -> (-1022 <= e)%Z -> ulpExp q = (e - 52)%Z.
Proof. intros Hq He. unfold ulpExp. rewrite (binade_unique q e Hq). lia. Qed.

Lemma ulpExp_subnormal (q : Q) : 0 < q < pow2 (-1022) -> ulpExp q = (-1074)%Z.
Proof.
  intros [Hq Hlt]. unfold ulpExp. pose proof (binade_lt q _ Hq Hlt). lia.
Qed.

Lemma ulpExp_ge (q : Q) : (-1074 <= ulpExp q)%Z.
Proof. unfold ulpExp. lia. Qed.

(** A rational within less than half a unit of a point of the grid of
    its binade is rounded to that point. *)
Lemma fl_round (q : Q) (u m : Z) :
  0 <= q -> (q == 0 \/ ulpExp q = u) ->
  Qabs (q - inject_Z m * pow2 u) < (1 # 2) * pow2 u ->
  fl q == inject_Z m * pow2 u.
Proof.
  intros Hq Hu Hnear. pose proof (pow2_pos u) as Hp.
  assert (Qabs (q / pow2 u - inject_Z m) < 1 # 2) as Ht.
  { assert (q / pow2 u - inject_Z m == (q - inject_Z m * pow2 u) / pow2 u) as ->
      by (field; lra).
    unfold Qdiv. rewrite Qabs_Qmult, (Qabs_pos (/ pow2 u)).
    - apply Qlt_shift_div_r; [done |]. lra.
    - apply Qlt_le_weak, Qinv_lt_0_compat, Hp. }
  destruct Hu as [H0 | Hu].
  - rewrite (fl_zero q H0).
    assert (m = 0%Z) as ->.
    { rewrite <- (roundEven_near _ _ Ht). 
      rewrite (roundEven_wd _ (inject_Z 0)); [apply roundEven_Z |].
      unfold Qdiv. rewrite H0. change (inject_Z 0) with 0. ring. }
    change (inject_Z 0) with 0. ring.
  - rewrite fl_value by done. rewrite Hu. by rewrite (roundEven_near _ _ Ht).
Qed.

(** Doubles: the points of the grid. *)
Lemma fl_near (q : Q) (u m : Z) :
  (-1074 <= u)%Z -> (0 <= m <= 2 ^ 53)%Z ->
  (u = -1074 \/ 2 ^ 52 <= m)%Z ->
  0 <= q ->
  Qabs (q - inject_Z m * pow2 u) < (1 # 2) * pow2 u ->
  (m = (2 ^ 52)%Z -> u = (-1074)%Z \/ inject_Z m * pow2 u <= q) ->
  fl q == inject_Z m * pow2 u.
Proof.
  intros Hu Hm Hnorm Hq Hnear Hbottom.
  pose proof (pow2_pos u) as Hp.
  assert (- ((1 # 2) * pow2 u) < q - inject_Z m * pow2 u < (1 # 2) * pow2 u) as [Hn1 Hn2].
  { revert Hnear. apply Qabs_case; intros ? ?; lra. }
  assert (pow2 (u + 52) == 4503599627370496 * pow2 u) as H52.
  { rewrite pow2_plus. change (pow2 52) with 4503599627370496. ring. }
  assert (pow2 (u + 53) == 9007199254740992 * pow2 u) as H53.
  { rewrite pow2_plus. change (pow2 53) with 9007199254740992. ring. }
  assert (pow2 (u + 54) == 18014398509481984 * pow2 u) as H54.
  { rewrite pow2_plus. change (pow2 54) with 18014398509481984. ring. }
  assert (0 <= inject_Z m <= 9007199254740992) as [Hm0 Hm53].
  { change 0 with (inject_Z 0). change 9007199254740992 with (inject_Z (2 ^ 53)).
    rewrite <- !Zle_Qle. lia. }
  destruct (Qlt_le_dec q (pow2 (u + 52))) as [Hlow | Hhigh].
  - (* below the normal range of this grid: only for the subnormal grid *)
    assert (u = -1074)%Z as ->.
    { destruct Hnorm as [-> | Hnorm]; [done |].
      destruct (decide (m = 2 ^ 52)%Z) as [-> | Hne].
      - destruct (Hbottom eq_refl) as [-> | Hle]; [done |].
        change (inject_Z (2 ^ 52)) with 4503599627370496 in Hle. lra.
      - assert (inject_Z (2 ^ 52 + 1) <= inject_Z m) as Hm1 by (rewrite <- Zle_Qle; lia).
        change (inject_Z (2 ^ 52 + 1)) with 4503599627370497 in Hm1. nra. }
    destruct (Qlt_le_dec 0 q) as [Hpos | Hzero].
    + apply fl_round; [done | right | done].
      apply ulpExp_subnormal. split; [done |].
      change (-1022)%Z with (-1074 + 52)%Z. done.
    + apply fl_round; [done | left; lra | done].
  - destruct (Qlt_le_dec q (pow2 (u + 53))) as [Hin | Hover].
    + apply fl_round; [done | right | done].
      rewrite (ulpExp_normal q (u + 52)); [lia | | lia].
      split; [done |]. by replace (u + 52 + 1)%Z with (u + 53)%Z by lia.
    + (* the top of the binade: the point is 2^(u+53) *)
      assert (m = 2 ^ 53)%Z as ->.
      { assert (inject_Z (2 ^ 53 - 1) < inject_Z m) as Hm1.
        { change (inject_Z (2 ^ 53 - 1)) with 9007199254740991. nra. }
        rewrite <- Zlt_Qlt in Hm1. lia. }
      change (inject_Z (2 ^ 53)) with 9007199254740992 in *.
      assert (9007199254740992 * pow2 u == inject_Z (2 ^ 52) * pow2 (u + 1)) as ->.
      { rewrite pow2_succ. change (inject_Z (2 ^ 52)) with 4503599627370496. ring. }
      apply fl_round; [done | right |].
      * rewrite (ulpExp_normal q (u + 53)); [lia | | lia].
        split; [done |]. replace (u + 53 + 1)%Z with (u + 54)%Z by lia. lra.
      * rewrite pow2_succ. change (inject_Z (2 ^ 52)) with 4503599627370496.
        apply Qabs_case; intros ?; lra.
Qed.

(** The result of the rounding is a point of the grid, normalised. *)
Lemma fl_grid (q : Q) :
  0 < q ->
  let u := ulpExp q in
  let m := roundEven (q / pow2 u) in
  fl q == inject_Z m * pow2 u
  /\ (0 <= m <= 2 ^ 53)%Z
  /\ (u = -1074 \/ 2 ^ 52 <= m)%Z
  /\ (m = (2 ^ 52)%Z -> u = (-1074)%Z \/ inject_Z m * pow2 u <= q)
  /\ (-1022 <= binade q -> 2 ^ 52 <= m)%Z.
Proof.
  intros Hq u m. pose proof (pow2_pos u) as Hp.
  split; [by apply fl_value, Qlt_le_weak |].
  destruct (binade_spec q Hq) as [Hlo Hhi].
  assert (0 <= q / pow2 u) as Ht0 by (apply Qle_shift_div_l; [done | lra]).
  destruct (Z_lt_le_dec (binade q) (-1022)) as [Hsub | Hnormal].
  - assert (u = -1074)%Z as Hu by (unfold u, ulpExp; lia).
    split; [| split; [by left | split; [by left | lia]]].
    split; [by apply roundEven_nonneg |].
    apply (Z.le_trans _ (2 ^ 52)); [| lia]. apply roundEven_le.
    apply Qle_shift_div_r; [done |].
    assert (q < pow2 (-1022)) as Hq2.
    { eapply Qlt_le_trans; [exact Hhi |]. apply pow2_le. lia. }
    assert (pow2 (-1022) == inject_Z (2 ^ 52) * pow2 u) as H52.
    { rewrite Hu. change (-1022)%Z with (52 + -1074)%Z.
      rewrite pow2_plus, (pow2_Z 52) by lia. reflexivity. }
    lra.
  - assert (u = binade q - 52)%Z as Hu by (unfold u, ulpExp; lia).
    assert (pow2 (binade q) == inject_Z (2 ^ 52) * pow2 u) as H52.
    { replace (binade q) with (52 + u)%Z at 1 by lia.
      rewrite pow2_plus, (pow2_Z 52) by lia. reflexivity. }
    assert (pow2 (binade q + 1) == inject_Z (2 ^ 53) * pow2 u) as H53.
    { replace (binade q + 1)%Z with (53 + u)%Z at 1 by lia.
      rewrite pow2_plus, (pow2_Z 53) by lia. reflexivity. }
    assert (2 ^ 52 <= m)%Z as Hm52.
    { apply roundEven_ge. apply Qle_shift_div_l; [done | lra]. }
    split; [| split; [by right | split; [| done]]].
    + split; [lia |]. apply roundEven_le. apply Qle_shift_div_r; [done | lra].
    + intros Hm. right. rewrite Hm. lra.
Qed.

(** A double is left as it is. *)
Lemma fl_idempotent (q : Q) : fl (fl q) = fl q.
Proof.
  assert (forall q, 0 < q -> fl (fl q) = fl q) as Hpos.
  { clear q. intros q Hq. apply fl_eq.
    destruct (fl_grid q Hq) as (Hval & Hm & Hnorm & Hbottom & _).
    set (u := ulpExp q) in *. set (m := roundEven (q / pow2 u)) in *.
    pose proof (pow2_pos u) as Hp.
    rewrite Hval at 2. 
    rewrite (fl_wd _ _ Hval).
    apply fl_near; [apply ulpExp_ge | done | done | | | ].
    - assert (0 <= inject_Z m) by (change 0 with (inject_Z 0); rewrite <- Zle_Qle; lia). nra.
    - assert (inject_Z m * pow2 u - inject_Z m * pow2 u == 0) as -> by ring.
      change (Qabs 0) with 0. lra.
    - intros _. right. lra. }
  destruct (Qlt_le_dec 0 q) as [Hq | Hq]; [by apply Hpos |].
  destruct (Qlt_le_dec q 0) as [Hneg | Hzero].
  - assert (fl q = - fl (- q)) as Hq' by (by rewrite fl_opp, Qopp_involutive_eq).
    rewrite Hq', fl_opp. f_equal. apply Hpos. lra.
  - rewrite (fl_zero q) by lra. by apply fl_zero.
Qed.

Lemma isDouble_fl (q : Q) : isDouble (fl q) = true.
Proof. unfold isDouble. apply eqb_true. by rewrite fl_idempotent. Qed.

Lemma isDouble_opp (q : Q) : isDouble (- q) = isDouble q.
Proof.
  unfold isDouble, JsNumber.eqb. rewrite fl_opp.
  apply eq_true_iff_eq. rewrite !Qeq_bool_iff. split; intros H; lra.
Qed.

(** Above a power of two the next double is one unit further. *)
Lemma double_gap (x : Q) (e : Z) :
  isDouble x = true -> (-1022 <= e)%Z -> pow2 e < x ->
  pow2 e + pow2 (e - 52) <= x.
Proof.
  intros Hx He Hlt. apply eqb_true in Hx.
  assert (0 < x) as Hpos by (pose proof (pow2_pos e); lra).
  destruct (fl_grid x Hpos) as (Hval & Hm & _).
  set (u := ulpExp x) in *. set (m := roundEven (x / pow2 u)) in *.
  rewrite Hx in Hval.
  assert (e - 52 <= u)%Z as Hu.
  { unfold u, ulpExp. pose proof (binade_ge x e ltac:(lra)). lia. }
  pose proof (pow2_pos (e - 52)) as Hp.
  assert (pow2 u == inject_Z (2 ^ (u - (e - 52))) * pow2 (e - 52)) as Hgrid.
  { rewrite <- pow2_Z by lia. rewrite <- pow2_plus. by replace (u - (e - 52) + (e - 52))%Z with u by lia. }
  assert (pow2 e == inject_Z (2 ^ 52) * pow2 (e - 52)) as He52.
  { rewrite <- pow2_Z by lia. rewrite <- pow2_plus. by replace (52 + (e - 52))%Z with e by lia. }
  set (k := (m * 2 ^ (u - (e - 52)))%Z).
  assert (x == inject_Z k * pow2 (e - 52)) as Hk.
  { unfold k. rewrite inject_Z_mult, Hval, Hgrid. ring. }
  assert (2 ^ 52 < k)%Z as Hk52.
  { rewrite Zlt_Qlt. nra. }
  assert (inject_Z (2 ^ 52 + 1) <= inject_Z k) as Hk1 by (rewrite <- Zle_Qle; lia).
  rewrite inject_Z_plus in Hk1. change (inject_Z 1) with 1 in Hk1.
  rewrite Hk, He52. nra.
Qed.

Lemma fl_error (q : Q) : Qabs (fl q - q) <= (1 # 2) * pow2 (ulpExp (Qabs q)).
Proof.
  destruct (Qlt_le_dec q 0) as [Hneg | Hpos].
  - assert (fl q = - fl (- q)) as -> by (by rewrite fl_opp, Qopp_involutive_eq).
    rewrite <- (Qabs_opp_eq q), (Qabs_nonneg_eq (- q)) by lra.
    pose proof (fl_error_nonneg (- q) ltac:(lra)) as H.
    assert (- fl (- q) - q == - (fl (- q) - - q)) as -> by ring.
    by rewrite Qabs_opp.
  - rewrite (Qabs_nonneg_eq q) by done. by apply fl_error_nonneg.
Qed.

(** Rounding does not go below a power of two that the number reaches. *)
Lemma fl_ge_pow2 (q : Q) (e : Z) : (-1022 <= e)%Z -> pow2 e <= q -> pow2 e <= fl q.
Proof.
  intros He Hq.
  assert (0 < q) as Hpos by (pose proof (pow2_pos e); lra).
  destruct (fl_grid q Hpos) as (Hval & Hm & _ & _ & Hnorm).
  pose proof (binade_ge q e Hq) as Hb.
  assert (ulpExp q = binade q - 52)%Z as Hu by (unfold ulpExp; lia).
  specialize (Hnorm ltac:(lia)). rename Hnorm into Hm52.
  rewrite Hval, Hu.
  assert (pow2 e <= pow2 (binade q)) as Hle by (by apply pow2_le).
  assert (pow2 (binade q) == 4503599627370496 * pow2 (binade q - 52)) as H52.
  { replace (binade q) with (binade q - 52 + 52)%Z at 1 by lia.
    rewrite pow2_plus. change (pow2 52) with 4503599627370496. ring. }
  assert (4503599627370496 <= inject_Z (roundEven (q / pow2 (binade q - 52)))) as Hm'.
  { change 4503599627370496 with (inject_Z (2 ^ 52)). rewrite <- Zle_Qle. by rewrite <- Hu. }
  pose proof (pow2_pos (binade q - 52)). nra.
Qed.

Lemma Qabs_zero (q : Q) : Qabs q <= 0 -> q == 0.
Proof. apply Qabs_case; intros ? ?; lra. Qed.

(** The error on a number below a power of two. *)
Lemma fl_error_below (q : Q) (e : Z) :
  (-1022 <= e)%Z -> Qabs q < pow2 (e + 1) -> Qabs (fl q - q) <= (1 # 2) * pow2 (e - 52).
Proof.
  intros He Hq. pose proof (pow2_pos (e - 52)) as Hp.
  destruct (Qlt_le_dec 0 (Qabs q)) as [Hpos | Hzero].
  - eapply Qle_trans; [apply fl_error |].
    assert (pow2 (ulpExp (Qabs q)) <= pow2 (e - 52)); [| lra].
    apply pow2_le. unfold ulpExp. pose proof (binade_lt _ _ Hpos Hq). lia.
  - apply Qabs_zero in Hzero. rewrite (fl_zero q Hzero).
    assert (0 - q == 0) as -> by lra. change (Qabs 0) with 0. lra.
Qed.

(** The relative error of the rounding. *)
Lemma fl_rel_error (q : Q) :
  Qabs (fl q - q) <= pow2 (-53) * Qabs q + pow2 (-1075).
Proof.
  pose proof (pow2_pos (-1075)) as Hp.
  destruct (Qlt_le_dec 0 (Qabs q)) as [Hpos | Hzero].
  - eapply Qle_trans; [apply fl_error |].
    set (a := Qabs q) in *.
    change (pow2 (-53)) with (1 # 9007199254740992).
    destruct (binade_spec a Hpos) as [Hlo _].
    destruct (Z_lt_le_dec (binade a) (-1022)) as [Hsub | Hnormal].
    + assert (ulpExp a = (-1074)%Z) as -> by (unfold ulpExp; lia).
      assert (pow2 (-1074) == 2 * pow2 (-1075)) as ->.
      { change (-1074)%Z with (-1075 + 1)%Z. apply pow2_succ. }
      nra.
    + assert (ulpExp a = binade a - 52)%Z as -> by (unfold ulpExp; lia).
      assert (pow2 (binade a) == 4503599627370496 * pow2 (binade a - 52)) as H52.
      { replace (binade a) with (binade a - 52 + 52)%Z at 1 by lia.
        rewrite pow2_plus. change (pow2 52) with 4503599627370496. ring. }
      pose proof (pow2_pos (binade a - 52)). nra.
  - pose proof (Qabs_nonneg q).
    apply Qabs_zero in Hzero. rewrite (fl_zero q Hzero).
    assert (0 - q == 0) as -> by lra. change (Qabs 0) with 0.
    change (pow2 (-53)) with (1 # 9007199254740992). nra.
Qed.

(** *** Rounding to a number of digits *)

Lemma pow10_pos (p : Z) : (0 <= p)%Z -> (0 < pow10 p)%Z.
Proof. intros Hp. unfold pow10. by apply Z.pow_pos_nonneg. Qed.

Lemma Qfloor_half (n : Z) : Qfloor (inject_Z n + (1 # 2)) = n.
Proof. apply Qfloor_unique. lra. Qed.

Lemma toFixed_nonneg (p : Z) (x : Q) :
  0 <= x -> toFixed p x = Qfloor (x * inject_Z (pow10 p) + (1 # 2)).
Proof. intros Hx. unfold toFixed. by rewrite (proj2 (ltb_ge x 0) Hx). Qed.

Lemma toFixed_wd (p : Z) (x y : Q) : x == y -> toFixed p x = toFixed p y.
Proof.
  intros Hxy. unfold toFixed. rewrite (ltb_wd x y 0 0 Hxy) by reflexivity.
  destruct (ltb y 0); [f_equal |]; apply Qfloor_comp; by rewrite Hxy.
Qed.

Lemma toFixed_opp (p : Z) (x : Q) : toFixed p (- x) = (- toFixed p x)%Z.
Proof.
  unfold toFixed.
  destruct (ltb x 0) eqn:Hx, (ltb (- x) 0) eqn:Hnx.
  - apply ltb_lt in Hx, Hnx. lra.
  - rewrite Z.opp_involutive. apply Qfloor_comp. ring.
  - apply (f_equal Z.opp). apply Qfloor_comp. ring.
  - apply ltb_ge in Hx, Hnx. assert (x == 0)%Q as H0 by lra.
    assert (forall a, (a == 0)%Q -> Qfloor (a * inject_Z (pow10 p) + (1 # 2)) = 0%Z) as Hz.
    { intros a Ha. transitivity (Qfloor (inject_Z 0 + (1 # 2))); [| apply Qfloor_half].
      apply Qfloor_comp. rewrite Ha. ring. }
    rewrite (Hz x H0), (Hz (- x)%Q); [done | lra].
Qed.

Lemma roundTo_opp (p : Z) (x : Q) : roundTo p (- x) = - roundTo p x.
Proof.
  unfold roundTo. rewrite toFixed_opp, <- fl_opp. reflexivity.
Qed.

Lemma roundTo_wd (p : Z) (x y : Q) : x == y -> roundTo p x = roundTo p y.
Proof. intros Hxy. unfold roundTo. by rewrite (toFixed_wd p x y Hxy). Qed.

Lemma roundTo_negative_digits (p : Z) (x : Q) : (p < 0)%Z -> roundTo p x = 0.
Proof.
  intros Hp. unfold roundTo.
  assert (pow10 p = 0%Z) as HP by (unfold pow10; by apply Z.pow_neg_r).
  assert (toFixed p x = 0%Z) as ->.
  { unfold toFixed. rewrite HP. change (inject_Z 0) with 0.
    assert (forall a, Qfloor (a * 0 + (1 # 2)) = 0%Z) as Hz.
    { intros a. apply Qfloor_unique. change (inject_Z 0) with 0. lra. }
    rewrite !Hz. by destruct (ltb x 0). }
  by apply fl_zero.
Qed.

Lemma decimal_scaled (n : Z) (P : Z) :
  (0 < P)%Z -> (n # Z.to_pos P) * inject_Z P == inject_Z n.
Proof.
  intros HP. rewrite Qmake_Qdiv, Z2Pos.id by done.
  assert (0 < inject_Z P) by (by rewrite <- (Zlt_Qlt 0)). field. lra.
Qed.

(** The decimal read back from the double nearest to a decimal is
    rounded to that double again.  [D] is the decimal [n / P] written
    for the double [x], and [D'] the decimal [n' / P] written for the
    double nearest to [D]. *)
Lemma reround (P x D D' : Q) (n n' : Z) :
  0 < P -> 0 <= x -> isDouble x = true ->
  D * P == inject_Z n -> inject_Z n <= x * P + (1 # 2) < inject_Z n + 1 ->
  D' * P == inject_Z n' -> inject_Z n' <= fl D * P + (1 # 2) < inject_Z n' + 1 ->
  fl D' = fl D.
Proof.
  intros HP Hx Hdouble HD [Hn1 Hn2] HD' [Hn1' Hn2'].
  assert (0 <= n)%Z as Hn0.
  { assert (inject_Z (-1) < inject_Z n) as H.
    { change (inject_Z (-1)) with (-1). nra. }
    rewrite <- Zlt_Qlt in H. lia. }
  assert (0 <= inject_Z n) as Hn0q by (change 0 with (inject_Z 0); by rewrite <- Zle_Qle).
  assert (0 <= D) as HD0 by nra.
  pose proof (fl_ge_0 D HD0) as Hy0.
  pose proof (fl_idempotent D) as Hyy.
  apply fl_eq.
  assert (0 <= n')%Z as Hn0'.
  { assert (inject_Z (-1) < inject_Z n') as H.
    { change (inject_Z (-1)) with (-1). nra. }
    rewrite <- Zlt_Qlt in H. lia. }
  assert (0 <= inject_Z n') as Hn0q' by (change 0 with (inject_Z 0); by rewrite <- Zle_Qle).
  assert (0 <= D') as HD0' by nra.
  destruct (Qlt_le_dec 0 D) as [HDpos | HDzero].
  2:{ (* the decimal is zero *)
    rewrite (fl_zero D) in * by lra.
    assert (n' = 0%Z) as ->.
    { assert (inject_Z n' < inject_Z 1) as H by (change (inject_Z 1) with 1; lra).
      rewrite <- Zlt_Qlt in H. lia. }
    rewrite (fl_zero D'); [reflexivity |]. change (inject_Z 0) with 0 in HD'. nra. }
  destruct (fl_grid D HDpos) as (Hval & Hm & Hnorm & Hbottom & _).
  pose proof (fl_error_nonneg D HD0) as Herr.
  pose proof (ulpExp_ge D) as Hu.
  set (u := ulpExp D) in *. set (m := roundEven (D / pow2 u)) in *.
  clearbody m u.
  remember (fl D) as y eqn:Hy.
  pose proof (pow2_pos u) as Ht.
  assert (- ((1 # 2) * pow2 u) <= y - D <= (1 # 2) * pow2 u) as [Herr1 Herr2].
  { revert Herr. apply Qabs_case; intros ? ?; lra. }
  destruct (Q_dec (P * pow2 u) 1) as [[Hc | Hc] | Hc].
  - (* the grid is finer than the decimals: the same decimal is read *)
    assert (n' = n) as Hnn.
    { assert (inject_Z n' < inject_Z (n + 1)) as H1.
      { rewrite inject_Z_plus. change (inject_Z 1) with 1. nra. }
      assert (inject_Z n < inject_Z (n' + 1)) as H2.
      { rewrite inject_Z_plus. change (inject_Z 1) with 1. nra. }
      rewrite <- Zlt_Qlt in H1, H2. lia. }
    rewrite Hy, (fl_wd D' D); [reflexivity |]. rewrite Hnn in HD'. nra.
  - (* the grid is coarser than the decimals *)
    rewrite Hval.
    assert (0 <= inject_Z m) as Hm0 by (change 0 with (inject_Z 0); rewrite <- Zle_Qle; lia).
    assert (Qabs (D' - inject_Z m * pow2 u) < (1 # 2) * pow2 u) as Hnear.
    { rewrite <- Hval. apply Qabs_case; intros _; nra. }
    apply fl_near; [done | done | done | done | done |].
    intros Hm52. destruct (Hbottom Hm52) as [Hsub | HyD]; [by left |].
    destruct (decide (u = (-1074)%Z)) as [Hsub | Hnormal]; [by left |]. right.
    rewrite <- Hval in *. destruct (Qlt_le_dec D' y) as [Hless | Hok]; [exfalso | done].
    assert (n' < n)%Z as Hnn.
    { rewrite Zlt_Qlt. nra. }
    assert (inject_Z (n' + 1) <= inject_Z n) as Hnn' by (rewrite <- Zle_Qle; lia).
    rewrite inject_Z_plus in Hnn'. change (inject_Z 1) with 1 in Hnn'.
    assert (y < x) as Hyx.
    { destruct (Qlt_le_dec y x) as [Hlt | Hge]; [done | exfalso]. nra. }
    assert (y == pow2 (u + 52)) as Hy52.
    { rewrite Hval, Hm52, pow2_plus. change (inject_Z (2 ^ 52)) with (pow2 52). ring. }
    pose proof (double_gap x (u + 52) Hdouble ltac:(lia) ltac:(by rewrite <- Hy52)) as Hgap.
    replace (u + 52 - 52)%Z with u in Hgap by lia. rewrite <- Hy52 in Hgap.
    nra.
  - (* the grid is the decimals *)
    assert (y * P == inject_Z m) as HyP by (rewrite Hval; nra).
    assert (n' = m) as Hnm.
    { assert (inject_Z n' < inject_Z (m + 1)) as H1.
      { rewrite inject_Z_plus. change (inject_Z 1) with 1. nra. }
      assert (inject_Z m < inject_Z (n' + 1)) as H2.
      { rewrite inject_Z_plus. change (inject_Z 1) with 1. nra. }
      rewrite <- Zlt_Qlt in H1, H2. lia. }
    rewrite (fl_wd D' y); [by rewrite Hyy |]. rewrite Hnm in HD'. nra.
Qed.

Lemma roundTo_idempotent_nonneg (d : Z) (x : Q) :
  (0 <= d)%Z -> 0 <= x -> isDouble x = true ->
  roundTo d (roundTo d x) = roundTo d x.
Proof.
  intros Hd Hx Hdouble.
  pose proof (pow10_pos d Hd) as HP.
  assert (0 < inject_Z (pow10 d)) as HPq by (by rewrite <- (Zlt_Qlt 0)).
  unfold roundTo.
  assert (0 <= toFixed d x # Z.to_pos (pow10 d)) as HD0.
  { pose proof (decimal_scaled (toFixed d x) (pow10 d) HP) as HD.
    assert (0 <= toFixed d x)%Z as Hn0.
    { rewrite toFixed_nonneg by done. change 0%Z with (Qfloor 0). apply Qfloor_resp_le. nra. }
    rewrite Zle_Qle in Hn0. change (inject_Z 0) with 0 in Hn0. nra. }
  apply (reround (inject_Z (pow10 d)) x _ _ (toFixed d x)
           (toFixed d (fl (toFixed d x # Z.to_pos (pow10 d))))); try done.
  - by apply decimal_scaled.
  - rewrite toFixed_nonneg by done. apply Qfloor_bounds.
  - by apply decimal_scaled.
  - rewrite toFixed_nonneg by (by apply fl_ge_0). apply Qfloor_bounds.
Qed.

Lemma roundTo_idempotent (d : Z) (x : Q) :
  isDouble x = true -> roundTo d (roundTo d x) = roundTo d x.
Proof.
  intros Hdouble.
  destruct (Z_lt_le_dec d 0) as [Hneg | Hd].
  { by rewrite !roundTo_negative_digits. }
  destruct (Qlt_le_dec x 0) as [Hx | Hx].
  - assert (roundTo d x = - roundTo d (- x)) as ->
      by (by rewrite roundTo_opp, Qopp_involutive_eq).
    rewrite roundTo_opp. f_equal.
    apply roundTo_idempotent_nonneg; [done | lra | by rewrite isDouble_opp].
  - by apply roundTo_idempotent_nonneg.
Qed.


Lemma rNbr_isDouble (p x : Q) : isDouble (rNbr p x) = true.
Proof. apply isDouble_fl. Qed.

Lemma pow10_Q (d : Z) : (0 <= d)%Z -> 0 < inject_Z (pow10 d).
Proof. intros Hd. rewrite <- (Zlt_Qlt 0). by apply pow10_pos. Qed.


(** *** The test of [rDeg] *)

Lemma seqZ_1_10 : seqZ 1 10 = [1; 2; 3; 4; 5; 6; 7; 8; 9; 10]%Z.
Proof. reflexivity. Qed.

Lemma one_to_ten (i : Z) :
  (1 <= i <= 10)%Z ->
  i ∈ [1; 2; 3; 4; 5; 6; 7; 8; 9; 10]%Z.
Proof.
  intros Hi.
  assert (i = 1 \/ i = 2 \/ i = 3 \/ i = 4 \/ i = 5 \/ i = 6 \/ i = 7
          \/ i = 8 \/ i = 9 \/ i = 10)%Z as Hcases by lia.
  repeat destruct Hcases as [-> | Hcases]; try subst i;
    repeat first [apply list_elem_of_here | apply list_elem_of_further].
Qed.

Lemma find_seqZ_Some (f : Z -> bool) (i : Z) :
  find f (seqZ 1 10) = Some i -> (1 <= i <= 10)%Z /\ f i = true.
Proof.
  intros Hfind. apply find_some in Hfind as [Hin Hf]. split; [| done].
  apply list_elem_of_In, elem_of_seqZ in Hin. lia.
Qed.

Lemma Math_round_bounds (t : Q) :
  inject_Z (Math_round t) <= t + (1 # 2) < inject_Z (Math_round t) + 1.
Proof. apply Qfloor_bounds. Qed.

(** The double product [x * 100000] of a number whose rounding is at
    most four million in absolute value is off by at most 2^-31. *)
Lemma scaled_error (x : Q) :
  Qabs (fl (x * 100000)) < 8388608 ->
  Qabs (fl (x * 100000) - x * 100000) <= 1 # 2147483648.
Proof.
  intros Hsmall. set (q := x * 100000) in *.
  change (1 # 2147483648) with ((1 # 2) * pow2 (22 - 52)).
  apply fl_error_below; [lia |]. change (pow2 (22 + 1)) with 8388608.
  destruct (Qlt_le_dec (Qabs q) 8388608) as [Hlt | Hge]; [done | exfalso].
  change 8388608 with (pow2 23) in Hge.
  destruct (Qlt_le_dec q 0) as [Hneg | Hpos].
  - rewrite (Qabs_neg q) in Hge by lra.
    pose proof (fl_ge_pow2 (- q) 23 ltac:(lia) Hge) as H.
    rewrite fl_opp in H. change (pow2 23) with 8388608 in H.
    revert Hsmall. apply Qabs_case; intros ? ?; lra.
  - rewrite (Qabs_pos q) in Hge by lra.
    pose proof (fl_ge_pow2 q 23 ltac:(lia) Hge) as H.
    change (pow2 23) with 8388608 in H.
    revert Hsmall. apply Qabs_case; intros ? ?; lra.
Qed.

(** What the test of [rDeg] says about the number: its absolute value
    times 100000 is within a half, and the error of the product, of the
    integer compared with. *)
Lemma scaled_abs (x : Q) (K : Z) :
  Z.abs (scaled x) = K -> (K <= 4000000)%Z ->
  Qabs (Qabs x * 100000 - inject_Z K) <= (1 # 2) + (1 # 2147483648).
Proof.
  intros HK Hsmall. unfold scaled in HK.
  pose proof (Math_round_bounds (fl (x * 100000))) as [Hr1 Hr2].
  set (t := fl (x * 100000)) in *. set (r := Math_round t) in *.
  assert (inject_Z K <= 4000000) as HKq.
  { change 4000000 with (inject_Z 4000000). by rewrite <- Zle_Qle. }
  assert (inject_Z (Z.abs r) == Qabs (inject_Z r)) as Habs.
  { unfold Qabs, inject_Z. reflexivity. }
  rewrite HK in Habs.
  assert (Qabs t < 8388608) as Ht.
  { revert Habs. apply Qabs_case; intros ? ?; apply Qabs_case; intros ?; lra. }
  pose proof (scaled_error x Ht) as Herr. fold t in Herr.
  destruct (Qlt_le_dec x 0) as [Hneg | Hpos].
  - rewrite (Qabs_neg x) by lra.
    assert (t <= 0) as Ht0.
    { unfold t. assert (x * 100000 == - (- x * 100000)) as Hq by ring.
      rewrite (fl_wd _ _ Hq), fl_opp. pose proof (fl_ge_0 (- x * 100000) ltac:(lra)). lra. }
    revert Herr Habs. apply Qabs_case; intros ? ?; apply Qabs_case; intros ? ?;
      apply Qabs_case; intros ?; lra.
  - rewrite (Qabs_pos x) by lra.
    assert (0 <= t) as Ht0 by (apply fl_ge_0; lra).
    revert Herr Habs. apply Qabs_case; intros ? ?; apply Qabs_case; intros ? ?;
      apply Qabs_case; intros ?; lra.
Qed.

(** A number whose absolute value times 100000 is within 0.49 of a
    positive integer passes the test of [rDeg] for that integer. *)
Lemma scaled_of_near (x : Q) (K : Z) :
  (1 <= K <= 4000000)%Z ->
  Qabs (Qabs x * 100000 - inject_Z K) <= 49 # 100 ->
  Z.abs (scaled x) = K.
Proof.
  intros [HK1 HK2] Hnear.
  assert (1 <= inject_Z K <= 4000000) as [HKq1 HKq2].
  { change 1 with (inject_Z 1). change 4000000 with (inject_Z 4000000).
    rewrite <- !Zle_Qle. lia. }
  assert (forall y, 0 <= y -> Qabs (y * 100000 - inject_Z K) <= 49 # 100 ->
            Qfloor (fl (y * 100000) + (1 # 2)) = K
            /\ Qfloor (- fl (y * 100000) + (1 # 2)) = (- K)%Z) as Hcase.
  { intros y Hy Hy'.
    assert (Qabs (y * 100000) < pow2 (22 + 1)) as Hsmall.
    { change (pow2 (22 + 1)) with 8388608. rewrite Qabs_pos by lra.
      revert Hy'. apply Qabs_case; intros ? ?; lra. }
    pose proof (fl_error_below (y * 100000) 22 ltac:(lia) Hsmall) as Herr.
    change ((1 # 2) * pow2 (22 - 52)) with (1 # 2147483648) in Herr.
    split; apply Qfloor_unique; rewrite ?inject_Z_opp;
      revert Herr Hy'; apply Qabs_case; intros ? ?; apply Qabs_case; intros ? ?; lra. }
  unfold scaled, Math_round.
  destruct (Qlt_le_dec x 0) as [Hneg | Hpos].
  - rewrite (Qabs_neg x) in Hnear by lra.
    destruct (Hcase (- x) ltac:(lra) Hnear) as [_ H].
    assert (x * 100000 == - (- x * 100000)) as Hq by ring.
    rewrite (fl_wd _ _ Hq), fl_opp, H. lia.
  - rewrite (Qabs_pos x) in Hnear by lra.
    destruct (Hcase x Hpos Hnear) as [H _]. rewrite H. lia.
Qed.

Lemma piOver_values :
  map piOver (seqZ 1 10)
  = [314159; 157080; 104720; 78540; 62832; 52360; 44880; 39270; 34907; 31416]%Z.
Proof. vm_compute. reflexivity. Qed.

Lemma piTimes_values :
  map piTimes (seqZ 1 10)
  = [314159; 628319; 942478; 1256637; 1570796; 1884956; 2199115; 2513274;
     2827433; 3141593]%Z.
Proof. vm_compute. reflexivity. Qed.

Lemma pi_range (i : Z) :
  (1 <= i <= 10)%Z ->
  (1 <= piOver i <= 4000000)%Z /\ (1 <= piTimes i <= 4000000)%Z.
Proof.
  intros Hi. apply one_to_ten in Hi.
  repeat (apply elem_of_cons in Hi as [-> | Hi]; [vm_compute; intuition discriminate |]).
  by apply elem_of_nil in Hi.
Qed.

Lemma rDeg_over (p x : Q) (i : Z) :
  (1 <= i <= 10)%Z -> Z.abs (scaled x) = piOver i ->
  rDeg p x
  = JsStr (sign x +:+ "Math.PI" +:+ (if (1 <? i)%Z then " / " +:+ pretty i else "")).
Proof.
  intros Hi Habs. unfold rDeg. cbv zeta. rewrite Habs.
  generalize (sign x). intros sg.
  apply one_to_ten in Hi.
  repeat (apply elem_of_cons in Hi as [-> | Hi]; [vm_compute; reflexivity |]).
  by apply elem_of_nil in Hi.
Qed.

Lemma rDeg_times (p x : Q) (i : Z) :
  (1 <= i <= 10)%Z -> Z.abs (scaled x) = piTimes i ->
  rDeg p x
  = JsStr (sign x +:+ "Math.PI" +:+ (if (1 <? i)%Z then " * " +:+ pretty i else "")).
Proof.
  intros Hi Habs. unfold rDeg. cbv zeta. rewrite Habs.
  generalize (sign x). intros sg.
  apply one_to_ten in Hi.
  repeat (apply elem_of_cons in Hi as [-> | Hi]; [vm_compute; reflexivity |]).
  by apply elem_of_nil in Hi.
Qed.

Lemma rDeg_other (p x : Q) :
  (forall i : Z, (1 <= i <= 10)%Z ->
     Z.abs (scaled x) <> piOver i /\ Z.abs (scaled x) <> piTimes i) ->
  rDeg p x = JsNum (rNbr p x).
Proof.
  intros Hnone. unfold rDeg. cbv zeta. rewrite seqZ_1_10.
  assert (forall i, i ∈ [1; 2; 3; 4; 5; 6; 7; 8; 9; 10]%Z ->
            (Z.abs (scaled x) =? scaled (fl (Math_PI / inject_Z i)))%Z = false
            /\ (Z.abs (scaled x) =? scaled (fl (Math_PI * inject_Z i)))%Z = false) as Hoff.
  { intros i Hi.
    assert (1 <= i <= 10)%Z as Hr.
    { repeat (apply elem_of_cons in Hi as [-> | Hi]; [lia |]).
      by apply elem_of_nil in Hi. }
    destruct (Hnone i Hr) as [Hd Hm]. split; by apply Z.eqb_neq. }
  cbn [find].
  repeat match goal with
  | |- context [(Z.abs (scaled x) =? scaled (fl (Math_PI / inject_Z ?i)))%Z] =>
      rewrite (proj1 (Hoff i ltac:(repeat first [apply list_elem_of_here
                                                 | apply list_elem_of_further])))
  | |- context [(Z.abs (scaled x) =? scaled (fl (Math_PI * inject_Z ?i)))%Z] =>
      rewrite (proj2 (Hoff i ltac:(repeat first [apply list_elem_of_here
                                                 | apply list_elem_of_further])))
  end.
  reflexivity.
Qed.

Lemma toFixed_bounds (p : Z) (x : Q) :
  Qabs (inject_Z (toFixed p x) - x * inject_Z (pow10 p)) <= 1 # 2.
Proof.
  unfold toFixed. set (P := inject_Z (pow10 p)).
  destruct (ltb x 0) eqn:Hx.
  - pose proof (Qfloor_bounds (- x * P + (1 # 2))) as [Hlo Hhi].
    rewrite inject_Z_opp.
    set (f := inject_Z (Qfloor (- x * P + (1 # 2)))) in *.
    apply Qabs_case; intros _; lra.
  - pose proof (Qfloor_bounds (x * P + (1 # 2))) as [Hlo Hhi].
    set (f := inject_Z (Qfloor (x * P + (1 # 2)))) in *.
    apply Qabs_case; intros _; lra.
Qed.


(** *** Numbers as the program writes them *)

Example toString_tenth : JsNumber.toString (fl (1 # 10)) = "0.1".
Proof. vm_compute. reflexivity. Qed.

Example toString_sum :
  JsNumber.toString (fl (fl (1 # 10) + fl (2 # 10))) = "0.30000000000000004".
Proof. vm_compute. reflexivity. Qed.

Example toString_large : JsNumber.toString (fl (inject_Z (10 ^ 21))) = "1e+21".
Proof. vm_compute. reflexivity. Qed.

Example toString_small : JsNumber.toString (fl (15 # 100000000)) = "1.5e-7".
Proof. vm_compute. reflexivity. Qed.

Example toString_pi_third : JsNumber.toString (fl (Math_PI / 3)) = "1.0471975511965976".
Proof. vm_compute. reflexivity. Qed.

Example rDeg_neg_half_pi : rDeg 0 (- Math_PI / 2) = JsStr "-Math.PI / 2".
Proof. vm_compute. reflexivity. Qed.

Example rDeg_two_pi : rDeg 0 (fl (2 * Math_PI)) = JsStr "Math.PI * 2".
Proof. vm_compute. reflexivity. Qed.

Example rNbr_three_digits : JsNumber.toString (rNbr 3 (fl (-12345 # 10000))) = "-1.234".
Proof. vm_compute. reflexivity. Qed.

Example rNbr_eighth : JsNumber.toString (rNbr 0 (fl (125 # 1000))) = "0.13".
Proof. vm_compute. reflexivity. Qed.

Example rNbr_twenty_digits : JsNumber.toString (rNbr 20 (fl (1 # 10))) = "0.1".
Proof. vm_compute. reflexivity. Qed.

Example rNbr_negative_zero : JsNumber.toString (rNbr 0 (fl (-1 # 1000))) = "0".
Proof. vm_compute. reflexivity. Qed.

Example length_of_3_4_0 : Vector3_length (vec3 3 4 0) = 5.
Proof. vm_compute. reflexivity. Qed.

Example sqrt_of_two :
  JsNumber.toString (Math_sqrt 2) = "1.4142135623730951"
  /\ JsNumber.toString (Math_sqrt (fl (1 # 10))) = "0.31622776601683794"
  /\ JsNumber.toString (Math_sqrt (1 # 2)) = "0.7071067811865476"
  /\ JsNumber.toString (Vector3_length (vec3 1 1 1)) = "1.7320508075688772".
Proof. repeat split; vm_compute; reflexivity. Qed.




Local Close Scope Q_scope.

(** ** The graph indexer *)

(** C3 (the code at a mesh without material).  The signature of a mesh
    that has a geometry and no material is the geometry identity followed
    by the text "undefined", which is not the geometry identity alone. *)
Theorem signature_without_material (g : Geometry) :
  signature g None = geo_uuid g +:+ "undefined"
  /\ signature g None <> geo_uuid g +:+ "".
Proof.
  split; [reflexivity |].
  unfold signature. intros Heq. apply append_inj_l in Heq. discriminate.
Qed.

Section Indexer.

Variable isVar : string -> bool.

Lemma elem_of_names geometries s :
  s ∈ names geometries <->
  exists k r, geometries !! k = Some r /\ dup_name r = s.
Proof.
  unfold names. rewrite list_elem_of_fmap. split.
  - intros (r & -> & Hr). apply list_elem_of_fmap in Hr as ([k r'] & -> & Hkr).
    apply elem_of_map_to_list in Hkr. eauto.
  - intros (k & r & Hkr & <-). exists r. split; [done |].
    apply list_elem_of_fmap. exists (k, r). split; [done |].
    by apply elem_of_map_to_list.
Qed.

Lemma length_names geometries : length (names geometries) = size geometries.
Proof. unfold names. by rewrite !length_fmap, length_map_to_list. Qed.

Lemma nameTaken_spec geometries a :
  nameTaken geometries a = true <-> a ∈ names geometries.
Proof. unfold nameTaken. by rewrite bool_decide_eq_true. Qed.

Global Instance newAttempt_inj attempt : Inj (=) (=) (newAttempt attempt).
Proof.
  intros i j. unfold newAttempt.
  destruct (Nat.ltb_spec 0 i) as [Hi | Hi], (Nat.ltb_spec 0 j) as [Hj | Hj].
  - intros Heq. apply append_inj_l in Heq. by apply (inj pretty).
  - intros Heq. rewrite <- (append_empty_r attempt) in Heq at 2.
    apply append_inj_l in Heq. by destruct (pretty_nat_nonempty i).
  - intros Heq. rewrite <- (append_empty_r attempt) in Heq at 1.
    apply append_inj_l in Heq. symmetry in Heq. by destruct (pretty_nat_nonempty j).
  - lia.
Qed.

(** A search that gives up has met only names that are taken. *)
Lemma uniqueName_from_None fuel geometries attempt index :
  uniqueName_from fuel geometries attempt index = None ->
  forall j, index <= j < index + fuel -> newAttempt attempt j ∈ names geometries.
Proof.
  revert index. induction fuel as [| fuel IH]; intros index Hnone j Hj; [lia |].
  simpl in Hnone.
  destruct (nameTaken geometries (newAttempt attempt index)) eqn:Htaken; [| done].
  destruct (decide (j = index)) as [-> | Hne].
  - by apply nameTaken_spec.
  - apply (IH (S index)); [done | lia].
Qed.

Lemma uniqueName_from_Some fuel geometries attempt index s :
  uniqueName_from fuel geometries attempt index = Some s ->
  (s ∉ names geometries)
  /\ exists j, index <= j /\ s = newAttempt attempt j
       /\ forall i, index <= i < j -> newAttempt attempt i ∈ names geometries.
Proof.
  revert index. induction fuel as [| fuel IH]; intros index Hsome; [done |].
  simpl in Hsome.
  destruct (nameTaken geometries (newAttempt attempt index)) eqn:Htaken.
  - destruct (IH _ Hsome) as (Hfresh & j & Hj & -> & Hbelow).
    split; [done |]. exists j. split; [lia |]. split; [done |].
    intros i Hi. destruct (decide (i = index)) as [-> | Hne].
    + by apply nameTaken_spec.
    + apply Hbelow. lia.
  - injection Hsome as <-. split.
    + intros Hin. apply nameTaken_spec in Hin. congruence.
    + exists index. split; [lia |]. split; [done |]. intros i Hi. lia.
Qed.

(** The recursion of [uniqueName] ends: among [size + 1] candidates one
    is free. *)
Lemma uniqueName_from_is_Some geometries attempt :
  is_Some (uniqueName_from (S (size geometries)) geometries attempt 0).
Proof.
  destruct (uniqueName_from (S (size geometries)) geometries attempt 0) eqn:Hrun; [eauto |].
  exfalso.
  pose proof (uniqueName_from_None _ _ _ _ Hrun) as Hall.
  assert (newAttempt attempt <$> seq 0 (S (size geometries)) ⊆+ names geometries) as Hsub.
  { apply NoDup_submseteq.
    - apply NoDup_fmap_2; [apply _ | apply NoDup_seq].
    - intros s (j & -> & Hj)%list_elem_of_fmap. apply elem_of_seq in Hj.
      apply Hall. lia. }
  apply submseteq_length in Hsub.
  rewrite length_fmap, length_seq, length_names in Hsub. lia.
Qed.

Lemma uniqueName_fresh geometries attempt :
  uniqueName geometries attempt ∉ names geometries.
Proof.
  unfold uniqueName.
  destruct (uniqueName_from_is_Some geometries attempt) as [s Hs].
  rewrite Hs. simpl. by apply uniqueName_from_Some in Hs as [Hfresh _].
Qed.

(** The result of [uniqueName] is the first candidate, in the order
    attempt, attempt1, attempt2, ..., that no entry carries. *)
Lemma uniqueName_first geometries attempt :
  exists j, uniqueName geometries attempt = newAttempt attempt j
    /\ forall i, i < j -> newAttempt attempt i ∈ names geometries.
Proof.
  unfold uniqueName.
  destruct (uniqueName_from_is_Some geometries attempt) as [s Hs].
  rewrite Hs. simpl.
  apply uniqueName_from_Some in Hs as (_ & j & _ & -> & Hbelow).
  exists j. split; [done |]. intros i Hi. apply Hbelow. lia.
Qed.

Lemma distinctNames_indexGeometry geometries child :
  distinctNames geometries ->
  distinctNames (indexGeometry isVar geometries child).
Proof.
  intros Hdist. unfold indexGeometry.
  destruct (isMesh child); [| done].
  destruct (geometry child) as [g |]; [| done].
  set (key := signature g (material child)).
  destruct (geometries !! key) as [r |] eqn:Hkey.
  - intros k1 k2 r1 r2 H1 H2 Hne.
    rewrite lookup_insert in H1. rewrite lookup_insert in H2.
    repeat case_decide; simplify_eq; simpl; eauto.
  - destruct (inherited key); [done |].
    pose proof (uniqueName_fresh geometries (baseName (name child))) as Hfresh.
    intros k1 k2 r1 r2 H1 H2 Hne.
    rewrite lookup_insert in H1. rewrite lookup_insert in H2.
    repeat case_decide; simplify_eq; simpl; eauto.
    + intros Heq. apply Hfresh. apply elem_of_names. eauto.
    + intros Heq. apply Hfresh. apply elem_of_names. eauto.
Qed.

Lemma distinctNames_foldl objects geometries :
  distinctNames geometries ->
  distinctNames (foldl (indexGeometry isVar) geometries objects).
Proof.
  revert geometries. induction objects as [| o objects IH]; intros geometries Hd; [done |].
  simpl. apply IH. by apply distinctNames_indexGeometry.
Qed.

Lemma distinctNames_pruneDuplicates options geometries :
  distinctNames geometries -> distinctNames (pruneDuplicates options geometries).
Proof.
  intros Hd. unfold pruneDuplicates. destruct (instanceall options); [done |].
  intros k1 k2 r1 r2 [H1 _]%map_lookup_filter_Some [H2 _]%map_lookup_filter_Some.
  by apply Hd.
Qed.

End Indexer.

(** C4.  Two different entries of the duplicate-geometry table never carry
    the same name, whatever the scene and the options. *)
Theorem duplicate_names_distinct (isVar : string -> bool) (options : Options)
    (objects : Heap) (k1 k2 : string) (r1 r2 : DuplicateRecord) :
  duplicateGeometries isVar options objects !! k1 = Some r1 ->
  duplicateGeometries isVar options objects !! k2 = Some r2 ->
  k1 <> k2 ->
  dup_name r1 <> dup_name r2.
Proof.
  assert (distinctNames (duplicateGeometries isVar options objects)) as Hd.
  { apply distinctNames_pruneDuplicates, distinctNames_foldl.
    intros k1' k2' r1' r2' H1. by rewrite lookup_empty in H1. }
  apply Hd.
Qed.

(** The second of two meshes named "part" gets the name with suffix 1. *)
Lemma duplicate_names_distinct_witness :
  let options :=
    {| precision := 0; instance := true; instanceall := true;
       keepgroups := false; keepnames := false; bones := false;
       shadows := false; meta := false; header := ""; fileSize := "" |} in
  let r1 := {| dup_count := 1; dup_name := "Part"; dup_node := "nodes.part" |} in
  let r2 := {| dup_count := 1; dup_name := "Part1"; dup_node := "nodes.part" |} in
  duplicateGeometries isVarName options twoParts !! "g1Red" = Some r1
  /\ duplicateGeometries isVarName options twoParts !! "g2Red" = Some r2
  /\ dup_name r1 <> dup_name r2.
Proof.
  intros options r1 r2.
  assert (duplicateGeometries isVarName options twoParts !! "g1Red" = Some r1) as H1
    by (vm_compute; reflexivity).
  assert (duplicateGeometries isVarName options twoParts !! "g2Red" = Some r2) as H2
    by (vm_compute; reflexivity).
  split; [exact H1 |]. split; [exact H2 |].
  apply (duplicate_names_distinct isVarName options twoParts "g1Red" "g2Red" r1 r2 H1 H2).
  discriminate.
Defined.

(** ** The heap: what [print] leaves untouched *)

Lemma Tree_ind_strong (P : Tree -> Prop) :
  (forall id kids, Forall P kids -> P (Node id kids)) -> forall t, P t.
Proof.
  intros Hnode. fix IH 1. intros [id kids]. apply Hnode.
  induction kids as [| k kids IHkids]; constructor; [apply IH | exact IHkids].
Qed.

Lemma bind_Ok {A B : Type} (r : Result A) (k : A -> Result B) (b : B) :
  r ≫= k = Ok b -> exists a, r = Ok a /\ k a = Ok b.
Proof. destruct r as [a | e]; [eauto | done]. Qed.

Lemma handleProps_Ok (isVar : string -> bool) (options : Options)
    (geometries : gmap string DuplicateRecord) (obj : Object3D) :
  writable options obj ->
  handleProps isVar options geometries obj = Ok (propsText isVar options geometries obj).
Proof.
  intros [Hdigits Hdata]. unfold handleProps. rewrite Hdigits. cbn [negb].
  unfold serializable in Hdata. destruct (userData obj) as [| json | e]; [done | done |].
  destruct (meta options); [| done]. by specialize (Hdata eq_refl).
Qed.

Lemma handleProps_text (isVar : string -> bool) (options : Options)
    (geometries : gmap string DuplicateRecord) (obj : Object3D) (props : string) :
  handleProps isVar options geometries obj = Ok props ->
  props = propsText isVar options geometries obj.
Proof.
  unfold handleProps. destruct (negb _); [done |].
  destruct (userData obj) as [| json | e]; try (by intros [= <-]).
  destruct (meta options); [done | by intros [= <-]].
Qed.

Lemma get_update (i j : nat) (f : Object3D -> Object3D) (h : Heap) :
  get (update i f h) j
  = if bool_decide (i = j /\ i < length h) then f (get h i) else get h j.
Proof.
  unfold get, update. case_bool_decide as Hij.
  - destruct Hij as [-> Hlt]. by rewrite list_lookup_total_insert_eq.
  - destruct (decide (i = j)) as [-> | Hne].
    + rewrite list_insert_ge; [done | lia].
    + by rewrite list_lookup_total_insert_ne.
Qed.

Lemma sameStatic_refl h : sameStatic h h.
Proof. done. Qed.

Lemma sameStatic_trans h1 h2 h3 :
  sameStatic h1 h2 -> sameStatic h2 h3 -> sameStatic h1 h3.
Proof. intros H12 H23 i. by rewrite H23, H12. Qed.

Lemma sameStatic_update (i : nat) (f : Object3D -> Object3D) (h : Heap) :
  static (f (get h i)) = static (get h i) -> sameStatic h (update i f h).
Proof.
  intros Hf j. rewrite get_update. case_bool_decide as Hij; [| done].
  by destruct Hij as [<- _].
Qed.

Lemma static_copyKey key src dst : static (copyKey key src dst) = static dst.
Proof. unfold copyKey. by repeat case_match. Qed.

Lemma getType_static o o' : static o = static o' -> getType o = getType o'.
Proof.
  intros Hs. unfold getType. by rewrite (f_equal type Hs : type o = type o').
Qed.

Section Frame.

Variable isVar : string -> bool.
Variable options : Options.
Variable clips : list string.
Variable geometries : gmap string DuplicateRecord.

Lemma printEach_static (pr : Tree -> Heap -> Result (string * Heap)) ks :
  Forall (fun k => preserves (pr k)) ks ->
  forall acc, preserves (printEach pr ks acc).
Proof.
  induction 1 as [| k ks Hk Hks IH]; intros acc h s h' Hrun; simpl in Hrun.
  - by injection Hrun as <- <-.
  - apply bind_Ok in Hrun as ([s1 h1] & Hk1 & Hrest).
    eapply sameStatic_trans; [by eapply Hk | by eapply IH].
Qed.

Lemma foldl_copy_static fid id keys h :
  sameStatic h (foldl (fun h key => update fid (copyKey key (get h id)) h) h keys).
Proof.
  revert h. induction keys as [| key keys IH]; intros h; [done |]. simpl.
  eapply sameStatic_trans; [| apply IH].
  apply sameStatic_update, static_copyKey.
Qed.

(** Every branch of [prune] writes removal marks and transforms only. *)
Lemma prune_static id kids printFirst printGrandchildren children_ result oldResult :
  preserves printFirst -> preserves printGrandchildren ->
  forall h r h',
    prune isVar options clips geometries id kids printFirst printGrandchildren
      children_ result oldResult h = Ok (r, h') ->
    sameStatic h h'.
Proof.
  intros Hfirst Hgrand h r h' Hrun. unfold prune in Hrun.
  repeat match type of Hrun with
  | Ok _ = Ok _ => injection Hrun as <- <-
  | (if ?c then _ else _) = _ => destruct c
  | match ?l with [] => _ | _ :: _ => _ end = _ => destruct l
  | _ ≫= _ = Ok _ => apply bind_Ok in Hrun as (? & ? & Hrun)
  | (let '(_, _) := ?x in _) = _ => destruct x
  end;
  repeat match goal with
  | |- sameStatic ?h ?h => apply sameStatic_refl
  | |- sameStatic _ (update _ _ _) =>
      eapply sameStatic_trans; [| by apply sameStatic_update]
  | H : printFirst _ = Ok _ |- _ =>
      eapply sameStatic_trans; [| eapply Hfirst, H]; clear H
  | H : printGrandchildren _ = Ok _ |- _ =>
      eapply sameStatic_trans; [| eapply Hgrand, H]; clear H
  | |- sameStatic _ (foldl _ _ _) => apply foldl_copy_static
  end.
Qed.

Lemma print_static t :
  preserves (print isVar options clips geometries t)
  /\ forall acc,
       preserves (printEach (print isVar options clips geometries) (children t) acc).
Proof.
  induction t as [id kids IH] using Tree_ind_strong.
  assert (forall acc,
            preserves (printEach (print isVar options clips geometries) kids acc))
    as Heach.
  { apply printEach_static. eapply Forall_impl; [exact IH |]. by intros k [Hk _]. }
  split; [| exact Heach].
  intros h s h' Hrun. cbn [print] in Hrun.
  destruct (__removed (get h id) && (0 <? length kids)); [by eapply Heach |].
  destruct (negb (bones options) && String.eqb (getType (get h id)) "bone").
  { by injection Hrun as <- <-. }
  destruct (endsWith (getType (get h id)) "Light" && targetIsFirstChild (get h id) kids).
  { apply bind_Ok in Hrun as (? & _ & Hrun). by injection Hrun as <- <-. }
  apply bind_Ok in Hrun as ([children_ h1] & Hkids & Hrun).
  apply bind_Ok in Hrun as ([opening ty'] & _ & Hrun).
  apply bind_Ok in Hrun as (props & _ & Hrun).
  apply bind_Ok in Hrun as ([pruned h2] & Hprune & Hrun).
  assert (h' = h2) as -> by (destruct pruned; by injection Hrun as <- <-).
  eapply sameStatic_trans; [by eapply Heach |].
  eapply prune_static; [| | exact Hprune].
  - destruct IH as [| first rest [Hfirst _] _]; [| exact Hfirst].
    intros h0 s0 h0' [= <- <-]. apply sameStatic_refl.
  - destruct IH as [| [fid grandchildren] rest [_ Hgrand] _]; [| apply Hgrand].
    intros h0 s0 h0' [= <- <-]. apply sameStatic_refl.
Qed.

Lemma openTag_static o o' :
  static o = static o' ->
  openTag isVar options geometries o = openTag isVar options geometries o'.
Proof.
  intros Hs. unfold openTag, instancedAs, duplicateOf, nodeRef, getType.
  rewrite <- (f_equal geometry Hs : geometry o = geometry o').
  rewrite <- (f_equal material Hs : material o = material o').
  rewrite <- (f_equal isInstancedMesh Hs : isInstancedMesh o = isInstancedMesh o').
  rewrite <- (f_equal name Hs : name o = name o').
  rewrite <- (f_equal type Hs : type o = type o').
  by rewrite <- (f_equal count Hs : count o = count o').
Qed.

(** An object of a plain type is emitted with the opening [openTag]
    chooses for it. *)
Lemma print_plain (m : Object3D) (opening ty' : string) :
  plainType (getType m) = true ->
  openTag isVar options geometries m = Ok (opening, ty') ->
  forall id kids h,
    static (get h id) = static m ->
    __removed (get h id) = false ->
    print isVar options clips geometries (Node id kids) h
    = '(children_, h1) ← printEach (print isVar options clips geometries) kids "" h;
      props ← handleProps isVar options geometries (get h1 id);
      Ok (closeTag (getType m) ty' children_
            (opening +:+ nameAttr options clips (get h1 id) +:+ props), h1).
Proof.
  intros Hplain Hopen id kids h Hm Hrem.
  unfold plainType in Hplain.
  apply andb_prop in Hplain as [Hplain Hlight%negb_true_iff].
  apply andb_prop in Hplain as [Hplain Hbone%negb_true_iff].
  apply andb_prop in Hplain as [Hgroup%negb_true_iff Hscene%negb_true_iff].
  cbn [print]. rewrite Hrem, (getType_static _ _ Hm), Hbone, Hlight.
  rewrite andb_false_l, andb_false_r. cbn [andb].
  destruct (printEach (print isVar options clips geometries) kids "" h)
    as [[children_ h1] | e] eqn:Hkids; [| done].
  cbn [mbind Result_bind].
  pose proof (proj2 (print_static (Node id kids)) "" h children_ h1 Hkids id) as Hsame.
  rewrite Hm in Hsame.
  rewrite (openTag_static _ _ Hsame), Hopen. cbn [mbind Result_bind].
  destruct (handleProps isVar options geometries (get h1 id)) as [props | e]; [| done].
  cbn [mbind Result_bind]. unfold prune.
  rewrite (getType_static _ _ Hsame), Hgroup, Hscene.
  by rewrite !andb_false_r, append_assoc.
Qed.

End Frame.

(** ** The pruning rules on the emitted attributes *)

Lemma includes_tail (c : ascii) (s p : string) :
  includes (String c s) p = false -> includes s p = false.
Proof.
  intros H. cbn [includes] in H. by apply orb_false_elim in H as [_ H].
Qed.

Lemma includes_head (s p : string) :
  includes s p = false -> String.prefix p s = false.
Proof.
  intros H. destruct s; cbn [includes] in H; by apply orb_false_elim in H as [H _].
Qed.

Lemma span_rest_includes (class : ascii -> bool) (s p : string) :
  includes s p = false -> includes (span class s).2 p = false.
Proof.
  induction s as [| c s IH]; intros H; [done |].
  cbn [span]. destruct (class c); [| done].
  specialize (IH (includes_tail _ _ _ H)).
  by destruct (span class s).
Qed.

Lemma matchAt_without_brace (s : string) :
  includes s "={" = false -> matchAt s = None.
Proof.
  intros H. unfold matchAt.
  pose proof (includes_head _ _ (span_rest_includes isKeyChar s _ H)) as Hrest.
  destruct (span isKeyChar s) as [key r1]. simpl in Hrest.
  destruct r1 as [| c1 r1]; [done |].
  destruct r1 as [| c2 r2].
  { by repeat case_match. }
  destruct c1 as [[] [] [] [] [] [] [] []]; try reflexivity.
  destruct c2 as [[] [] [] [] [] [] [] []]; try reflexivity.
  exfalso. revert Hrest. clear. destruct r2; vm_compute; discriminate.
Qed.

(** The regular expression of [prune] finds no attribute in a text that
    nowhere has an equals sign followed by an opening brace. *)
Lemma keysOf_without_brace (s : string) :
  includes s "={" = false -> keysOf s = [].
Proof.
  intros H. unfold keysOf, matchAll.
  enough (forall skip, matchAll_from skip s = []) as -> by done.
  induction s as [| c s IH]; intros skip; [done |].
  cbn [matchAll_from]. destruct skip as [| k].
  - rewrite (matchAt_without_brace _ H). apply IH. by eapply includes_tail.
  - apply IH. by eapply includes_tail.
Qed.

(** What [prune] does with a group that has attributes and one child not
    marked removed, when neither the markup of the group nor the
    attributes of the child contain an equals sign followed by a brace
    (the attributes are written [key="value"]): the rotation rules are
    passed over, the single-child rule fires whatever the attributes of
    the two objects are, and the child is compiled again on the heap as
    it is; nothing is copied to it. *)
Lemma prune_single_child_without_keys (isVar : string -> bool) (options : Options)
    (clips : list string) (geometries : gmap string DuplicateRecord)
    (id : nat) (first : Tree)
    (printFirst printGrandchildren : Heap -> Result (string * Heap))
    (children_ result oldResult : string) (h : Heap) :
  __removed (get h id) = false -> keepgroups options = false ->
  animated clips = false ->
  String.eqb (getType (get h id)) "group" || String.eqb (getType (get h id)) "scene"
  = true ->
  result <> oldResult ->
  writable options (get h (root first)) ->
  __removed (get h (root first)) = false ->
  includes result "={" = false ->
  includes (propsText isVar options geometries (get h (root first))) "={" = false ->
  prune isVar options clips geometries id [first] printFirst printGrandchildren
    children_ result oldResult h
  = '(s, h2) ← printFirst h; Ok (Some s, update id (set_removed true) h2).
Proof.
  intros Hrem Hkeep Hanim Hty Hne Hwritable Hfirst Hresult Hprops.
  unfold prune. rewrite (handleProps_Ok _ _ _ _ Hwritable).
  rewrite Hrem, Hkeep, Hanim, Hty. cbn [negb andb].
  apply String.eqb_neq in Hne. rewrite Hne.
  cbn [mbind Result_bind].
  rewrite (keysOf_without_brace _ Hresult), (keysOf_without_brace _ Hprops), Hfirst.
  cbn. rewrite !andb_false_r. cbn. done.
Qed.

(** C1 (the code at a cancelling pair of groups).  Under the default
    options the scene of [Examples.cancelling] compiles to the two lights
    still wrapped in the inner group and its rotation: the attributes are
    written as [:rotation="..."], the keys [prune] reads back from them
    are none, and the rotation rule does not fire. *)
Theorem cancelling_pair_keeps_wrapper (isVar : string -> bool)
    (world : list Transform -> Transform) :
  keysOf ("<TresGroup " +:+ attr ":rotation" "[-Math.PI / 2, 0, 0]") = []
  /\ sceneMarkup isVar world defaultOptions Examples.cancelling
     = Ok ("<TresGroup " +:+ attr ":rotation" "[Math.PI / 2, 0, 0]" +:+ ">" +:+ nl
           +:+ Examples.lightMarkup +:+ Examples.lightMarkup +:+ "</TresGroup>").
Proof. split; vm_compute; reflexivity. Qed.

(** C2 (the code at a moved group around one light).  [print] of the
    group P of [Examples.moved], whose position is (10, 0, 0), applies the
    single-child rule: P is marked removed and the markup of the light
    replaces it, but no key is read back from the attributes of P, so the
    position of the light is still (0, 0, 0) and its markup carries no
    position. *)
Theorem pass_through_copies_nothing (isVar : string -> bool)
    (world : list Transform -> Transform) :
  let h := (load (scene Examples.moved)).2 in
  let p := Node 1 [Node 2 []] in
  subtree 1 (load (scene Examples.moved)).1 = Some p
  /\ position (get h 1) = vec3 10 0 0
  /\ print isVar defaultOptions [] ∅ p h
     = Ok (Examples.lightMarkup, update 1 (set_removed true) h)
  /\ position (get (update 1 (set_removed true) h) 2) = zero3
  /\ sceneMarkup isVar world defaultOptions Examples.moved = Ok Examples.lightMarkup.
Proof. repeat split; vm_compute; reflexivity. Qed.

(** ** Bones *)

(** C10, counterexample.  Under the default options the mesh M, which the
    loaded scene holds below the bone B, is moved to the scene root by the
    flattening pass and contributes an element of its own next to the
    primitive reference of the bone. *)
Lemma bone_descendant_emitted :
  sceneMarkup isVarName localWorld defaultOptions Examples.boneWithMesh
  = Ok ("<TresPrimitive " +:+ attr ":object" "nodes.B" +:+ "/>"
        +:+ "<TresMesh " +:+ attr ":geometry" "nodes.M.geometry"
        +:+ attr ":material" "materials.Red" +:+ "/>" +:+ nl)
  /\ pathTo 2 (load (scene Examples.boneWithMesh)).1 = Some [0; 1; 2]
  /\ isBone (get (load (scene Examples.boneWithMesh)).2 1) = true
  /\ isMesh (get (load (scene Examples.boneWithMesh)).2 2) = true.
Proof. repeat split; vm_compute; reflexivity. Qed.

(** ** The result of a compilation *)

(** C8, counterexample.  With a precision of 101 digits [toFixed] raises
    a RangeError inside the recursion; the call then ends with the
    TypeError of [scene.includes] on the undefined [scene] and returns
    nothing, in particular no value that names a node. *)
Lemma traversal_failure_escapes :
  sceneMarkup isVarName localWorld Examples.precision101 Examples.moved
  = Throw (RangeError "toFixed() digits argument must be between 0 and 100")
  /\ parseModel Examples.moved Examples.precision101
     = Throw (TypeError "Cannot read properties of undefined (reading 'includes')").
Proof. split; vm_compute; reflexivity. Qed.

(** C8, amended.  When the compile recursion raises an error, the call
    returns no output at all. *)
Theorem traversal_failure_no_output (isVar : string -> bool)
    (world : list Transform -> Transform) (gltf : GLTF) (fileName : string)
    (options : Options) (e : JsError) :
  sceneMarkup isVar world options gltf = Throw e ->
  forall out, parse isVar world gltf fileName options <> Ok out.
Proof.
  intros Hfail out. unfold parse. by rewrite Hfail.
Qed.

Lemma traversal_failure_no_output_witness :
  sceneMarkup isVarName localWorld Examples.precision101 Examples.moved
  = Throw (RangeError "toFixed() digits argument must be between 0 and 100")
  /\ forall out, parseModel Examples.moved Examples.precision101 <> Ok out.
Proof.
  split; [vm_compute; reflexivity |].
  exact (traversal_failure_no_output isVarName localWorld Examples.moved "model"
           Examples.precision101
           (RangeError "toFixed() digits argument must be between 0 and 100")
           eq_refl).
Defined.


(** ** Instancing *)

Section Instancing.

Variable isVar : string -> bool.

Lemma ownKeysOnly_indexGeometry geometries o :
  ownKeysOnly geometries -> ownKeysOnly (indexGeometry isVar geometries o).
Proof.
  intros Hown. unfold indexGeometry.
  destruct (isMesh o); [| done].
  destruct (geometry o) as [g |]; [| done].
  destruct (geometries !! signature g (material o)) as [r |] eqn:Hkey.
  - intros k Hk. destruct (decide (signature g (material o) = k)) as [<- | Hne].
    + by rewrite (Hown _ Hk) in Hkey.
    + rewrite lookup_insert_ne by done. by apply Hown.
  - destruct (inherited (signature g (material o))) eqn:Hinh; [done |].
    intros k Hk. destruct (decide (signature g (material o) = k)) as [<- | Hne].
    + congruence.
    + rewrite lookup_insert_ne by done. by apply Hown.
Qed.

Lemma ownKeysOnly_foldl objects geometries :
  ownKeysOnly geometries -> ownKeysOnly (foldl (indexGeometry isVar) geometries objects).
Proof.
  revert geometries. induction objects as [| o objects IH]; intros geometries Hown; [done |].
  simpl. apply IH. by apply ownKeysOnly_indexGeometry.
Qed.

Lemma ownKeysOnly_empty : ownKeysOnly ∅.
Proof. intros k _. apply lookup_empty. Qed.

Lemma positiveCounts_indexGeometry geometries o :
  positiveCounts geometries -> positiveCounts (indexGeometry isVar geometries o).
Proof.
  intros Hpos. unfold indexGeometry.
  destruct (isMesh o); [| done].
  destruct (geometry o) as [g |]; [| done].
  destruct (geometries !! signature g (material o)) as [r |] eqn:Hkey.
  - intros k r' Hk; rewrite lookup_insert in Hk; case_decide; simplify_eq; simpl;
      eauto with lia.
  - destruct (inherited (signature g (material o))); [done |].
    intros k r' Hk; rewrite lookup_insert in Hk; case_decide; simplify_eq; simpl;
      eauto with lia.
Qed.

Lemma countOf_indexGeometry geometries o key :
  inherited key = false ->
  countOf (indexGeometry isVar geometries o) key
  = countOf geometries key + (if bool_decide (codeKey o = Some key) then 1 else 0).
Proof.
  intros Hown. unfold indexGeometry, codeKey, countOf.
  destruct (isMesh o); [| rewrite bool_decide_eq_false_2 by done; lia].
  destruct (geometry o) as [g |]; [| rewrite bool_decide_eq_false_2 by done; lia].
  destruct (decide (signature g (material o) = key)) as [<- | Hne].
  - rewrite bool_decide_eq_true_2 by done. rewrite Hown.
    destruct (geometries !! signature g (material o)) as [r |] eqn:Hkey;
      rewrite lookup_insert_eq; simpl; lia.
  - rewrite bool_decide_eq_false_2 by congruence.
    destruct (geometries !! signature g (material o)) as [r |] eqn:Hkey.
    + rewrite lookup_insert_ne by done. lia.
    + destruct (inherited (signature g (material o))); [lia |].
      rewrite lookup_insert_ne by done. lia.
Qed.

Lemma foldl_indexGeometry objects geometries :
  positiveCounts geometries ->
  positiveCounts (foldl (indexGeometry isVar) geometries objects)
  /\ forall key,
       inherited key = false ->
       countOf (foldl (indexGeometry isVar) geometries objects) key
       = countOf geometries key + indexed key objects.
Proof.
  unfold indexed.
  revert geometries. induction objects as [| o objects IH]; intros geometries Hpos.
  - split; [done |]. intros key _. simpl. lia.
  - simpl foldl.
    destruct (IH _ (positiveCounts_indexGeometry _ o Hpos)) as [Hpos' Hcount].
    split; [done |]. intros key Hown.
    rewrite Hcount, countOf_indexGeometry, filter_cons by done.
    destruct (bool_decide (codeKey o = Some key)); simpl; lia.
Qed.

(** The entry of a key counts the meshes indexed under it; the name of
    an inherited property has no entry. *)
Lemma indexGeometries_lookup objects key :
  match indexGeometries isVar objects !! key with
  | Some r => inherited key = false /\ dup_count r = indexed key objects
              /\ 1 <= indexed key objects
  | None => inherited key = true \/ indexed key objects = 0
  end.
Proof.
  unfold indexGeometries.
  destruct (inherited key) eqn:Hinh.
  { rewrite (ownKeysOnly_foldl objects ∅ ownKeysOnly_empty key Hinh). by left. }
  destruct (foldl_indexGeometry objects ∅) as [Hpos Hcount].
  { intros k r Hk. by rewrite lookup_empty in Hk. }
  specialize (Hcount key Hinh). unfold countOf in Hcount. rewrite lookup_empty in Hcount.
  simpl in Hcount.
  destruct (foldl (indexGeometry isVar) ∅ objects !! key) as [r |] eqn:Hkey; simpl in Hcount.
  - apply Hpos in Hkey. split; [done |]. lia.
  - right. lia.
Qed.

Lemma filter_length_agree (f g : Object3D -> bool) (objects : Heap) :
  (forall o, o ∈ objects -> f o = g o) ->
  length (filter (fun o => f o) objects) = length (filter (fun o => g o) objects).
Proof.
  induction objects as [| o objects IH]; intros Hagree; [done |].
  assert (length (filter (fun o => f o) objects)
          = length (filter (fun o => g o) objects)) as IH'.
  { apply IH. intros o' Ho'. apply Hagree. by apply list_elem_of_further. }
  rewrite !filter_cons. rewrite (Hagree o) by apply list_elem_of_here.
  destruct (decide (g o)); simpl; by rewrite IH'.
Qed.

(** Where no mesh without material bears on the key, the meshes indexed
    under it are those of that signature. *)
Lemma indexed_occurrences objects key :
  noBareCollision key objects -> indexed key objects = occurrences key objects.
Proof.
  intros Hbare. unfold indexed, occurrences.
  apply (filter_length_agree (fun o => bool_decide (codeKey o = Some key))
           (fun o => bool_decide (specSignature o = Some key))).
  intros o Ho. unfold codeKey, specSignature, signature.
  destruct (isMesh o) eqn:Hmesh; [| done].
  destruct (geometry o) as [g |] eqn:Hgeo; [| done].
  destruct (material o) as [m |] eqn:Hmat; [done |].
  destruct (Hbare o g Ho Hmesh Hgeo Hmat) as [H1 H2].
  rewrite append_empty_r.
  rewrite !bool_decide_eq_false_2; [done | |]; intros [= ?]; done.
Qed.

End Instancing.


(** The two meshes of [twoInherited] are indexed under the key
    "constructor", for which the table of the code never gets an entry:
    both are emitted as plain [TresMesh] elements. *)
Example inherited_key_not_instanced :
  indexed "constructor" (load (scene twoInherited)).2 = 2
  /\ duplicateGeometries isVarName Examples.sparse (load (scene twoInherited)).2
       !! "constructor" = None
  /\ sceneMarkup isVarName localWorld Examples.sparse twoInherited
     = Ok ("<TresMesh " +:+ attr ":geometry" "nodes.A.geometry"
           +:+ attr ":material" "materials.constructor" +:+ "/>" +:+ nl
           +:+ "<TresMesh " +:+ attr ":geometry" "nodes.B.geometry"
           +:+ attr ":material" "materials.constructor" +:+ "/>" +:+ nl).
Proof. repeat split; vm_compute; reflexivity. Qed.



(** * Further properties of the code *)

(** ** Strings *)

Lemma append_length (a b : string) :
  String.length (a +:+ b) = String.length a + String.length b.
Proof.
  induction a as [| ch a IH]; [done |]. rewrite append_cons. simpl. by rewrite IH.
Qed.

Lemma append_inj_r (a b c : string) : a +:+ c = b +:+ c -> a = b.
Proof.
  revert b. induction a as [| ch a IH]; intros [| ch' b] Heq.
  - done.
  - apply (f_equal String.length) in Heq. rewrite !append_length in Heq.
    simpl in Heq. lia.
  - apply (f_equal String.length) in Heq. rewrite !append_length in Heq.
    simpl in Heq. lia.
  - rewrite !append_cons in Heq. injection Heq as -> Heq. f_equal. by apply IH.
Qed.

Lemma prefix_append (p s : string) : String.prefix p (p +:+ s) = true.
Proof.
  induction p as [| c p IH]; [by destruct s |].
  rewrite append_cons. cbn [String.prefix]. by destruct (ascii_dec c c).
Qed.

Lemma substring_all (s : string) : String.substring 0 (String.length s) s = s.
Proof. induction s as [| c s IH]; [done |]. simpl. by rewrite IH. Qed.

Lemma substring_append (a p : string) :
  String.substring (String.length a) (String.length p) (a +:+ p) = p.
Proof.
  induction a as [| c a IH]; [apply substring_all |].
  rewrite append_cons. simpl. exact IH.
Qed.

Lemma endsWith_append (a p : string) : endsWith (a +:+ p) p = true.
Proof.
  unfold endsWith. rewrite append_length.
  replace (String.length a + String.length p - String.length p) with (String.length a)
    by lia.
  rewrite substring_append, String.eqb_refl, andb_true_r.
  apply Nat.leb_le. lia.
Qed.

Lemma substring_split (n : nat) (s : string) :
  n <= String.length s ->
  s = String.substring 0 n s +:+ String.substring n (String.length s - n) s.
Proof.
  revert s. induction n as [| n IH]; intros s Hn.
  - rewrite Nat.sub_0_r, substring_all. by destruct s.
  - destruct s as [| c s]; [simpl in Hn; lia |]. simpl in Hn.
    cbn [String.substring String.length Nat.sub]. rewrite append_cons.
    f_equal. apply IH. lia.
Qed.

Lemma endsWith_skip (a s p : string) :
  endsWith s p = true -> endsWith (a +:+ s) p = true.
Proof.
  unfold endsWith at 1. intros [Hle Heq]%andb_prop.
  apply Nat.leb_le in Hle. apply String.eqb_eq in Heq.
  pose proof (substring_split (String.length s - String.length p) s ltac:(lia)) as Hs.
  replace (String.length s - (String.length s - String.length p))
    with (String.length p) in Hs by lia.
  rewrite Heq in Hs. rewrite Hs, <- append_assoc. apply endsWith_append.
Qed.

Lemma includes_skip (a s p : string) :
  includes s p = true -> includes (a +:+ s) p = true.
Proof.
  intros Hs. induction a as [| c a IH]; [done |].
  rewrite append_cons. cbn [includes]. by rewrite IH, orb_true_r.
Qed.

Lemma includes_prefix (s p : string) : String.prefix p s = true -> includes s p = true.
Proof. intros Hp. destruct s; cbn [includes]; by rewrite Hp. Qed.

Lemma prefix_cancel (x p s : string) :
  String.prefix (x +:+ p) (x +:+ s) = String.prefix p s.
Proof.
  induction x as [| c x IH]; [done |].
  rewrite !append_cons. cbn [String.prefix]. by destruct (ascii_dec c c).
Qed.

(** ** Names *)

(** X1.  [sanitizeName] is injective: two different node or material
    names are never written as the same property access, whatever the
    identifier test answers for them. *)
Theorem sanitizeName_inj (isVar : string -> bool) (n1 n2 : string) :
  sanitizeName isVar n1 = sanitizeName isVar n2 -> n1 = n2.
Proof.
  unfold sanitizeName. destruct (isVar n1), (isVar n2); intros Heq.
  - by apply append_inj_l in Heq.
  - rewrite !append_cons in Heq. discriminate.
  - rewrite !append_cons in Heq. discriminate.
  - apply append_inj_l in Heq.
    by apply append_inj_r in Heq.
Qed.

Lemma sanitizeName_inj_witness :
  sanitizeName isVarName "my part" = "['my part']"
  /\ sanitizeName isVarName "part" = ".part"
  /\ "my part" = "my part".
Proof.
  split; [reflexivity |]. split; [reflexivity |].
  exact (sanitizeName_inj isVarName "my part" "my part" eq_refl).
Defined.

(** X2.  [uniqueName] returns a name no entry of the table carries: the
    first free one of attempt, attempt1, attempt2, ..., reached after at
    most as many steps as the table has entries, and the attempt itself
    when it is free. *)
Theorem uniqueName_first_free (geometries : gmap string DuplicateRecord)
    (attempt : string) :
  (uniqueName geometries attempt ∉ names geometries)
  /\ (exists j,
        j <= size geometries
        /\ uniqueName geometries attempt = newAttempt attempt j
        /\ forall i, i < j -> newAttempt attempt i ∈ names geometries)
  /\ (attempt ∉ names geometries -> uniqueName geometries attempt = attempt).
Proof.
  pose proof (uniqueName_from_is_Some geometries attempt) as [s Hs].
  assert (uniqueName geometries attempt = s) as Hu.
  { unfold uniqueName. by rewrite Hs. }
  rewrite Hu.
  destruct (uniqueName_from_Some _ _ _ _ _ Hs) as (Hfresh & j & _ & -> & Hbelow).
  assert (forall i, i < j -> newAttempt attempt i ∈ names geometries) as Hb.
  { intros i Hi. apply Hbelow. lia. }
  split; [done |]. split.
  - exists j. split; [| done].
    destruct (decide (j <= size geometries)) as [| Hgt]; [done |]. exfalso.
    assert (newAttempt attempt <$> seq 0 (S (size geometries)) ⊆+ names geometries) as Hsub.
    { apply NoDup_submseteq.
      - apply NoDup_fmap_2; [apply _ | apply NoDup_seq].
      - intros s (i & -> & Hi)%list_elem_of_fmap. apply elem_of_seq in Hi.
        apply Hb. lia. }
    apply submseteq_length in Hsub.
    rewrite length_fmap, length_seq, length_names in Hsub. lia.
  - intros Hfree. destruct j as [| j]; [done |].
    exfalso. apply Hfree. apply (Hb 0). lia.
Qed.

(** ** Rounding *)

Local Open Scope Q_scope.

(** X3.  [rNbr] is off from its argument by at most half a unit of the
    last digit kept, plus the rounding of the result to a double: at
    most 2^-53 of the size of the decimal, or 2^-1075 where the result is
    subnormal.  Stated in units of half the last digit. *)
Theorem rNbr_error (p x : Q) :
  (0 <= digits p)%Z ->
  (Qabs (rNbr p x - x) * inject_Z (2 * pow10 (digits p))
   <= 1 + pow2 (-53) * (Qabs x * inject_Z (2 * pow10 (digits p)) + 1)
      + pow2 (-1075) * inject_Z (2 * pow10 (digits p)))%Q.
Proof.
  intros Hd. unfold rNbr, roundTo. set (d := digits p) in *.
  pose proof (pow10_Q d Hd) as HP.
  pose proof (decimal_scaled (toFixed d x) (pow10 d) (pow10_pos d Hd)) as HD.
  pose proof (toFixed_bounds d x) as Hb.
  pose proof (fl_rel_error (toFixed d x # Z.to_pos (pow10 d))) as Hfl.
  rewrite inject_Z_mult. change (inject_Z 2) with 2.
  set (P := inject_Z (pow10 d)) in *.
  set (D := toFixed d x # Z.to_pos (pow10 d)) in *.
  set (n := inject_Z (toFixed d x)) in *.
  pose proof (pow2_pos (-1075)) as Hp.
  change (pow2 (-53)) with (1 # 9007199254740992) in *.
  set (e := pow2 (-1075)) in *.
  assert (Qabs (D - x) * P <= 1 # 2) as HDx.
  { rewrite <- (Qabs_pos P) at 1 by lra. rewrite <- Qabs_Qmult.
    assert ((D - x) * P == n - x * P) as -> by (rewrite <- HD; ring). done. }
  pose proof (Qabs_triangle (fl D - D) (D - x)) as Ht1.
  assert (fl D - D + (D - x) == fl D - x) as Heq by ring. rewrite Heq in Ht1.
  pose proof (Qabs_triangle (D - x) x) as Ht2.
  assert (D - x + x == D) as Heq2 by ring. rewrite Heq2 in Ht2.
  pose proof (Qabs_nonneg (fl D - D)). pose proof (Qabs_nonneg (D - x)).
  pose proof (Qabs_nonneg x). pose proof (Qabs_nonneg D). pose proof (Qabs_nonneg (fl D - x)).
  set (a1 := Qabs (fl D - D)) in *. set (a2 := Qabs (D - x)) in *.
  set (a3 := Qabs x) in *. set (a4 := Qabs D) in *. set (a5 := Qabs (fl D - x)) in *.
  nra.
Qed.

Lemma rNbr_error_witness :
  (Qabs (rNbr 0 (fl (125 # 1000)) - fl (125 # 1000)) * inject_Z (2 * pow10 (digits 0))
   <= 1 + pow2 (-53) * (Qabs (fl (125 # 1000)) * inject_Z (2 * pow10 (digits 0)) + 1)
      + pow2 (-1075) * inject_Z (2 * pow10 (digits 0)))%Q.
Proof. apply (rNbr_error 0 (fl (125 # 1000))). vm_compute. discriminate. Defined.

(** X4.  [rNbr] is idempotent on the numbers of the program: a rounded
    double is rounded to itself. *)
Theorem rNbr_idempotent (p : Q) (x : Q) :
  isDouble x = true -> rNbr p (rNbr p x) = rNbr p x.
Proof. apply roundTo_idempotent. Qed.

Lemma rNbr_idempotent_witness :
  isDouble (fl (125 # 1000)) = true
  /\ rNbr 0 (rNbr 0 (fl (125 # 1000))) = rNbr 0 (fl (125 # 1000)).
Proof.
  split; [vm_compute; reflexivity |].
  apply (rNbr_idempotent 0 (fl (125 # 1000))). vm_compute. reflexivity.
Defined.

(** X5.  [rNbr] is odd: [toFixed] rounds halves away from zero and the
    nearest double of the opposite decimal is the opposite double. *)
Theorem rNbr_opp (p : Q) (x : Q) : rNbr p (- x) = (- rNbr p x)%Q.
Proof. apply roundTo_opp. Qed.

(** A decimal of at most a hundred digits after the point that is not
    zero is not rounded to the double zero. *)
Lemma pow10_below_pow2 (d : Z) :
  (0 <= d <= 100)%Z -> pow2 (-1022) * inject_Z (pow10 d) <= 1.
Proof.
  intros Hd.
  assert (inject_Z (pow10 d) <= inject_Z (2 ^ 1022)) as Hle.
  { rewrite <- Zle_Qle. unfold pow10.
    transitivity (10 ^ 100)%Z; [apply Z.pow_le_mono_r; lia | by vm_compute]. }
  pose proof (pow10_Q d (proj1 Hd)) as Hpos.
  pose proof (pow2_plus (-1022) 1022) as Hone.
  change (pow2 (-1022 + 1022)) with 1 in Hone.
  rewrite (pow2_Z 1022) in Hone by done.
  pose proof (pow2_pos (-1022)) as Ha.
  revert Hle Hpos Hone Ha.
  generalize (pow2 (-1022)) (inject_Z (pow10 d)) (inject_Z (2 ^ 1022)).
  intros a T P Hle Hpos Hone Ha. nra.
Qed.

Lemma roundTo_zero_nonneg (d : Z) (x : Q) :
  (0 <= d <= 100)%Z -> 0 <= x ->
  (roundTo d x == 0 <-> 2 * x * inject_Z (pow10 d) < 1).
Proof.
  intros Hd Hx. unfold roundTo. rewrite (toFixed_nonneg d x Hx).
  pose proof (pow10_Q d (proj1 Hd)) as HT.
  pose proof (pow10_pos d (proj1 Hd)) as HTz.
  pose proof (Qfloor_bounds (x * inject_Z (pow10 d) + (1 # 2))) as Hfloor.
  pose proof (decimal_scaled (Qfloor (x * inject_Z (pow10 d) + (1 # 2))) (pow10 d) HTz)
    as Hdec.
  pose proof (pow10_below_pow2 d Hd) as Hsmall.
  pose proof (pow2_pos (-1022)) as Ha.
  set (n := Qfloor (x * inject_Z (pow10 d) + (1 # 2))) in *.
  split.
  - intros Hzero.
    destruct (Z_lt_le_dec n 1) as [Hn | Hn].
    + assert (inject_Z n <= 0) as Hn0
        by (change 0 with (inject_Z 0); rewrite <- Zle_Qle; lia).
      nra.
    + exfalso.
      assert (1 <= inject_Z n) as Hn1
        by (change 1 with (inject_Z 1); rewrite <- Zle_Qle; lia).
      assert (pow2 (-1022) <= n # Z.to_pos (pow10 d)) as Hq.
      { revert Hdec Hsmall HT Ha Hn1.
        generalize (n # Z.to_pos (pow10 d)) (pow2 (-1022)) (inject_Z (pow10 d))
                   (inject_Z n).
        intros q a T N Hdec Hsmall HT Ha Hn1. nra. }
      pose proof (fl_ge_pow2 _ (-1022) ltac:(lia) Hq) as Hfl. lra.
  - intros Hlt.
    assert (n = 0%Z) as ->.
    { apply Qfloor_unique. change (inject_Z 0) with 0. nra. }
    by rewrite (fl_zero (0 # Z.to_pos (pow10 d))).
Qed.

Lemma roundTo_zero (d : Z) (x : Q) :
  (0 <= d <= 100)%Z ->
  (roundTo d x == 0 <-> 2 * Qabs x * inject_Z (pow10 d) < 1).
Proof.
  intros Hd. destruct (Qlt_le_dec x 0) as [Hneg | Hpos].
  - assert (x = - - x) as Hx by (by rewrite Qopp_involutive_eq).
    rewrite Hx at 1. rewrite roundTo_opp, <- (Qabs_opp_eq x).
    rewrite (Qabs_nonneg_eq (- x)) by lra.
    rewrite <- (roundTo_zero_nonneg d (- x) Hd) by lra.
    split; intros H; lra.
  - rewrite (Qabs_nonneg_eq x Hpos). by apply roundTo_zero_nonneg.
Qed.

(** X6.  The test [rNbr(v.length())] that guards the position and the
    rotation attribute is zero, so that the attribute is left out,
    exactly when the length [Math.sqrt] returns is below half a unit of
    the last digit kept (for a number of digits [toFixed] accepts). *)
Theorem length_elision_threshold (options : Options) (v : Vec3) :
  toFixedAccepts (digits (precision options)) = true ->
  JsNumber.eqb (rNbrLength options v) 0 = true
  <-> 2 * Qabs (Vector3_length v) * inject_Z (pow10 (digits (precision options))) < 1.
Proof.
  intros [Hlo Hhi]%andb_true_iff. rewrite eqb_true.
  apply roundTo_zero. lia.
Qed.

Lemma length_elision_threshold_witness :
  JsNumber.eqb (rNbrLength defaultOptions (vec3 3 4 0)) 0 = true
  <-> 2 * Qabs (Vector3_length (vec3 3 4 0))
        * inject_Z (pow10 (digits (precision defaultOptions))) < 1.
Proof. apply (length_elision_threshold defaultOptions (vec3 3 4 0)). reflexivity. Defined.

Lemma equal_or_opposite (a b : Q) :
  JsNumber.eqb a b || JsNumber.eqb a (- b) = true <-> (Qabs a == Qabs b)%Q.
Proof.
  rewrite orb_true_iff, !eqb_true. split.
  - intros [-> | ->]; [done | apply Qabs_opp].
  - revert a b. intros a b.
    apply (Qabs_case a); apply (Qabs_case b); intros Hb Ha Heq; [left | right | right | left]; lra.
Qed.

(** X7.  [equalOrNegated] compares the absolute values of the
    components. *)
Theorem equalOrNegated_abs (a b : Vec3) :
  equalOrNegated a b = true
  <-> (Qabs (vx a) == Qabs (vx b) /\ Qabs (vy a) == Qabs (vy b)
       /\ Qabs (vz a) == Qabs (vz b))%Q.
Proof.
  unfold equalOrNegated. rewrite !andb_true_iff, !equal_or_opposite. tauto.
Qed.

(** X8.  When [rDeg] answers with a text, the text is the sign of the
    number and Math.PI divided or multiplied by some i from 1 to 10, and
    the absolute value of the number is within 0.00001 of that fraction or
    multiple of pi, whatever the configured precision. *)
Theorem rDeg_symbolic_sound (p : Q) (x : Q) (s : string) :
  rDeg p x = JsStr s ->
  exists i : Z,
    (1 <= i <= 10)%Z
    /\ ((s = sign x +:+ "Math.PI" +:+ (if (1 <? i)%Z then " / " +:+ pretty i else "")
         /\ (Qabs (Qabs x - Math_PI / inject_Z i) <= 1 # 100000)%Q)
        \/ (s = sign x +:+ "Math.PI" +:+ (if (1 <? i)%Z then " * " +:+ pretty i else "")
            /\ (Qabs (Qabs x - Math_PI * inject_Z i) <= 1 # 100000)%Q)).
Proof.
  assert (forall (c : Q) (K : Z),
            Z.abs (scaled x) = K -> (K <= 4000000)%Z ->
            Qle_bool (Qabs (inject_Z K - c * 100000) + (1 # 2) + (1 # 2147483648)) 1 = true ->
            Qabs (Qabs x - c) <= 1 # 100000) as Hwithin.
  { intros c K HK Hsmall Hc. apply Qle_bool_iff in Hc.
    pose proof (scaled_abs x K HK Hsmall) as Hx.
    revert Hc Hx. apply Qabs_case; intros ? ?; apply Qabs_case; intros ? ?;
      apply Qabs_case; intros ?; lra. }
  unfold rDeg. cbv zeta.
  destruct (find _ (seqZ 1 10)) as [i |] eqn:Hdiv.
  - intros [= <-]. apply find_seqZ_Some in Hdiv as [Hi Htest].
    apply Z.eqb_eq in Htest. exists i. split; [exact Hi |]. left. split; [reflexivity |].
    apply (Hwithin _ _ Htest); [apply (pi_range i Hi) |].
    apply one_to_ten in Hi.
    repeat (apply elem_of_cons in Hi as [-> | Hi]; [vm_compute; reflexivity |]).
    by apply elem_of_nil in Hi.
  - clear Hdiv. destruct (find _ (seqZ 1 10)) as [i |] eqn:Hmul; [| intros ?; discriminate].
    intros [= <-]. apply find_seqZ_Some in Hmul as [Hi Htest].
    apply Z.eqb_eq in Htest. exists i. split; [exact Hi |]. right. split; [reflexivity |].
    apply (Hwithin _ _ Htest); [apply (pi_range i Hi) |].
    apply one_to_ten in Hi.
    repeat (apply elem_of_cons in Hi as [-> | Hi]; [vm_compute; reflexivity |]).
    by apply elem_of_nil in Hi.
Qed.


Lemma rDeg_symbolic_sound_witness :
  exists i : Z,
    (1 <= i <= 10)%Z
    /\ (("-Math.PI / 2" = sign (fl (- 15708 # 10000)) +:+ "Math.PI"
                           +:+ (if (1 <? i)%Z then " / " +:+ pretty i else "")
         /\ (Qabs (Qabs (fl (- 15708 # 10000)) - Math_PI / inject_Z i) <= 1 # 100000)%Q)
        \/ ("-Math.PI / 2" = sign (fl (- 15708 # 10000)) +:+ "Math.PI"
                              +:+ (if (1 <? i)%Z then " * " +:+ pretty i else "")
            /\ (Qabs (Qabs (fl (- 15708 # 10000)) - Math_PI * inject_Z i) <= 1 # 100000)%Q)).
Proof.
  apply (rDeg_symbolic_sound 0 (fl (- 15708 # 10000)) "-Math.PI / 2").
  vm_compute. reflexivity.
Defined.

Local Close Scope Q_scope.

(** ** The table of duplicates *)

Section Table.

Variable isVar : string -> bool.

(** X9.  The table of duplicates after the deletion of single entries:
    a key has an entry iff it is not the name of a property of
    Object.prototype and the number of meshes with a geometry indexed
    under it reaches the threshold, 1 under [instanceall] and 2
    otherwise; the count of the entry is that number. *)
Theorem duplicateGeometries_counts (options : Options) (objects : Heap) (key : string) :
  let n := indexed key objects in
  let threshold := if instanceall options then 1 else 2 in
  match duplicateGeometries isVar options objects !! key with
  | Some r => inherited key = false /\ dup_count r = n /\ threshold <= n
  | None => inherited key = true \/ n < threshold
  end.
Proof.
  intros n threshold. pose proof (indexGeometries_lookup isVar objects key) as Hlookup.
  fold n in Hlookup. unfold threshold.
  unfold duplicateGeometries, pruneDuplicates.
  destruct (instanceall options).
  - destruct (indexGeometries isVar objects !! key) as [r |]; [done |].
    destruct Hlookup as [? | ?]; [by left | right; lia].
  - destruct (filter _ _ !! key) as [r |] eqn:Hr.
    + apply map_lookup_filter_Some in Hr as [Hr Hcount]. rewrite Hr in Hlookup.
      simpl in Hcount. destruct Hlookup as (? & ? & ?). split; [done |]. lia.
    + destruct (indexGeometries isVar objects !! key) as [r |] eqn:Hr0.
      2:{ destruct Hlookup as [? | ?]; [by left | right; lia]. }
      destruct Hlookup as (Hown & Hn & Hpos).
      destruct (decide (dup_count r = 1)) as [Hone | Hmore]; [right; lia |]. exfalso.
      assert (filter (fun kr : string * DuplicateRecord => dup_count kr.2 ≠ 1)
                (indexGeometries isVar objects) !! key = Some r) as Hin.
      { by apply map_lookup_filter_Some. }
      congruence.
Qed.

(** The entry of [key], once made, keeps its name and node. *)
Lemma indexGeometry_entry geometries o key r :
  indexGeometry isVar geometries o !! key = Some r ->
  match geometries !! key with
  | Some r0 => dup_name r = dup_name r0 /\ dup_node r = dup_node r0
  | None =>
      codeKey o = Some key
      /\ dup_name r = uniqueName geometries (baseName (name o))
      /\ dup_node r = "nodes" +:+ sanitizeName isVar (name o)
  end.
Proof.
  unfold indexGeometry, codeKey.
  destruct (isMesh o); [| by intros ->].
  destruct (geometry o) as [g |]; [| by intros ->].
  destruct (decide (signature g (material o) = key)) as [<- | Hne].
  - destruct (geometries !! signature g (material o)) as [r0 |] eqn:Hkey.
    + rewrite lookup_insert_eq. by intros [= <-].
    + destruct (inherited (signature g (material o))); [congruence |].
      rewrite lookup_insert_eq. by intros [= <-].
  - destruct (geometries !! signature g (material o)) as [r0 |] eqn:Hkey.
    + rewrite lookup_insert_ne by done. by intros ->.
    + destruct (inherited (signature g (material o))); [by intros -> |].
      rewrite lookup_insert_ne by done. by intros ->.
Qed.

Lemma indexGeometry_keeps geometries o key r0 :
  geometries !! key = Some r0 -> is_Some (indexGeometry isVar geometries o !! key).
Proof.
  intros Hr0. unfold indexGeometry.
  destruct (isMesh o); [| by eauto]. destruct (geometry o) as [g |]; [| by eauto].
  destruct (decide (signature g (material o) = key)) as [<- | Hne].
  - rewrite Hr0, lookup_insert_eq. eauto.
  - destruct (geometries !! signature g (material o)).
    + rewrite lookup_insert_ne by done. eauto.
    + destruct (inherited (signature g (material o))); [eauto |].
      rewrite lookup_insert_ne by done. eauto.
Qed.

Lemma foldl_indexGeometry_entry objects geometries key r :
  foldl (indexGeometry isVar) geometries objects !! key = Some r ->
  match geometries !! key with
  | Some r0 => dup_name r = dup_name r0 /\ dup_node r = dup_node r0
  | None =>
      exists before o after,
        objects = before ++ o :: after
        /\ Forall (fun o' => codeKey o' <> Some key) before
        /\ codeKey o = Some key
        /\ dup_name r
           = uniqueName (foldl (indexGeometry isVar) geometries before)
               (baseName (name o))
        /\ dup_node r = "nodes" +:+ sanitizeName isVar (name o)
  end.
Proof.
  revert geometries. induction objects as [| o objects IH]; intros geometries Hr.
  - simpl in Hr. rewrite Hr. done.
  - simpl in Hr. specialize (IH _ Hr).
    destruct (geometries !! key) as [r0 |] eqn:Hr0.
    + destruct (indexGeometry_keeps geometries o key r0 Hr0) as [r1 Hr1].
      rewrite Hr1 in IH. pose proof (indexGeometry_entry _ _ _ _ Hr1) as H1.
      rewrite Hr0 in H1. destruct IH as [-> ->]. done.
    + destruct (indexGeometry isVar geometries o !! key) as [r1 |] eqn:Hr1.
      * pose proof (indexGeometry_entry _ _ _ _ Hr1) as H1. rewrite Hr0 in H1.
        destruct H1 as (Hkey & Hname & Hnode). destruct IH as [-> ->].
        exists [], o, objects. done.
      * destruct IH as (before & o' & after & -> & Hbefore & Hkey & Hname & Hnode).
        exists (o :: before), o', after. split; [done |]. split; [| done].
        constructor; [| done]. intros Hkey0.
        (* the key is not inherited: it has an entry in the end *)
        assert (inherited key = false) as Hown.
        { destruct (inherited key) eqn:Hinh; [| done].
          pose proof (indexGeometries_lookup isVar [] key) as _.
          assert (forall objs g, g !! key = None ->
                    foldl (indexGeometry isVar) g objs !! key = None) as Hnever.
          { clear -Hinh. intros objs. induction objs as [| x objs IHo]; intros g Hg; [done |].
            simpl. apply IHo. unfold indexGeometry.
            destruct (isMesh x); [| done]. destruct (geometry x) as [gx |]; [| done].
            destruct (decide (signature gx (material x) = key)) as [-> | Hne].
            - by rewrite Hg, Hinh.
            - destruct (g !! signature gx (material x)).
              + by rewrite lookup_insert_ne.
              + destruct (inherited (signature gx (material x))); [done |].
                by rewrite lookup_insert_ne. }
          rewrite (Hnever _ _ Hr1) in Hr. discriminate. }
        unfold indexGeometry, codeKey in Hr1, Hkey0.
        destruct (isMesh o); [| done]. destruct (geometry o) as [g |]; [| done].
        injection Hkey0 as <-. rewrite Hr0, Hown, lookup_insert_eq in Hr1. done.
Qed.

(** X10.  An entry of the table is named after the first mesh of its
    key in traversal order: its name is the letters of the mesh name
    (or Part), capitalised, followed by a counter if that name was taken:
    the first of name, name1, name2, ... that no entry made before that
    mesh carries; its node is the reference to that mesh. *)
Theorem duplicate_named_after_first_mesh (options : Options) (objects : Heap)
    (key : string) (r : DuplicateRecord) :
  duplicateGeometries isVar options objects !! key = Some r ->
  exists before o after index,
    objects = before ++ o :: after
    /\ Forall (fun o' => codeKey o' <> Some key) before
    /\ codeKey o = Some key
    /\ dup_name r = newAttempt (baseName (name o)) index
    /\ (forall i, i < index ->
          newAttempt (baseName (name o)) i ∈ names (indexGeometries isVar before))
    /\ (dup_name r ∉ names (indexGeometries isVar before))
    /\ dup_node r = "nodes" +:+ sanitizeName isVar (name o).
Proof.
  intros Hr.
  assert (indexGeometries isVar objects !! key = Some r) as Hr0.
  { revert Hr. unfold duplicateGeometries, pruneDuplicates.
    destruct (instanceall options); [done |].
    by intros [? _]%map_lookup_filter_Some. }
  apply foldl_indexGeometry_entry in Hr0. rewrite lookup_empty in Hr0.
  destruct Hr0 as (before & o & after & -> & Hbefore & Hkey & Hname & Hnode).
  destruct (uniqueName_first (foldl (indexGeometry isVar) ∅ before) (baseName (name o)))
    as (index & Hindex & Hbelow).
  exists before, o, after, index.
  split; [done |]. split; [done |]. split; [done |].
  split; [by rewrite <- Hindex |]. split; [exact Hbelow |]. split; [| done].
  rewrite Hname. apply uniqueName_fresh.
Qed.

End Table.

Lemma duplicate_named_after_first_mesh_witness :
  exists before o after index,
    twoParts = before ++ o :: after
    /\ Forall (fun o' => codeKey o' <> Some "g2Red") before
    /\ codeKey o = Some "g2Red"
    /\ "Part1" = newAttempt (baseName (name o)) index
    /\ (forall i, i < index ->
          newAttempt (baseName (name o)) i ∈ names (indexGeometries isVarName before))
    /\ ("Part1" ∉ names (indexGeometries isVarName before))
    /\ "nodes.part" = "nodes" +:+ sanitizeName isVarName (name o).
Proof.
  apply (duplicate_named_after_first_mesh isVarName
           {| precision := 0; instance := true; instanceall := true;
              keepgroups := false; keepnames := false; bones := false;
              shadows := false; meta := false; header := ""; fileSize := "" |}
           twoParts "g2Red"
           {| dup_count := 1; dup_name := "Part1"; dup_node := "nodes.part" |}).
  vm_compute. reflexivity.
Defined.

(** ** The attribute text and the keys read back from it *)

Lemma span_run (class : ascii -> bool) (a : string) (c : ascii) (b : string) :
  every class a = true -> class c = false ->
  span class (a +:+ String c b) = (a, String c b).
Proof.
  intros Ha Hc. induction a as [| ch a IH].
  - change ("" +:+ String c b) with (String c b). cbn [span]. by rewrite Hc.
  - cbn [every] in Ha. apply andb_prop in Ha as [Hch Ha].
    rewrite append_cons. cbn [span]. by rewrite Hch, (IH Ha).
Qed.

Lemma matchAll_from_past (skip : nat) (s : string) :
  String.length s <= skip -> matchAll_from skip s = [].
Proof.
  revert skip. induction s as [| c s IH]; intros skip Hlen; [done |].
  simpl in Hlen. destruct skip as [| k]; [lia |]. cbn [matchAll_from]. apply IH. lia.
Qed.

Lemma matchAt_attribute (key value rest : string) :
  every isKeyChar key = true -> every isValueChar value = true ->
  matchAt (key +:+ "={" +:+ value +:+ String "}" rest)
  = Some (key, value, String.length key + String.length value + 3).
Proof.
  intros Hkey Hvalue. unfold matchAt.
  change ("={" +:+ value +:+ String "}" rest)
    with (String "=" (String "{" (value +:+ String "}" rest))).
  rewrite (span_run isKeyChar key "=" _ Hkey eq_refl).
  by rewrite (span_run isValueChar value "}" rest Hvalue eq_refl).
Qed.

(** X11.  The regular expression of [prune] reads an attribute written
    with braces back: on the text key={value}, with the key and the
    value in the character classes of the expression, the one match has
    the groups key and value. *)
Theorem matchAll_reads_braced_attribute (key value : string) :
  every isKeyChar key = true -> every isValueChar value = true ->
  matchAll (key +:+ "={" +:+ value +:+ "}") = [(key, value)].
Proof.
  intros Hkey Hvalue. unfold matchAll.
  pose proof (matchAt_attribute key value "" Hkey Hvalue) as Hat.
  assert (String.length (key +:+ "={" +:+ value +:+ "}")
          = String.length key + String.length value + 3) as Hlen.
  { rewrite append_length.
    change ("={" +:+ value +:+ "}") with (String "=" (String "{" (value +:+ "}"))).
    cbn [String.length]. rewrite append_length. simpl. lia. }
  destruct (key +:+ "={" +:+ value +:+ "}") as [| c r] eqn:Hs; [simpl in Hlen; lia |].
  cbn [matchAll_from]. rewrite Hat. f_equal.
  apply matchAll_from_past. simpl in Hlen. lia.
Qed.

Lemma matchAll_reads_braced_attribute_witness :
  matchAll ("rotation" +:+ "={" +:+ "[-Math.PI / 2, 0, 0]" +:+ "}")
  = [("rotation", "[-Math.PI / 2, 0, 0]")].
Proof.
  apply (matchAll_reads_braced_attribute "rotation" "[-Math.PI / 2, 0, 0]");
    reflexivity.
Defined.

Lemma noBrace_app (a b : string) : noBrace (a +:+ b) = noBrace a && noBrace b.
Proof.
  unfold noBrace. induction a as [| ch a IH]; [done |].
  rewrite append_cons. cbn [every]. by rewrite IH, andb_assoc.
Qed.

Lemma noKey_includes (s : string) : noKey s = true -> includes s "={" = false.
Proof. unfold noKey. by intros [?%negb_true_iff _]%andb_prop. Qed.

Lemma noKey_app (a b : string) :
  noBrace a = true -> noKey b = true -> noKey (a +:+ b) = true.
Proof.
  intros Ha Hb. induction a as [| c a IH]; [done |].
  unfold noBrace in Ha. cbn [every] in Ha. apply andb_prop in Ha as [Hc Ha].
  specialize (IH Ha). unfold noKey in IH. apply andb_prop in IH as [H1 H2].
  apply negb_true_iff in H1, H2.
  rewrite append_cons. unfold noKey. cbn [includes]. rewrite H1, orb_false_r.
  cbn [String.prefix].
  destruct (ascii_dec "=" c) as [<- | _].
  - rewrite H2. by destruct (a +:+ b).
  - destruct (ascii_dec "{" c) as [<- | _]; [done |]. by destruct (a +:+ b).
Qed.

Lemma includes_before_quote (a : string) :
  includes a "={" = false -> includes (a +:+ "' ") "={" = false.
Proof.
  induction a as [| c a IH]; [done |].
  intros Ha. pose proof (includes_head _ _ Ha) as Hhead.
  specialize (IH (includes_tail _ _ _ Ha)).
  rewrite append_cons. cbn [includes]. rewrite IH, orb_false_r.
  revert Hhead. cbn [String.prefix].
  destruct (ascii_dec "=" c) as [_ | _]; [| by destruct (a +:+ "' ")].
  destruct a as [| c' a]; [done |]. rewrite append_cons. cbn [String.prefix].
  destruct (ascii_dec "{" c'); [by destruct a | done].
Qed.

Lemma noKey_userData (json : string) :
  includes json "={" = false -> noKey (":user-data='" +:+ json +:+ "' ") = true.
Proof.
  intros Hjson. apply includes_before_quote in Hjson.
  unfold noKey. apply andb_true_intro. split; [| reflexivity].
  apply negb_true_iff.
  rewrite !append_cons. change ("" +:+ json +:+ "' ") with (json +:+ "' ").
  cbn [includes String.prefix]. rewrite Hjson.
  by destruct (ascii_dec "{" "'").
Qed.

(** *** The characters of a text *)

Lemma every_app (test : ascii -> bool) (a b : string) :
  every test (a +:+ b) = every test a && every test b.
Proof.
  induction a as [| c a IH]; [done |].
  rewrite append_cons. cbn [every]. by rewrite IH, andb_assoc.
Qed.

Lemma every_impl (P Q : ascii -> bool) (s : string) :
  (forall ch, P ch = true -> Q ch = true) -> every P s = true -> every Q s = true.
Proof.
  intros HPQ. induction s as [| c s IH]; [done |]. cbn [every].
  intros [Hc Hs]%andb_true_iff. by rewrite (HPQ c Hc), (IH Hs).
Qed.

Lemma every_substring (test : ascii -> bool) (n m : nat) (s : string) :
  every test s = true -> every test (String.substring n m s) = true.
Proof.
  revert n m. induction s as [| c s IH]; intros n m Hs.
  - by destruct n, m.
  - cbn [every] in Hs. apply andb_true_iff in Hs as [Hc Hs].
    destruct n as [| n]; cbn [String.substring].
    + destruct m as [| m]; [done |]. cbn [every]. by rewrite Hc, (IH 0%nat m Hs).
    + by apply IH.
Qed.

Lemma every_zeros (test : ascii -> bool) (n : nat) :
  test "0"%char = true -> every test (zeros n) = true.
Proof. intros H0. induction n as [| n IH]; [done |]. cbn [zeros every]. by rewrite H0, IH. Qed.

Lemma is_digit_pretty_N_char (x : N) : is_digit (pretty_N_char x) = true.
Proof. unfold pretty_N_char. by repeat case_match. Qed.

Lemma every_pretty_N_go (test : ascii -> bool) (x : N) (s : string) :
  (forall ch, is_digit ch = true -> test ch = true) ->
  every test s = true -> every test (pretty_N_go x s) = true.
Proof.
  intros Hd. revert s. induction (N.lt_wf_0 x) as [x _ IH]. intros s Hs.
  destruct (decide (x = 0)%N) as [-> | Hx].
  - by rewrite pretty_N_go_0.
  - rewrite pretty_N_go_step by lia.
    apply IH; [apply N.div_lt; lia |].
    cbn [every]. apply andb_true_intro. split; [| exact Hs].
    apply Hd, is_digit_pretty_N_char.
Qed.

Lemma every_pretty_N (test : ascii -> bool) (x : N) :
  (forall ch, is_digit ch = true -> test ch = true) -> every test (pretty x) = true.
Proof.
  intros Hd. unfold pretty, pretty_N. case_decide.
  - cbn [every]. by rewrite (Hd "0"%char eq_refl).
  - by apply every_pretty_N_go.
Qed.

Lemma every_pretty_nat (test : ascii -> bool) (x : nat) :
  (forall ch, is_digit ch = true -> test ch = true) -> every test (pretty x) = true.
Proof. intros Hd. apply (every_pretty_N test (N.of_nat x) Hd). Qed.

Lemma every_pretty_Z (test : ascii -> bool) (x : Z) :
  (forall ch, is_digit ch = true -> test ch = true) -> test "-"%char = true ->
  every test (pretty x) = true.
Proof.
  intros Hd Hminus.
  destruct x as [| q | q];
    [apply (every_pretty_N test 0%N Hd) | apply (every_pretty_N test (Npos q) Hd) |].
  change (pretty (Z.neg q)) with ("-" +:+ pretty (Npos q)).
  rewrite every_app, (every_pretty_N test (Npos q) Hd). cbn [every]. by rewrite Hminus.
Qed.

Lemma numberChar_digit (ch : ascii) : is_digit ch = true -> numberChar ch = true.
Proof. intros H. unfold numberChar. by rewrite H. Qed.

Lemma markupChar_number (ch : ascii) : numberChar ch = true -> markupChar ch = true.
Proof. intros H. unfold markupChar. by rewrite H. Qed.

Lemma markupChar_letter (ch : ascii) : is_letter ch = true -> markupChar ch = true.
Proof. intros H. unfold markupChar. by rewrite H, orb_true_r. Qed.

Lemma documentChar_markup (ch : ascii) : markupChar ch = true -> documentChar ch = true.
Proof. intros H. unfold documentChar. by rewrite H. Qed.

(** A text of the emitter's own passes every test its characters pass. *)
Ltac literal Hok :=
  lazymatch goal with
  | |- every _ ?s = true =>
      apply (every_impl _ _ s Hok); vm_compute; reflexivity
  | |- _ ?c = true => apply Hok; vm_compute; reflexivity
  end.

Section Characters.

Variable ok : ascii -> bool.
Hypothesis ok_markup : forall ch, markupChar ch = true -> ok ch = true.

Lemma ok_digit (ch : ascii) : is_digit ch = true -> ok ch = true.
Proof. intros H. by apply ok_markup, markupChar_number, numberChar_digit. Qed.

Lemma every_ok_pretty_Z (x : Z) : every ok (pretty x) = true.
Proof. apply every_pretty_Z; [exact ok_digit | literal ok_markup]. Qed.

Lemma every_ok_pretty_nat (x : nat) : every ok (pretty x) = true.
Proof. apply every_pretty_nat, ok_digit. Qed.

Lemma every_ok_layout (ds : string) (n : Z) :
  every ok ds = true -> every ok (layout ds n) = true.
Proof.
  intros Hd. unfold layout. cbv zeta.
  repeat
    lazymatch goal with
    | |- every ok (if ?b then _ else _) = true => destruct b
    | |- every ok (_ +:+ _) = true => rewrite every_app; apply andb_true_intro; split
    | |- every ok (String.substring _ _ _) = true => apply every_substring
    | |- every ok (zeros _) = true => apply every_zeros
    | |- every ok (pretty _) = true => apply every_ok_pretty_Z
    | |- every ok ds = true => exact Hd
    | |- _ => literal ok_markup
    end.
Qed.

Lemma every_ok_toString (x : Q) : every ok (JsNumber.toString x) = true.
Proof.
  unfold JsNumber.toString. destruct (JsNumber.eqb x 0); [literal ok_markup |].
  destruct (shortest _ _ _ _) as [s e]. destruct (stripZeros _ _ _) as [s' e'].
  cbv zeta. rewrite every_app. apply andb_true_intro. split.
  - destruct (ltb x 0); literal ok_markup.
  - apply every_ok_layout, every_ok_pretty_Z.
Qed.

Lemma every_ok_rDeg (p : Q) (x : Q) : every ok (interpolate (rDeg p x)) = true.
Proof.
  unfold rDeg, sign. cbv zeta.
  destruct (find _ (seqZ 1 10)) as [i |]; [| destruct (find _ (seqZ 1 10)) as [i |]];
    cbn [interpolate]; [| | apply every_ok_toString];
    repeat
      lazymatch goal with
      | |- every ok (if ?b then _ else _) = true => destruct b
      | |- every ok (_ +:+ _) = true => rewrite every_app; apply andb_true_intro; split
      | |- every ok (pretty _) = true => apply every_ok_pretty_Z
      | |- _ => literal ok_markup
      end.
Qed.

Lemma every_ok_attr (key value : string) :
  every ok key = true -> every ok value = true -> every ok (attr key value) = true.
Proof.
  intros Hk Hv. unfold attr. rewrite !every_app, Hk, Hv.
  assert (every ok "=" = true) as -> by literal ok_markup.
  assert (every ok dq = true) as -> by literal ok_markup.
  assert (every ok " " = true) as -> by literal ok_markup.
  done.
Qed.

Variable isVar : string -> bool.
Variable options : Options.
Variable geometries : gmap string DuplicateRecord.

Lemma every_ok_sanitizeName (nm : string) :
  every ok nm = true -> every ok (sanitizeName isVar nm) = true.
Proof.
  intros Hnm. unfold sanitizeName. destruct (isVar nm); rewrite !every_app, Hnm.
  - by assert (every ok "." = true) as -> by literal ok_markup.
  - assert (every ok "['" = true) as -> by literal ok_markup.
    by assert (every ok "']" = true) as -> by literal ok_markup.
Qed.

Lemma every_ok_nodeRef (obj : Object3D) (field : string) :
  every ok (name obj) = true -> every ok field = true ->
  every ok (nodeRef isVar obj field) = true.
Proof.
  intros Hnm Hf. unfold nodeRef. rewrite !every_app, every_ok_sanitizeName, Hf by done.
  by assert (every ok "nodes" = true) as -> by literal ok_markup.
Qed.

Lemma every_ok_num (x : Q) : every ok (num options x) = true.
Proof. apply every_ok_toString. Qed.

Lemma every_ok_deg (x : Q) : every ok (deg options x) = true.
Proof. apply every_ok_rDeg. Qed.

(** The attribute text is a text of characters that pass, followed by
    the user data. *)
Lemma propsText_front (obj : Object3D) :
  every ok (name obj) = true ->
  (forall m, material obj = Some m -> every ok (mat_name m) = true) ->
  (forall hex, color obj = Some hex -> every ok hex = true) ->
  exists front,
    propsText isVar options geometries obj
    = front +:+ match userData obj with
                | JsonText json => when (meta options) (":user-data='" +:+ json +:+ "' ")
                | _ => ""
                end
    /\ every ok front = true.
Proof.
  intros Hname Hmat Hcolor. unfold propsText. cbv zeta.
  rewrite <- !append_assoc. eexists. split; [reflexivity |].
  unfold when.
  repeat
    lazymatch goal with
    | |- every ok (_ +:+ _) = true => rewrite every_app; apply andb_true_intro; split
    | |- every ok (num _ _) = true => apply every_ok_num
    | |- every ok (deg _ _) = true => apply every_ok_deg
    | |- every ok (JsNumber.toString _) = true => apply every_ok_toString
    | |- every ok (attr _ _) = true => apply every_ok_attr
    | |- every ok (nodeRef _ _ _) = true => apply every_ok_nodeRef
    | |- every ok (sanitizeName _ _) = true => apply every_ok_sanitizeName
    | |- every ok (if ?b then _ else _) = true => destruct b
    | |- every ok (match material obj with Some _ => _ | None => _ end) = true =>
        destruct (material obj) as [m |]; [specialize (Hmat m eq_refl) |]
    | |- every ok (match color obj with Some _ => _ | None => _ end) = true =>
        destruct (color obj) as [hex |]; [specialize (Hcolor hex eq_refl) |]
    | |- every ok (match ?x with Some _ => _ | None => _ end) = true => destruct x
    | |- every ok (name obj) = true => exact Hname
    | |- every ok (mat_name _) = true => exact Hmat
    | |- every ok ?s = true =>
        lazymatch s with
        | context [obj] => fail
        | context [options] => fail
        | _ => first [ assumption | literal ok_markup ]
        end
    end.
Qed.

End Characters.

Lemma markupChar_brace (ch : ascii) :
  markupChar ch = true -> negb (Ascii.eqb ch "{"%char) = true.
Proof. destruct (Ascii.eqb_spec ch "{"%char) as [-> | _]; [by vm_compute | done]. Qed.

Lemma noBrace_attr (key value : string) :
  noBrace key = true -> noBrace value = true -> noBrace (attr key value) = true.
Proof. exact (every_ok_attr _ markupChar_brace key value). Qed.

Section Attributes.

Variable isVar : string -> bool.
Variable options : Options.
Variable geometries : gmap string DuplicateRecord.

Lemma noKey_propsText (obj : Object3D) :
  noBrace (name obj) = true ->
  (forall m, material obj = Some m -> noBrace (mat_name m) = true) ->
  (forall hex, color obj = Some hex -> noBrace hex = true) ->
  (forall json, userData obj = JsonText json -> meta options = true ->
                includes json "={" = false) ->
  noKey (propsText isVar options geometries obj) = true.
Proof.
  intros Hname Hmat Hcolor Hdata.
  destruct (propsText_front _ markupChar_brace isVar options geometries obj Hname Hmat Hcolor)
    as (front & -> & Hfront).
  apply noKey_app; [exact Hfront |].
  destruct (userData obj) as [| json | e]; [reflexivity | | reflexivity].
  unfold when. destruct (meta options); [| reflexivity].
  by apply noKey_userData, Hdata.
Qed.

Lemma braceFree_static o o' : static o = static o' -> braceFree o -> braceFree o'.
Proof.
  intros Hs. unfold braceFree.
  rewrite (f_equal name Hs : name o = name o').
  rewrite (f_equal material Hs : material o = material o').
  rewrite (f_equal color Hs : color o = color o').
  by rewrite (f_equal userData Hs : userData o = userData o').
Qed.

Lemma braceFree_propsText obj :
  braceFree obj -> includes (propsText isVar options geometries obj) "={" = false.
Proof.
  intros (Hname & Hmat & Hcolor & Hdata).
  apply noKey_includes, noKey_propsText; auto.
Qed.

(** X12.  The attributes [handleProps] writes are quoted, never
    braced: for an object whose name, material name and colour hold no
    opening brace, and whose user data (if [meta] asks for it) holds no
    equals sign followed by a brace, the regular expression of [prune]
    finds no key in the text. *)
Theorem handleProps_writes_no_braced_attribute (obj : Object3D) (props : string) :
  noBrace (name obj) = true ->
  (forall m, material obj = Some m -> noBrace (mat_name m) = true) ->
  (forall hex, color obj = Some hex -> noBrace hex = true) ->
  (forall json, userData obj = JsonText json -> meta options = true ->
                includes json "={" = false) ->
  handleProps isVar options geometries obj = Ok props ->
  keysOf props = [].
Proof.
  intros Hname Hmat Hcolor Hdata Hprops.
  rewrite (handleProps_text isVar options geometries obj props Hprops).
  by apply keysOf_without_brace, noKey_includes, noKey_propsText.
Qed.

End Attributes.

Lemma handleProps_writes_no_braced_attribute_witness :
  keysOf (propsText isVarName defaultOptions ∅
            (Examples.mesh "part" "g1" (Some (Examples.standard "m1" "Red")))) = [].
Proof.
  apply (handleProps_writes_no_braced_attribute isVarName defaultOptions ∅
           (Examples.mesh "part" "g1" (Some (Examples.standard "m1" "Red")))).
  - reflexivity.
  - intros m [= <-]. reflexivity.
  - intros hex [=].
  - intros json [=].
  - reflexivity.
Defined.

(** ** What [print] writes *)

Lemma Writes_trans ids h1 h2 h3 :
  Writes ids h1 h2 -> Writes ids h2 h3 -> Writes ids h1 h3.
Proof.
  induction 1 as [h | h j f h' Hj Hw Hrest IH]; [done |].
  intros H3. eapply writes_step; [done | done | by apply IH].
Qed.

Lemma Writes_mono ids ids' h h' :
  ids ⊆ ids' -> Writes ids h h' -> Writes ids' h h'.
Proof.
  intros Hsub. induction 1 as [h | h j f h' Hj Hw Hrest IH]; [constructor |].
  eapply writes_step; [by apply Hsub | done | done].
Qed.

Lemma Writes_one ids h j f :
  j ∈ ids -> Write (get h j) f -> Writes ids h (update j f h).
Proof. intros Hj Hw. eapply writes_step; [done | done | constructor]. Qed.

Lemma Write_static o f : Write o f -> forall o', static (f o') = static o'.
Proof. intros [? | | key src] o'; [done | done | apply static_copyKey]. Qed.

Lemma Writes_static ids h h' : Writes ids h h' -> sameStatic h h'.
Proof.
  induction 1 as [h | h j f h' Hj Hw Hrest IH]; [done |].
  eapply sameStatic_trans; [| exact IH].
  apply sameStatic_update. by eapply Write_static.
Qed.

Lemma scenic_static o o' : static o = static o' -> scenic o = scenic o'.
Proof. intros Hs. unfold scenic. by rewrite (getType_static _ _ Hs). Qed.

Lemma Writes_outside ids h h' :
  Writes ids h h' -> forall i, i ∉ ids -> get h' i = get h i.
Proof.
  induction 1 as [h | h j f h' Hj Hw Hrest IH]; [done |].
  intros i Hi. rewrite (IH i Hi), get_update.
  case_bool_decide as Hji; [| done]. destruct Hji as [-> _]. done.
Qed.

Lemma Writes_length ids h h' : Writes ids h h' -> length h' = length h.
Proof.
  induction 1 as [h | h j f h' Hj Hw Hrest IH]; [done |].
  rewrite IH. unfold update. apply length_insert.
Qed.

Lemma Writes_marks ids h h' :
  Writes ids h h' ->
  forall i,
    (__removed (get h i) = true -> __removed (get h' i) = true)
    /\ (__removed (get h' i) = true ->
        __removed (get h i) = true \/ (i ∈ ids /\ scenic (get h i) = true)).
Proof.
  induction 1 as [h | h j f h' Hj Hw Hrest IH]; [by auto |].
  intros i. destruct (IH i) as [IH1 IH2].
  pose proof (Writes_static _ _ _ (Writes_one _ h j f Hj Hw) i) as Hst.
  rewrite (scenic_static _ _ Hst) in IH2.
  rewrite get_update in IH1, IH2.
  case_bool_decide as Hji; [| by auto]. destruct Hji as [-> _].
  split.
  - intros Hrem. apply IH1. destruct Hw as [? | | key src]; [done | done |].
    unfold copyKey. by repeat case_match.
  - intros Hrem. destruct (IH2 Hrem) as [Hf | ?]; [| by right].
    destruct Hw as [Hsc | | key src].
    + by right.
    + by left.
    + left. revert Hf. unfold copyKey. by repeat case_match.
Qed.

Section Effects.

Variable isVar : string -> bool.
Variable options : Options.
Variable clips : list string.
Variable geometries : gmap string DuplicateRecord.

Lemma printEach_writes (pr : Tree -> Heap -> Result (string * Heap)) ks :
  Forall (fun k => writesWithin (traverse k) (pr k)) ks ->
  forall acc, writesWithin (flat_map traverse ks) (printEach pr ks acc).
Proof.
  induction 1 as [| k ks Hk Hks IH]; intros acc h s h' Hrun; simpl in Hrun.
  - injection Hrun as <- <-. constructor.
  - apply bind_Ok in Hrun as ([s1 h1] & Hk1 & Hrest). simpl.
    eapply Writes_trans.
    + eapply Writes_mono; [| by eapply Hk]. intros x Hx. apply elem_of_app. by left.
    + eapply Writes_mono; [| by eapply IH]. intros x Hx. apply elem_of_app. by right.
Qed.

Lemma foldl_copy_writes ids fid id keys h :
  fid ∈ ids ->
  Writes ids h (foldl (fun h key => update fid (copyKey key (get h id)) h) h keys).
Proof.
  intros Hfid. revert h. induction keys as [| key keys IH]; intros h; [constructor |].
  simpl. eapply writes_step; [done | constructor | apply IH].
Qed.

Lemma prune_writes id first rest printFirst printGrandchildren children_ result oldResult :
  writesWithin (traverse first) printFirst ->
  writesWithin (flat_map traverse (children first)) printGrandchildren ->
  forall h r h',
    prune isVar options clips geometries id (first :: rest) printFirst printGrandchildren
      children_ result oldResult h = Ok (r, h') ->
    Writes (traverse (Node id (first :: rest))) h h'.
Proof.
  intros Hfirst Hgrand h r h' Hrun. unfold prune in Hrun.
  set (ids := traverse (Node id (first :: rest))).
  assert (id ∈ ids) as Hid by apply list_elem_of_here.
  assert (traverse first ⊆ ids) as Hsub1.
  { intros x Hx. apply list_elem_of_further, elem_of_app. by left. }
  assert (root first ∈ ids) as Hfid.
  { apply Hsub1. destruct first as [fid gks]. apply list_elem_of_here. }
  assert (flat_map traverse (children first) ⊆ ids) as Hsub2.
  { intros x Hx. apply Hsub1. destruct first as [fid gks]. by apply list_elem_of_further. }
  destruct (negb (__removed (get h id)) && negb (keepgroups options)
            && negb (animated clips)
            && (String.eqb (getType (get h id)) "group"
                || String.eqb (getType (get h id)) "scene")) eqn:Hguard;
    [| injection Hrun as <- <-; constructor].
  assert (scenic (get h id) = true) as Hscenic.
  { unfold scenic. by apply andb_prop in Hguard as [_ ->]. }
  assert (forall h1, Writes ids h h1 -> Writes ids h (update id (set_removed true) h1))
    as Hmark.
  { intros h1 Hh1. eapply Writes_trans; [exact Hh1 |].
    apply Writes_one; [done |]. constructor.
    by rewrite (scenic_static _ _ (Writes_static _ _ _ Hh1 id)). }
  destruct (String.eqb result oldResult).
  { injection Hrun as <- <-. apply Hmark. constructor. }
  apply bind_Ok in Hrun as (firstProps & _ & Hrun).
  match type of Hrun with (if ?c then _ else _) = _ => destruct c eqn:Hb end.
  { apply bind_Ok in Hrun as ([s h2] & Hg & Hrun). injection Hrun as <- <-.
    eapply Writes_trans; [| eapply Writes_mono; [exact Hsub2 | by eapply Hgrand]].
    apply Hmark. apply Writes_one; [done |]. constructor.
    unfold scenic.
    repeat (apply andb_prop in Hb as [Hb ?]).
    match goal with H : String.eqb (getType (get h (root first))) _ = true |- _ =>
      apply String.eqb_eq in H; rewrite H end.
    exact Hscenic. }
  match type of Hrun with (if ?c then _ else _) = _ => destruct c end.
  { apply bind_Ok in Hrun as ([s h2] & Hf & Hrun). injection Hrun as <- <-.
    eapply Writes_trans; [| eapply Writes_mono; [exact Hsub1 | by eapply Hfirst]].
    eapply Writes_trans; [apply Hmark; constructor |].
    apply Writes_one; [done | constructor]. }
  match type of Hrun with (if ?c then _ else _) = _ => destruct c end.
  { apply bind_Ok in Hrun as ([s h2] & Hf & Hrun). injection Hrun as <- <-.
    apply Hmark.
    eapply Writes_trans; [by apply foldl_copy_writes |].
    eapply Writes_mono; [exact Hsub1 | by eapply Hfirst]. }
  match type of Hrun with (if ?c then _ else _) = _ => destruct c end;
    injection Hrun as <- <-; constructor.
Qed.

Lemma print_writes t :
  writesWithin (traverse t) (print isVar options clips geometries t)
  /\ forall acc,
       writesWithin (flat_map traverse (children t))
         (printEach (print isVar options clips geometries) (children t) acc).
Proof.
  induction t as [id kids IH] using Tree_ind_strong.
  assert (forall acc,
            writesWithin (flat_map traverse kids)
              (printEach (print isVar options clips geometries) kids acc)) as Heach.
  { apply printEach_writes. eapply Forall_impl; [exact IH |]. by intros k [Hk _]. }
  split; [| exact Heach].
  assert (flat_map traverse kids ⊆ traverse (Node id kids)) as Hsub.
  { intros x Hx. by apply list_elem_of_further. }
  intros h s h' Hrun. cbn [print] in Hrun.
  destruct (__removed (get h id) && (0 <? length kids)).
  { eapply Writes_mono; [exact Hsub | by eapply Heach]. }
  destruct (negb (bones options) && String.eqb (getType (get h id)) "bone").
  { injection Hrun as <- <-. constructor. }
  destruct (endsWith (getType (get h id)) "Light" && targetIsFirstChild (get h id) kids).
  { apply bind_Ok in Hrun as (? & _ & Hrun). injection Hrun as <- <-. constructor. }
  apply bind_Ok in Hrun as ([children_ h1] & Hkids & Hrun).
  apply bind_Ok in Hrun as ([opening ty'] & _ & Hrun).
  apply bind_Ok in Hrun as (props & _ & Hrun).
  apply bind_Ok in Hrun as ([pruned h2] & Hprune & Hrun).
  assert (h' = h2) as -> by (destruct pruned; by injection Hrun as <- <-).
  eapply Writes_trans; [eapply Writes_mono; [exact Hsub | by eapply Heach] |].
  destruct kids as [| first rest].
  - unfold prune in Hprune.
    destruct (negb (__removed (get h1 id)) && negb (keepgroups options)
              && negb (animated clips)
              && (String.eqb (getType (get h1 id)) "group"
                  || String.eqb (getType (get h1 id)) "scene")) eqn:Hguard;
      injection Hprune as <- <-; [| constructor].
    apply Writes_one; [apply list_elem_of_here |]. constructor.
    unfold scenic. by apply andb_prop in Hguard as [_ ->].
  - eapply prune_writes; [| | exact Hprune].
    + by destruct (Forall_cons_1 _ _ _ IH) as [[Hfirst _] _].
    + destruct (Forall_cons_1 _ _ _ IH) as [[_ Hgrand] _].
      destruct first as [fid gks]. apply Hgrand.
Qed.

(** X13.  [print] writes to the objects of the subtree it compiles
    only: every other object of the heap is left as it was. *)
Theorem print_touches_subtree_only t h s h' :
  print isVar options clips geometries t h = Ok (s, h') ->
  forall i, i ∉ traverse t -> get h' i = get h i.
Proof.
  intros Hrun. eapply Writes_outside. by apply (proj1 (print_writes t)) in Hrun.
Qed.

(** X14.  [print] never clears a removal mark, and the objects it
    marks are groups or scenes of the subtree it compiles. *)
Theorem print_marks_groups_only t h s h' :
  print isVar options clips geometries t h = Ok (s, h') ->
  forall i,
    (__removed (get h i) = true -> __removed (get h' i) = true)
    /\ (__removed (get h' i) = true ->
        __removed (get h i) = true
        \/ (i ∈ traverse t
            /\ (getType (get h i) = "group" \/ getType (get h i) = "scene"))).
Proof.
  intros Hrun i. apply (proj1 (print_writes t)) in Hrun.
  destruct (Writes_marks _ _ _ Hrun i) as [H1 H2]. split; [done |].
  intros Hrem. destruct (H2 Hrem) as [? | [Hi Hsc]]; [by left |]. right.
  split; [done |]. unfold scenic in Hsc.
  apply orb_prop in Hsc as [?%String.eqb_eq | ?%String.eqb_eq]; by auto.
Qed.

(** X15.  [print] keeps the number of objects, and of every object
    all fields but the transform and the removal mark. *)
Theorem print_keeps_static_fields t h s h' :
  print isVar options clips geometries t h = Ok (s, h') ->
  length h' = length h /\ forall i, static (get h' i) = static (get h i).
Proof.
  intros Hrun. apply (proj1 (print_writes t)) in Hrun. split.
  - by eapply Writes_length.
  - by apply (Writes_static (traverse t)).
Qed.

End Effects.

Lemma print_touches_subtree_only_witness :
  let h := (load (scene Examples.moved)).2 in
  get (update 1 (set_removed true) h) 0 = get h 0.
Proof.
  intros h.
  apply (print_touches_subtree_only isVarName defaultOptions [] ∅ (Node 1 [Node 2 []]) h
           Examples.lightMarkup (update 1 (set_removed true) h)).
  - vm_compute. reflexivity.
  - intros Hin. cbn [traverse flat_map app] in Hin.
    repeat (apply elem_of_cons in Hin as [Hin | Hin]; [discriminate Hin |]).
    by apply elem_of_nil in Hin.
Defined.

Lemma print_marks_groups_only_witness :
  let h := (load (scene Examples.moved)).2 in
  let h' := update 1 (set_removed true) h in
  (__removed (get h 1) = true -> __removed (get h' 1) = true)
  /\ (__removed (get h' 1) = true ->
      __removed (get h 1) = true
      \/ (1 ∈ traverse (Node 1 [Node 2 []])
          /\ (getType (get h 1) = "group" \/ getType (get h 1) = "scene"))).
Proof.
  intros h h'.
  apply (print_marks_groups_only isVarName defaultOptions [] ∅ (Node 1 [Node 2 []]) h
           Examples.lightMarkup h').
  vm_compute. reflexivity.
Defined.

Lemma print_keeps_static_fields_witness :
  let h := (load (scene Examples.moved)).2 in
  let h' := update 1 (set_removed true) h in
  length h' = length h /\ forall i, static (get h' i) = static (get h i).
Proof.
  intros h h'.
  apply (print_keeps_static_fields isVarName defaultOptions [] ∅ (Node 1 [Node 2 []]) h
           Examples.lightMarkup h').
  vm_compute. reflexivity.
Defined.

Section Pruning.

Variable isVar : string -> bool.
Variable options : Options.
Variable clips : list string.
Variable geometries : gmap string DuplicateRecord.

Lemma printEach_unchanged (pr : Tree -> Heap -> Result (string * Heap)) ks :
  Forall (fun k => forall h s h', pr k h = Ok (s, h') -> h' = h) ks ->
  forall acc h s h', printEach pr ks acc h = Ok (s, h') -> h' = h.
Proof.
  induction 1 as [| k ks Hk Hks IH]; intros acc h s h' Hrun; simpl in Hrun.
  - by injection Hrun as <- <-.
  - apply bind_Ok in Hrun as ([s1 h1] & Hk1 & Hrest).
    apply Hk in Hk1 as ->. by eapply IH.
Qed.

(** X16.  With [keepgroups] set, or for a file with animations,
    [print] leaves the heap as it is: nothing is marked or moved. *)
Theorem print_without_pruning_keeps_heap t h s h' :
  keepgroups options || animated clips = true ->
  print isVar options clips geometries t h = Ok (s, h') -> h' = h.
Proof.
  intros Hoff. revert h s h'.
  induction t as [id kids IH] using Tree_ind_strong.
  intros h s h' Hrun. cbn [print] in Hrun.
  pose proof (printEach_unchanged _ _ IH) as Heach.
  destruct (__removed (get h id) && (0 <? length kids)); [by eapply Heach |].
  destruct (negb (bones options) && String.eqb (getType (get h id)) "bone").
  { by injection Hrun as <- <-. }
  destruct (endsWith (getType (get h id)) "Light" && targetIsFirstChild (get h id) kids).
  { apply bind_Ok in Hrun as (? & _ & Hrun). by injection Hrun as <- <-. }
  apply bind_Ok in Hrun as ([children_ h1] & Hkids & Hrun).
  apply Heach in Hkids as ->.
  apply bind_Ok in Hrun as ([opening ty'] & _ & Hrun).
  apply bind_Ok in Hrun as (props & _ & Hrun).
  apply bind_Ok in Hrun as ([pruned h2] & Hprune & Hrun).
  assert (h' = h2) as -> by (destruct pruned; by injection Hrun as <- <-).
  unfold prune in Hprune.
  assert (negb (__removed (get h id)) && negb (keepgroups options)
          && negb (animated clips)
          && (String.eqb (getType (get h id)) "group"
              || String.eqb (getType (get h id)) "scene") = false) as Hguard.
  { apply orb_prop in Hoff as [-> | ->]; by rewrite ?andb_false_r. }
  rewrite Hguard in Hprune. by injection Hprune as <- <-.
Qed.

Lemma printEach_outside ks acc h s h' :
  printEach (print isVar options clips geometries) ks acc h = Ok (s, h') ->
  forall i, i ∉ flat_map traverse ks -> get h' i = get h i.
Proof.
  intros Hrun.
  apply (proj2 (print_writes isVar options clips geometries (Node 0 ks)) acc) in Hrun.
  simpl in Hrun.
  induction Hrun as [h | h j f h' Hj Hw Hrest IH]; [done |].
  intros i Hi. rewrite (IH i Hi), get_update.
  case_bool_decide as Hji; [| done]. destruct Hji as [-> _]. done.
Qed.

(** X17.  The first rule of [prune]: a group or scene that is not
    marked, whose attribute text is empty, gives way to its children:
    its markup is the markup of the children and it is marked
    removed.  (Neither [keepgroups] nor animations; [handleProps]
    raises no error for the object; the object is not its own
    descendant.) *)
Theorem bare_group_gives_way id kids h opening ty' :
  keepgroups options = false ->
  animated clips = false ->
  getType (get h id) = "group" \/ getType (get h id) = "scene" ->
  __removed (get h id) = false ->
  openTag isVar options geometries (get h id) = Ok (opening, ty') ->
  propsText isVar options geometries (get h id) = "" ->
  writable options (get h id) ->
  id ∉ flat_map traverse kids ->
  print isVar options clips geometries (Node id kids) h
  = '(children_, h1) ← printEach (print isVar options clips geometries) kids "" h;
    Ok (children_, update id (set_removed true) h1).
Proof.
  intros Hkeep Hanim Hty Hrem Hopen Hprops Hwritable Hfresh.
  assert (String.eqb (getType (get h id)) "group"
          || String.eqb (getType (get h id)) "scene" = true) as Hscenic.
  { destruct Hty as [-> | ->]; reflexivity. }
  assert (String.eqb (getType (get h id)) "bone" = false) as Hbone.
  { destruct Hty as [-> | ->]; reflexivity. }
  assert (endsWith (getType (get h id)) "Light" = false) as Hlight.
  { destruct Hty as [-> | ->]; reflexivity. }
  cbn [print]. rewrite Hrem, Hbone, Hlight, andb_false_r. cbn [andb].
  destruct (printEach (print isVar options clips geometries) kids "" h)
    as [[children_ h1] | e] eqn:Hkids; [| done].
  cbn [mbind Result_bind].
  rewrite (printEach_outside _ _ _ _ _ Hkids id Hfresh).
  rewrite Hopen. cbn [mbind Result_bind].
  rewrite (handleProps_Ok _ _ _ _ Hwritable).
  cbn [mbind Result_bind]. rewrite Hprops, append_empty_r.
  unfold prune. rewrite (printEach_outside _ _ _ _ _ Hkids id Hfresh).
  rewrite Hrem, Hkeep, Hanim, Hscenic. cbn [negb andb].
  rewrite String.eqb_refl. by destruct kids.
Qed.

Lemma allCompilable_static h h' :
  sameStatic h h' -> allCompilable options h -> allCompilable options h'.
Proof.
  intros Hs Hh i. specialize (Hs i). unfold compilable, serializable.
  rewrite (f_equal isInstancedMesh Hs : isInstancedMesh (get h' i) = isInstancedMesh (get h i)).
  rewrite (f_equal material Hs : material (get h' i) = material (get h i)).
  rewrite (f_equal userData Hs : userData (get h' i) = userData (get h i)).
  apply Hh.
Qed.

Lemma allCompilable_Forall h :
  Forall (compilable options) h -> allCompilable options h.
Proof.
  intros Hall i. destruct (decide (i < length h)) as [Hlt | Hge].
  - rewrite Forall_forall in Hall. apply Hall.
    unfold get. by apply list_elem_of_lookup_total_2.
  - unfold get. rewrite list_lookup_total_alt, lookup_ge_None_2 by lia.
    split; [intros Hi; discriminate Hi | reflexivity].
Qed.

Lemma allCompilable_objects h :
  Forall (fun o => isInstancedMesh o = true -> is_Some (material o)) h ->
  (meta options = true -> Forall (fun o => serializable o = true) h) ->
  allCompilable options h.
Proof.
  intros Hh Hdata. apply allCompilable_Forall. apply Forall_forall. intros o Ho. split.
  - by apply (proj1 (Forall_forall _ _) Hh).
  - intros Hmeta. by apply (proj1 (Forall_forall _ _) (Hdata Hmeta)).
Qed.

Lemma printEach_succeeds ks :
  Forall (fun k => succeeds options (print isVar options clips geometries k)) ks ->
  forall acc, succeeds options (printEach (print isVar options clips geometries) ks acc).
Proof.
  induction 1 as [| k ks Hk Hks IH]; intros acc h Hh; simpl.
  - eauto.
  - destruct (Hk h Hh) as (s1 & h1 & Hk1). rewrite Hk1. cbn [mbind Result_bind].
    apply IH. eapply allCompilable_static; [| exact Hh].
    by eapply (proj1 (print_static isVar options clips geometries k)).
Qed.

Lemma openTag_succeeds o :
  compilable options o ->
  exists opening ty', openTag isVar options geometries o = Ok (opening, ty').
Proof.
  intros [Ho _]. unfold openTag. destruct (instancedAs options geometries o); [eauto |].
  destruct (isInstancedMesh o).
  - destruct (Ho eq_refl) as [m ->]. eauto.
  - destruct (String.eqb (getType o) "bone"); eauto.
Qed.

Lemma print_succeeds_all t :
  toFixedAccepts (digits (precision options)) = true ->
  succeeds options (print isVar options clips geometries t)
  /\ forall acc,
       succeeds options
         (printEach (print isVar options clips geometries) (children t) acc).
Proof.
  intros Hdigits.
  assert (forall o, compilable options o ->
                    handleProps isVar options geometries o
                    = Ok (propsText isVar options geometries o)) as Hprops.
  { intros o [_ Ho]. by apply handleProps_Ok. }
  induction t as [id kids IH] using Tree_ind_strong.
  assert (forall acc,
            succeeds options (printEach (print isVar options clips geometries) kids acc))
    as Heach.
  { apply printEach_succeeds. eapply Forall_impl; [exact IH |]. by intros k [Hk _]. }
  split; [| exact Heach].
  intros h Hh. cbn [print].
  destruct (__removed (get h id) && (0 <? length kids)); [by apply Heach |].
  destruct (negb (bones options) && String.eqb (getType (get h id)) "bone"); [eauto |].
  destruct (endsWith (getType (get h id)) "Light" && targetIsFirstChild (get h id) kids).
  { unfold lightWithTarget. rewrite !Hprops by apply Hh. cbn [mbind Result_bind]. eauto. }
  destruct (Heach "" h Hh) as (children_ & h1 & Hkids). rewrite Hkids.
  cbn [mbind Result_bind].
  assert (allCompilable options h1) as Hh1.
  { eapply allCompilable_static; [| exact Hh].
    by eapply (proj2 (print_static isVar options clips geometries (Node id kids))). }
  destruct (openTag_succeeds (get h1 id) (Hh1 id)) as (opening & ty' & ->).
  cbn [mbind Result_bind]. rewrite Hprops by apply Hh1. cbn [mbind Result_bind].
  enough (exists p h2,
            prune isVar options clips geometries id kids
              match kids with
              | [] => fun h0 : Heap => Ok ("", h0)
              | first :: _ => print isVar options clips geometries first
              end
              match kids with
              | [] => fun h0 : Heap => Ok ("", h0)
              | Node _ grandchildren :: _ =>
                  printEach (print isVar options clips geometries) grandchildren ""
              end children_
              ((opening +:+ nameAttr options clips (get h1 id))
               +:+ propsText isVar options geometries (get h1 id))
              (opening +:+ nameAttr options clips (get h1 id)) h1 = Ok (p, h2))
    as (p & h2 & ->).
  { cbn [mbind Result_bind]. destruct p; eauto. }
  unfold prune.
  destruct (negb (__removed (get h1 id)) && negb (keepgroups options)
            && negb (animated clips)
            && (String.eqb (getType (get h1 id)) "group"
                || String.eqb (getType (get h1 id)) "scene")); [| eauto].
  destruct kids as [| first rest]; [eauto |].
  destruct (String.eqb _ _); [eauto |].
  rewrite Hprops by apply Hh1. cbn [mbind Result_bind].
  assert (forall h0, sameStatic h1 h0 -> allCompilable options h0) as Hst.
  { intros h0 Hs. by eapply allCompilable_static. }
  destruct (Forall_cons_1 _ _ _ IH) as [[Hfirst Hgrand] _].
  assert (forall (f : Heap -> Result (string * Heap)) (g : Heap -> Heap) h0,
            succeeds options f -> sameStatic h1 h0 ->
            exists p h2,
              ('(s, h2) ← f h0; Ok (Some s, g h2)) = Ok (p : option string, h2))
    as Hrun.
  { intros f g h0 Hf Hs. destruct (Hf h0 (Hst h0 Hs)) as (s & h2 & ->).
    cbn [mbind Result_bind]. eauto. }
  assert (forall i f, static (f (get h1 i)) = static (get h1 i) ->
                      sameStatic h1 (update i f h1)) as Hup.
  { intros i f Hf. by apply sameStatic_update. }
  match goal with |- context [if ?c then _ else _] => destruct c end.
  { destruct first as [fid gks]. apply (Hrun _ (fun h => h)); [apply Hgrand |].
    eapply sameStatic_trans; [| by apply sameStatic_update]. by apply sameStatic_update. }
  match goal with |- context [if ?c then _ else _] => destruct c end.
  { apply (Hrun _ (fun h => h)); [apply Hfirst |].
    eapply sameStatic_trans; [| by apply sameStatic_update]. by apply sameStatic_update. }
  match goal with |- context [if ?c then _ else _] => destruct c end.
  { apply Hrun; [apply Hfirst | apply foldl_copy_static]. }
  match goal with |- context [if ?c then _ else _] => destruct c end; eauto.
Qed.

(** X18.  [print] raises no error when [toFixed] accepts the number of
    digits (from 0 to 100), every instanced mesh of the heap has a
    material and, if [meta] is set, [JSON.stringify] can write the user
    data of every object. *)
Theorem print_succeeds t h :
  toFixedAccepts (digits (precision options)) = true ->
  Forall (fun o => isInstancedMesh o = true -> is_Some (material o)) h ->
  (meta options = true -> Forall (fun o => serializable o = true) h) ->
  exists s h', print isVar options clips geometries t h = Ok (s, h').
Proof.
  intros Hdigits Hh Hdata. apply print_succeeds_all; [exact Hdigits |].
  by apply allCompilable_objects.
Qed.

End Pruning.

Lemma bare_group_gives_way_witness :
  print isVarName defaultOptions [] ∅ (Node 0 [Node 1 []])
    [Examples.group "a"; Examples.pointLight "b"]
  = '(children_, h1) ← printEach (print isVarName defaultOptions [] ∅) [Node 1 []] ""
                         [Examples.group "a"; Examples.pointLight "b"];
    Ok (children_, update 0 (set_removed true) h1).
Proof.
  apply (bare_group_gives_way isVarName defaultOptions [] ∅ 0 [Node 1 []]
           [Examples.group "a"; Examples.pointLight "b"] "<TresGroup " "group");
    try reflexivity.
  - by left.
  - split; [reflexivity | intros _; reflexivity].
  - by intros ?%list_elem_of_singleton.
Defined.

Lemma print_without_pruning_keeps_heap_witness :
  let h := (load (scene Examples.moved)).2 in
  let markup :=
    "<TresGroup " +:+ attr ":position" "[10, 0, 0]" +:+ ">" +:+ nl
    +:+ Examples.lightMarkup +:+ "</TresGroup>" in
  print isVarName keepingGroups [] ∅ (Node 1 [Node 2 []]) h = Ok (markup, h)
  /\ h = h.
Proof.
  intros h markup. split; [vm_compute; reflexivity |].
  apply (print_without_pruning_keeps_heap isVarName keepingGroups [] ∅
           (Node 1 [Node 2 []]) h markup h); [reflexivity |].
  vm_compute. reflexivity.
Defined.

Lemma print_succeeds_witness :
  exists s h',
    print isVarName defaultOptions [] ∅ (load (scene Examples.cancelling)).1
      (load (scene Examples.cancelling)).2 = Ok (s, h').
Proof.
  apply (print_succeeds isVarName defaultOptions [] ∅
           (load (scene Examples.cancelling)).1 (load (scene Examples.cancelling)).2).
  - reflexivity.
  - vm_compute.
    repeat (apply Forall_cons; split; [intros Hi; discriminate Hi |]). by apply Forall_nil.
  - intros Hmeta. discriminate Hmeta.
Defined.

Section SingleChild.

Variable isVar : string -> bool.
Variable options : Options.
Variable geometries : gmap string DuplicateRecord.
Variable clips : list string.

(** X19.  A group or scene with attributes and exactly one child that
    is not itself a group or scene always gives way to the child, and
    nothing is copied to the child: the child is compiled once with the
    children and once more by the single-child rule, the second markup
    replaces the group, and the heap differs only by the mark on the
    group.  (Brace-free names, neither [keepgroups] nor animations;
    [handleProps] raises no error for the group and the child.) *)
Theorem single_child_group_gives_way (id : nat) (first : Tree) (h : Heap) :
  keepgroups options = false ->
  animated clips = false ->
  writable options (get h id) ->
  writable options (get h (root first)) ->
  getType (get h id) = "group" \/ getType (get h id) = "scene" ->
  geometry (get h id) = None ->
  isInstancedMesh (get h id) = false ->
  __removed (get h id) = false ->
  propsText isVar options geometries (get h id) <> "" ->
  braceFree (get h id) ->
  id ∉ traverse first ->
  scenic (get h (root first)) = false ->
  __removed (get h (root first)) = false ->
  braceFree (get h (root first)) ->
  print isVar options clips geometries (Node id [first]) h
  = '(_, h1) ← print isVar options clips geometries first h;
    '(s, h2) ← print isVar options clips geometries first h1;
    Ok (s, update id (set_removed true) h2).
Proof.
  intros Hkeep Hanim Hwritable Hwritable1 Hty Hgeo Hinst Hrem Hprops Hfree Hfresh
         Hplain Hfirst Hfree1.
  assert (String.eqb (getType (get h id)) "group"
          || String.eqb (getType (get h id)) "scene" = true) as Hscenic.
  { destruct Hty as [-> | ->]; reflexivity. }
  assert (String.eqb (getType (get h id)) "bone" = false) as Hbone.
  { destruct Hty as [-> | ->]; reflexivity. }
  assert (endsWith (getType (get h id)) "Light" = false) as Hlight.
  { destruct Hty as [-> | ->]; reflexivity. }
  assert (exists tres, getTresType (getType (get h id)) = tres /\ noBrace tres = true)
    as (tres & Htres & Hnb).
  { destruct Hty as [-> | ->]; eexists; split; reflexivity. }
  cbn [print]. rewrite Hrem, Hbone, Hlight, andb_false_r. cbn [andb].
  cbn [printEach].
  destruct (print isVar options clips geometries first h) as [[s1 h1] | e] eqn:Hrun1;
    [| done].
  cbn [mbind Result_bind].
  pose proof (proj1 (print_writes isVar options clips geometries first) h s1 h1 Hrun1)
    as Hwrites.
  rewrite (Writes_outside _ _ _ Hwrites id Hfresh).
  unfold openTag, instancedAs, duplicateOf. rewrite Hgeo, Hinst, Hbone, Htres.
  assert ((if instance options || instanceall options
           then @None DuplicateRecord else None) = None) as ->.
  { by destruct (instance options || instanceall options). }
  cbn [mbind Result_bind]. rewrite (handleProps_Ok _ _ _ _ Hwritable).
  cbn [mbind Result_bind].
  rewrite (prune_single_child_without_keys isVar options clips geometries id first).
  - by destruct (print isVar options clips geometries first h1) as [[s2 h2] | e];
      cbn [mbind Result_bind].
  - by rewrite (Writes_outside _ _ _ Hwrites id Hfresh).
  - done.
  - done.
  - by rewrite (Writes_outside _ _ _ Hwrites id Hfresh).
  - intros Heq. apply Hprops.
    apply (append_inj_l (("<" +:+ tres +:+ " ") +:+ nameAttr options clips (get h id))).
    by rewrite append_empty_r.
  - destruct Hwritable1 as [Hd Hs]. split; [exact Hd |].
    unfold serializable.
    by rewrite (f_equal userData (Writes_static _ _ _ Hwrites (root first))
                : userData (get h1 (root first)) = userData (get h (root first))).
  - destruct (Writes_marks _ _ _ Hwrites (root first)) as [_ Hmarks].
    destruct (__removed (get h1 (root first))) eqn:Hr; [| done].
    destruct (Hmarks eq_refl) as [? | [_ ?]]; congruence.
  - destruct Hfree as (Hname & Hmat & Hcolor & Hdata).
    apply noKey_includes, noKey_app; [| apply noKey_propsText; auto].
    rewrite noBrace_app. apply andb_true_intro. split.
    + by rewrite !noBrace_app, Hnb.
    + unfold nameAttr, when.
      match goal with |- noBrace (if ?b then _ else _) = true => destruct b end;
        [by apply noBrace_attr | done].
  - apply braceFree_propsText. eapply braceFree_static; [| exact Hfree1].
    symmetry. apply (Writes_static _ _ _ Hwrites).
Qed.

End SingleChild.

Lemma single_child_group_gives_way_witness :
  print isVarName defaultOptions [] ∅ (Node 1 [Node 2 []]) (load (scene Examples.moved)).2
  = '(_, h1) ← print isVarName defaultOptions [] ∅ (Node 2 [])
                 (load (scene Examples.moved)).2;
    '(s, h2) ← print isVarName defaultOptions [] ∅ (Node 2 []) h1;
    Ok (s, update 1 (set_removed true) h2).
Proof.
  apply (single_child_group_gives_way isVarName defaultOptions ∅ [] 1 (Node 2 [])
           (load (scene Examples.moved)).2); try reflexivity.
  - split; [reflexivity | intros _; reflexivity].
  - split; [reflexivity | intros _; reflexivity].
  - by left.
  - intros Heq. vm_compute in Heq. discriminate Heq.
  - repeat split; intros ? Heq; vm_compute in Heq;
      first [discriminate Heq | injection Heq as <-; reflexivity].
  - by intros ?%list_elem_of_singleton.
  - repeat split; intros ? Heq; vm_compute in Heq;
      first [discriminate Heq | injection Heq as <-; reflexivity].
Defined.

(** X20.  A camera is emitted under the prefix twice: [getType] turns
    the type into TresPerspectiveCamera (TresOrthographicCamera) and
    [getTresType] puts Tres in front of it again. *)
Theorem camera_element_name (isVar : string -> bool) (options : Options)
    (geometries : gmap string DuplicateRecord) (m : Object3D) :
  type m = "PerspectiveCamera" \/ type m = "OrthographicCamera" ->
  instancedAs options geometries m = None ->
  isInstancedMesh m = false ->
  emittedWith isVar options geometries
    ("<TresTres" +:+ type m +:+ " ") ("Tres" +:+ type m) m.
Proof.
  intros Hty Hinst Hmesh clips id kids h.
  assert (getType m = "Tres" +:+ type m) as Hget.
  { unfold getType. destruct Hty as [-> | ->]; reflexivity. }
  apply print_plain.
  - rewrite Hget. destruct Hty as [-> | ->]; reflexivity.
  - unfold openTag. rewrite Hinst, Hmesh, Hget.
    destruct Hty as [-> | ->]; reflexivity.
Qed.

Lemma camera_element_name_witness :
  type (object3D "PerspectiveCamera" "cam") = "PerspectiveCamera"
  /\ emittedWith isVarName defaultOptions ∅
       "<TresTresPerspectiveCamera " "TresPerspectiveCamera"
       (object3D "PerspectiveCamera" "cam").
Proof.
  split; [reflexivity |].
  apply (camera_element_name isVarName defaultOptions ∅
           (object3D "PerspectiveCamera" "cam"));
    [by left | reflexivity | reflexivity].
Defined.

(** ** The passes over the hierarchy *)

Lemma root_detach i t : root (detach i t) = root t.
Proof. by destruct t. Qed.

Lemma root_attach p sub t : root (attach p sub t) = root t.
Proof. by destruct t. Qed.

Lemma root_add p c t : root (add p c t) = root t.
Proof.
  unfold add. destruct (p =? c); [done |].
  destruct (subtree c t); [| done]. by rewrite root_attach, root_detach.
Qed.

Lemma elem_of_flat_map {A B : Type} (f : A -> list B) (l : list A) (x : B) :
  x ∈ flat_map f l <-> exists y, y ∈ l /\ x ∈ f y.
Proof.
  rewrite list_elem_of_In, in_flat_map. setoid_rewrite list_elem_of_In. done.
Qed.

Lemma elem_of_map {A B : Type} (f : A -> B) (l : list A) (y : B) :
  y ∈ map f l <-> exists x, f x = y /\ x ∈ l.
Proof.
  rewrite list_elem_of_In, in_map_iff. setoid_rewrite list_elem_of_In. done.
Qed.

Lemma traverse_detach i t x : x ∈ traverse (detach i t) -> x ∈ traverse t.
Proof.
  induction t as [j cs IH] using Tree_ind_strong. cbn [detach traverse].
  intros [-> | Hx]%elem_of_cons; [apply list_elem_of_here |].
  apply list_elem_of_further.
  apply elem_of_flat_map in Hx as (c' & Hc' & Hx).
  apply list_elem_of_filter in Hc' as [_ Hc'].
  apply elem_of_map in Hc' as (c & <- & Hc).
  apply elem_of_flat_map. exists c. split; [done |].
  rewrite Forall_forall in IH. by apply (IH c Hc).
Qed.

Lemma detach_gone i t x : x ∈ traverse (detach i t) -> x = i -> i = root t.
Proof.
  intros Hx ->. revert Hx.
  induction t as [j cs IH] using Tree_ind_strong. cbn [detach traverse root].
  intros [-> | Hx]%elem_of_cons; [done |]. exfalso.
  apply elem_of_flat_map in Hx as (c' & Hc' & Hx).
  apply list_elem_of_filter in Hc' as [Hroot Hc'].
  apply elem_of_map in Hc' as (c & <- & Hc).
  rewrite Forall_forall in IH.
  specialize (IH c Hc Hx). rewrite root_detach in Hroot.
  apply negb_prop_elim in Hroot. apply Hroot. apply Is_true_true.
  by apply Nat.eqb_eq.
Qed.

Section Passes.

Variable world : list Transform -> Transform.

Lemma root_moveChildren h t o : root (moveChildren h t o) = root t.
Proof.
  unfold moveChildren. destruct (__removed (get h o)); [| done].
  generalize (survivingParent t h o) as p.
  generalize (root <$> match subtree o t with Some s => children s | None => [] end).
  intros l p. revert t. induction l as [| c l IH]; intros t; [done |].
  simpl. by rewrite IH, root_add.
Qed.

Lemma root_foldl_moveChildren h l t : root (foldl (moveChildren h) t l) = root t.
Proof.
  revert t. induction l as [| o l IH]; intros t; [done |].
  simpl. by rewrite IH, root_moveChildren.
Qed.

Lemma root_foldl_removeDeleted h l t : root (foldl (removeDeleted h) t l) = root t.
Proof.
  revert t. induction l as [| o l IH]; intros t; [done |].
  simpl. rewrite IH. unfold removeDeleted.
  destruct (__removed (get h o)); [apply root_detach | done].
Qed.

Lemma removeDeleted_pass h l t x :
  x ∈ traverse (foldl (removeDeleted h) t l) ->
  x ∈ traverse t
  /\ (x ∈ l -> x = root t \/ __removed (get h x) = false).
Proof.
  revert x. induction l as [| o l IH] using rev_ind; intros x Hx.
  - split; [done |]. by intros ?%elem_of_nil.
  - rewrite foldl_snoc in Hx. unfold removeDeleted in Hx.
    assert (x ∈ traverse (foldl (removeDeleted h) t l)) as Hx'.
    { destruct (__removed (get h o)); [by eapply traverse_detach | done]. }
    destruct (IH x Hx') as [Ht Hl]. split; [done |].
    intros [Hin | ->%list_elem_of_singleton]%elem_of_app; [by apply Hl |].
    destruct (__removed (get h o)) eqn:Hrem; [| by right]. left.
    rewrite <- (root_foldl_removeDeleted h l t). by eapply detach_gone.
Qed.

(** X21.  After the restructuring pass the root is the same object,
    and no object below the root carries a removal mark. *)
Theorem restructure_drops_removed t h :
  root (restructure t h) = root t
  /\ Forall (fun x => x = root t \/ __removed (get h x) = false)
            (traverse (restructure t h)).
Proof.
  unfold restructure. split.
  - by rewrite root_foldl_removeDeleted, root_foldl_moveChildren.
  - apply Forall_forall. intros x Hx.
    apply removeDeleted_pass in Hx as [_ Hx].
    rewrite root_foldl_moveChildren in Hx.
    destruct (decide (x < length h)) as [Hlt | Hge].
    + apply Hx, elem_of_seq. lia.
    + right. unfold get. rewrite list_lookup_total_alt, lookup_ge_None_2; [done | lia].
Qed.

Lemma flattenObject_heap st o :
  sameStatic st.2 (flattenObject world st o).2
  /\ length (flattenObject world st o).2 = length st.2
  /\ forall i, isMesh (get st.2 i) = false -> get (flattenObject world st o).2 i = get st.2 i.
Proof.
  destruct st as [t h]. unfold flattenObject. cbn [snd].
  destruct (isMesh (get h o)) eqn:Hmesh; [| done]. cbn [snd].
  split; [by apply sameStatic_update |]. split.
  - unfold update. apply length_insert.
  - intros i Hi. rewrite get_update. case_bool_decide as Hoi; [| done].
    destruct Hoi as [-> _]. congruence.
Qed.

Lemma foldl_flattenObject_heap l st :
  sameStatic st.2 (foldl (flattenObject world) st l).2
  /\ length (foldl (flattenObject world) st l).2 = length st.2
  /\ forall i, isMesh (get st.2 i) = false ->
               get (foldl (flattenObject world) st l).2 i = get st.2 i.
Proof.
  revert st. induction l as [| o l IH]; intros st; [done |]. simpl.
  destruct (IH (flattenObject world st o)) as (Hs & Hl & Hm).
  destruct (flattenObject_heap st o) as (Hs1 & Hl1 & Hm1).
  split; [by eapply sameStatic_trans |]. split; [congruence |].
  intros i Hi. rewrite Hm, Hm1; [done | done |].
  by rewrite <- Hi, <- (f_equal isMesh (Hs1 i) : isMesh (get _ i) = isMesh (get st.2 i)).
Qed.

(** X22.  The flattening pass keeps the number of objects, writes
    transforms only, and leaves every object that is not a mesh as it
    was. *)
Theorem flatten_rewrites_meshes_only t h :
  length (flatten world t h).2 = length h
  /\ (forall i, static (get (flatten world t h).2 i) = static (get h i))
  /\ (forall i, isMesh (get h i) = false -> get (flatten world t h).2 i = get h i).
Proof.
  unfold flatten.
  destruct (foldl_flattenObject_heap (seq 0 (length h)) (t, h)) as (Hs & Hl & Hm).
  done.
Qed.

Lemma foldl_flattenObject_id l t h :
  (forall o, o ∈ l -> isMesh (get h o) = false) ->
  foldl (flattenObject world) (t, h) l = (t, h).
Proof.
  induction l as [| o l IH]; intros Hl; [done |]. simpl.
  rewrite (Hl o) by apply list_elem_of_here. apply IH.
  intros o' Ho'. by apply Hl, list_elem_of_further.
Qed.

(** X23.  On a scene without meshes the flattening pass changes neither
    the hierarchy nor the objects. *)
Theorem flatten_without_meshes t h :
  Forall (fun o => isMesh o = false) h -> flatten world t h = (t, h).
Proof.
  intros Hh. apply foldl_flattenObject_id. intros o Ho%elem_of_seq.
  rewrite Forall_forall in Hh. apply Hh. unfold get.
  apply list_elem_of_lookup_total_2. lia.
Qed.

Section Compile.

Variable isVar : string -> bool.

(** X24.  The flattening and the body of the [try] block complete,
    whatever the scene and the options, when [toFixed] accepts the
    number of digits (from 0 to 100), every instanced mesh of the scene
    has a material and, if [meta] is set, [JSON.stringify] can write
    the user data of every object. *)
Theorem sceneMarkup_succeeds (gltf : GLTF) (options : Options) :
  toFixedAccepts (digits (precision options)) = true ->
  Forall (fun o => isInstancedMesh o = true -> is_Some (material o))
         (load (scene gltf)).2 ->
  (meta options = true -> Forall (fun o => serializable o = true) (load (scene gltf)).2) ->
  exists scene_, sceneMarkup isVar world options gltf = Ok scene_.
Proof.
  intros Hdigits Hobjects Hdata.
  pose proof (allCompilable_objects options _ Hobjects Hdata) as Hall.
  clear Hobjects Hdata. rename Hall into Hobjects.
  unfold sceneMarkup.
  destruct (prepared world options gltf) as [t h] eqn:Hprep.
  assert (allCompilable options h) as Hh.
  { unfold prepared in Hprep. destruct (load (scene gltf)) as [t0 h0].
    destruct (keepgroups options); [by injection Hprep as <- <- |].
    eapply allCompilable_static; [| exact Hobjects].
    destruct (foldl_flattenObject_heap (seq 0 (length h0)) (t0, h0)) as (Hs & _).
    unfold flatten in Hprep. rewrite Hprep in Hs. exact Hs. }
  set (geometries := duplicateGeometries isVar options (load (scene gltf)).2).
  unfold compileScene.
  destruct (proj1 (print_succeeds_all isVar options (animations gltf) geometries t
                     Hdigits) h Hh) as (s1 & h1 & Hrun1).
  rewrite Hrun1. cbn [mbind Result_bind].
  destruct (keepgroups options); [eauto |].
  assert (allCompilable options h1) as Hh1.
  { eapply allCompilable_static; [| exact Hh].
    by eapply (proj1 (print_static isVar options (animations gltf) geometries t)). }
  destruct (proj1 (print_succeeds_all isVar options (animations gltf) geometries
                     (restructure t h1) Hdigits) h1 Hh1) as (s2 & h2 & Hrun2).
  rewrite Hrun2. cbn [mbind Result_bind]. eauto.
Qed.

End Compile.

End Passes.

Lemma flatten_without_meshes_witness :
  flatten localWorld (load (scene Examples.moved)).1 (load (scene Examples.moved)).2
  = ((load (scene Examples.moved)).1, (load (scene Examples.moved)).2).
Proof.
  apply (flatten_without_meshes localWorld).
  vm_compute. repeat (apply Forall_cons; split; [reflexivity |]). by apply Forall_nil.
Defined.

Lemma sceneMarkup_succeeds_witness :
  exists scene_,
    sceneMarkup isVarName localWorld defaultOptions Examples.twoRedOneOther = Ok scene_.
Proof.
  apply (sceneMarkup_succeeds localWorld isVarName Examples.twoRedOneOther defaultOptions).
  - reflexivity.
  - vm_compute.
    repeat (apply Forall_cons; split; [intros Hi; discriminate Hi |]). by apply Forall_nil.
  - intros Hmeta. discriminate Hmeta.
Defined.

(** ** The hierarchy under the passes *)

Lemma subtree_cons (o j : nat) (c : Tree) (cs : list Tree) :
  o <> j ->
  subtree o (Node j (c :: cs))
  = match subtree o c with Some s => Some s | None => subtree o (Node j cs) end.
Proof. intros Hne. cbn [subtree]. by rewrite (proj2 (Nat.eqb_neq o j) Hne). Qed.

Lemma pathTo_cons (i j : nat) (c : Tree) (cs : list Tree) :
  i <> j ->
  pathTo i (Node j (c :: cs))
  = match pathTo i c with Some p => Some (j :: p) | None => pathTo i (Node j cs) end.
Proof. intros Hne. cbn [pathTo]. by rewrite (proj2 (Nat.eqb_neq i j) Hne). Qed.

Lemma subtree_root (t : Tree) : subtree (root t) t = Some t.
Proof. destruct t as [j cs]. cbn [subtree root]. by rewrite Nat.eqb_refl. Qed.

Lemma pathTo_root (t : Tree) : pathTo (root t) t = Some [root t].
Proof. destruct t as [j cs]. cbn [pathTo root]. by rewrite Nat.eqb_refl. Qed.

Lemma root_traverse (t : Tree) : root t ∈ traverse t.
Proof. destruct t. apply list_elem_of_here. Qed.

Lemma subtree_absent (o : nat) (t : Tree) : o ∉ traverse t -> subtree o t = None.
Proof.
  induction t as [j cs IH] using Tree_ind_strong. intros Ho.
  cbn [traverse] in Ho. apply not_elem_of_cons in Ho as [Hne Ho].
  induction cs as [| c cs IHcs].
  - cbn [subtree]. by rewrite (proj2 (Nat.eqb_neq o j) Hne).
  - cbn [flat_map] in Ho. apply not_elem_of_app in Ho as [Hc Hcs].
    apply Forall_cons in IH as [IHc IH].
    rewrite subtree_cons, (IHc Hc) by done. by apply IHcs.
Qed.

Lemma pathTo_absent (i : nat) (t : Tree) : i ∉ traverse t -> pathTo i t = None.
Proof.
  induction t as [j cs IH] using Tree_ind_strong. intros Hi.
  cbn [traverse] in Hi. apply not_elem_of_cons in Hi as [Hne Hi].
  induction cs as [| c cs IHcs].
  - cbn [pathTo]. by rewrite (proj2 (Nat.eqb_neq i j) Hne).
  - cbn [flat_map] in Hi. apply not_elem_of_app in Hi as [Hc Hcs].
    apply Forall_cons in IH as [IHc IH].
    rewrite pathTo_cons, (IHc Hc) by done. by apply IHcs.
Qed.

Lemma detach_absent (o : nat) (t : Tree) : o ∉ traverse t -> detach o t = t.
Proof.
  induction t as [j cs IH] using Tree_ind_strong. intros Ho.
  cbn [traverse] in Ho. apply not_elem_of_cons in Ho as [Hne Ho].
  cbn [detach]. f_equal.
  induction cs as [| c cs IHcs]; [done |].
  cbn [flat_map] in Ho. apply not_elem_of_app in Ho as [Hc Hcs].
  apply Forall_cons in IH as [IHc IH].
  cbn [map]. rewrite (IHc Hc), filter_cons.
  destruct (decide _) as [_ | Hroot].
  - f_equal. by apply IHcs.
  - exfalso. apply Hroot. apply negb_prop_intro. intros Heq%Is_true_true%Nat.eqb_eq.
    apply Hc. rewrite <- Heq. apply root_traverse.
Qed.

Lemma attach_absent (p : nat) (sub t : Tree) : p ∉ traverse t -> attach p sub t = t.
Proof.
  induction t as [j cs IH] using Tree_ind_strong. intros Hp.
  cbn [traverse] in Hp. apply not_elem_of_cons in Hp as [Hne Hp].
  cbn [attach]. rewrite (proj2 (Nat.eqb_neq j p)) by done. f_equal.
  induction cs as [| c cs IHcs]; [done |].
  cbn [flat_map] in Hp. apply not_elem_of_app in Hp as [Hc Hcs].
  apply Forall_cons in IH as [IHc IH].
  cbn [map]. rewrite (IHc Hc). f_equal. by apply IHcs.
Qed.

(** Detaching an object that occurs once, below the root: the hierarchy
    splits into the rest and the subtree of the object. *)
Lemma detach_split (o : nat) (t : Tree) :
  NoDup (traverse t) -> o ∈ traverse t -> o <> root t ->
  exists sub,
    subtree o t = Some sub /\ root sub = o
    /\ traverse t ≡ₚ traverse (detach o t) ++ traverse sub.
Proof.
  induction t as [j cs IH] using Tree_ind_strong. intros Hnd Ho Hne.
  cbn [root] in Hne. cbn [traverse] in Hnd, Ho.
  apply NoDup_cons in Hnd as [_ Hnd].
  apply elem_of_cons in Ho as [? | Ho]; [done |].
  enough (exists sub,
            subtree o (Node j cs) = Some sub /\ root sub = o
            /\ flat_map traverse cs
               ≡ₚ flat_map traverse (children (detach o (Node j cs))) ++ traverse sub)
    as (sub & Hsub & Hroot & Hperm).
  { exists sub. split; [done |]. split; [done |].
    cbn [detach traverse]. cbn [detach children] in Hperm. by rewrite Hperm. }
  induction cs as [| c cs IHcs]; [by apply elem_of_nil in Ho |].
  apply Forall_cons in IH as [IHc IH].
  cbn [flat_map] in Hnd, Ho. apply NoDup_app in Hnd as (Hndc & Hdisj & Hndcs).
  rewrite subtree_cons by done. cbn [detach children map].
  apply elem_of_app in Ho as [Hoc | Hocs].
  - assert (o ∉ flat_map traverse cs) as Hocs by (by apply Hdisj).
    assert (filter (fun c0 : Tree => negb (root c0 =? o)) (map (detach o) cs) = cs) as Hrest.
    { assert (detach o (Node j cs) = Node j cs) as Hd.
      { apply detach_absent. cbn [traverse]. by apply not_elem_of_cons. }
      cbn [detach] in Hd. by injection Hd. }
    rewrite filter_cons, Hrest.
    destruct (decide (root c = o)) as [Heq | Hneq].
    + exists c. rewrite <- Heq at 1. rewrite subtree_root. split; [done |]. split; [done |].
      destruct (decide _) as [Hin | _].
      * exfalso. apply negb_prop_elim in Hin. apply Hin, Is_true_true, Nat.eqb_eq.
        by destruct c.
      * cbn [flat_map]. apply Permutation_app_comm.
    + destruct (IHc Hndc Hoc (not_eq_sym Hneq)) as (sub & Hsub & Hroot & Hperm).
      rewrite Hsub. exists sub. split; [done |]. split; [done |].
      destruct (decide _) as [_ | Hout].
      * cbn [flat_map]. rewrite Hperm. rewrite <- !app_assoc.
        apply Permutation_app_head, Permutation_app_comm.
      * exfalso. apply Hout. apply negb_prop_intro.
        intros Heq%Is_true_true%Nat.eqb_eq. apply Hneq. by destruct c.
  - assert (o ∉ traverse c) as Hoc.
    { intros Hoc. by apply (Hdisj o Hoc). }
    rewrite (subtree_absent o c Hoc), (detach_absent o c Hoc), filter_cons.
    destruct (IHcs IH Hndcs Hocs) as (sub & Hsub & Hroot & Hperm).
    exists sub. split; [done |]. split; [done |].
    cbn [detach children] in Hperm.
    destruct (decide _) as [_ | Hout].
    + cbn [flat_map]. rewrite Hperm. by rewrite app_assoc.
    + exfalso. apply Hout. apply negb_prop_intro.
      intros Heq%Is_true_true%Nat.eqb_eq. apply Hoc. rewrite <- Heq. apply root_traverse.
Qed.

Lemma detach_forest_subset (o : nat) (cs : list Tree) (x : nat) :
  x ∈ flat_map traverse (filter (fun c => negb (root c =? o)) (map (detach o) cs)) ->
  x ∈ flat_map traverse cs.
Proof.
  intros (c' & Hc' & Hin)%elem_of_flat_map.
  apply list_elem_of_filter in Hc' as [_ Hc'].
  apply elem_of_map in Hc' as (c & <- & Hc).
  apply traverse_detach in Hin. apply elem_of_flat_map. by exists c.
Qed.

Lemma attach_absent_forest (p : nat) (sub : Tree) (cs : list Tree) :
  p ∉ flat_map traverse cs -> map (attach p sub) cs = cs.
Proof.
  induction cs as [| c cs IH]; [done |]. cbn [flat_map map].
  intros [Hc Hcs]%not_elem_of_app. by rewrite (attach_absent p sub c Hc), IH.
Qed.

(** [gltf.scene.add(o)]: the object leaves its place and becomes the
    last child of the root. *)
Lemma add_root (o : nat) (r : nat) (cs : list Tree) :
  NoDup (traverse (Node r cs)) -> o ∈ flat_map traverse cs ->
  exists sub,
    root sub = o
    /\ add r o (Node r cs)
       = Node r (filter (fun c => negb (root c =? o)) (map (detach o) cs) ++ [sub])
    /\ traverse (add r o (Node r cs)) ≡ₚ traverse (Node r cs).
Proof.
  intros Hnd Ho.
  pose proof Hnd as Hnd'. cbn [traverse] in Hnd'. apply NoDup_cons in Hnd' as [Hr _].
  assert (o <> r) as Hne by (by intros ->).
  destruct (detach_split o (Node r cs) Hnd) as (sub & Hsub & Hroot & Hperm);
    [by apply list_elem_of_further | done |].
  exists sub. split; [done |].
  assert (add r o (Node r cs)
          = Node r (filter (fun c => negb (root c =? o)) (map (detach o) cs) ++ [sub]))
    as Hadd.
  { unfold add. rewrite (proj2 (Nat.eqb_neq r o)) by done. rewrite Hsub.
    cbn [detach attach]. rewrite Nat.eqb_refl. f_equal. f_equal.
    apply attach_absent_forest. intros Hin. by apply Hr, (detach_forest_subset o). }
  split; [done |]. rewrite Hadd. cbn [traverse]. rewrite flat_map_app. cbn [flat_map].
  rewrite app_nil_r. cbn [traverse detach] in Hperm. symmetry. exact Hperm.
Qed.

(** A child of the root has the root as its parent. *)
Lemma parent_topLevel (t : Tree) (x : nat) :
  NoDup (traverse t) -> x ∈ topLevel t -> parent t x = Some (root t).
Proof.
  destruct t as [r cs]. unfold topLevel. cbn [children root traverse].
  intros [Hr Hnd]%NoDup_cons Hx.
  assert (x <> r) as Hne.
  { intros ->. apply Hr. apply list_elem_of_fmap in Hx as (c & -> & Hc).
    apply elem_of_flat_map. exists c. split; [done | apply root_traverse]. }
  unfold parent.
  enough (pathTo x (Node r cs) = Some [r; x]) as -> by done.
  clear Hr. induction cs as [| c cs IH]; [by apply elem_of_nil in Hx |].
  cbn [flat_map] in Hnd. apply NoDup_app in Hnd as (Hndc & Hdisj & Hndcs).
  rewrite pathTo_cons by done. cbn [fmap list_fmap] in Hx.
  destruct (decide (root c = x)) as [<- | Hroot].
  - by rewrite pathTo_root.
  - apply elem_of_cons in Hx as [? | Hx]; [done |].
    rewrite pathTo_absent; [by apply IH |].
    intros Hin. apply (Hdisj x Hin).
    apply list_elem_of_fmap in Hx as (c' & -> & Hc').
    apply elem_of_flat_map. exists c'. split; [done | apply root_traverse].
Qed.

Lemma pathTo_within (i : nat) (t : Tree) (p : list nat) :
  pathTo i t = Some p ->
  exists q, p = root t :: q /\ Forall (fun y => y ∈ traverse t) p /\ last p = Some i.
Proof.
  revert p. induction t as [j cs IH] using Tree_ind_strong. intros p Hp.
  destruct (decide (i = j)) as [-> | Hne].
  { pose proof (pathTo_root (Node j cs)) as Hr. cbn [root] in Hr. rewrite Hr in Hp.
    injection Hp as <-.
    exists []. split; [done |]. split; [| done].
    apply Forall_cons. split; [apply list_elem_of_here | by apply Forall_nil]. }
  induction cs as [| c cs IHcs].
  { cbn [pathTo] in Hp. by rewrite (proj2 (Nat.eqb_neq i j)) in Hp. }
  apply Forall_cons in IH as [IHc IH].
  rewrite pathTo_cons in Hp by done.
  destruct (pathTo i c) as [p' |] eqn:Hc.
  - injection Hp as <-. destruct (IHc p' eq_refl) as (q & -> & Hall & Hlast).
    exists (root c :: q). split; [done |]. split.
    + apply Forall_cons. split; [apply list_elem_of_here |].
      eapply Forall_impl; [exact Hall |]. intros y Hy. cbn [traverse flat_map].
      apply list_elem_of_further, elem_of_app. by left.
    + exact Hlast.
  - destruct (IHcs IH Hp) as (q & -> & Hall & Hlast).
    exists q. split; [done |]. split; [| done].
    eapply Forall_impl; [exact Hall |]. intros y Hy. cbn [traverse flat_map] in Hy |- *.
    apply elem_of_cons in Hy as [-> | Hy]; [apply list_elem_of_here |].
    apply list_elem_of_further, elem_of_app. by right.
Qed.

(** An object whose parent is the root is one of the root's children. *)
Lemma topLevel_parent (t : Tree) (x : nat) :
  NoDup (traverse t) -> parent t x = Some (root t) -> x ∈ topLevel t.
Proof.
  destruct t as [r cs]. unfold topLevel, parent. cbn [children root traverse].
  intros [Hr Hnd]%NoDup_cons.
  destruct (decide (x = r)) as [-> | Hne].
  { pose proof (pathTo_root (Node r cs)) as Hself. cbn [root] in Hself.
    by rewrite Hself. }
  clear Hnd. induction cs as [| c cs IH].
  { cbn [pathTo]. by rewrite (proj2 (Nat.eqb_neq x r)). }
  rewrite pathTo_cons by done. cbn [flat_map] in Hr.
  apply not_elem_of_app in Hr as [Hrc Hrcs].
  destruct (pathTo x c) as [p |] eqn:Hc.
  - destruct (pathTo_within x c p Hc) as (q & -> & Hall & Hlast).
    intros Hparent. cbn [fmap list_fmap]. 
    destruct q as [| y q].
    + cbn in Hlast. injection Hlast as <-. apply list_elem_of_here.
    + exfalso. cbn [removelast] in Hparent.
      assert (last (r :: root c :: removelast (y :: q)) = Some r) as Hl by exact Hparent.
      rewrite last_cons_cons in Hl. 
      assert (r ∈ root c :: removelast (y :: q)) as Hin.
      { by apply last_Some_elem_of. }
      apply Hrc. apply Forall_cons in Hall as [Hroot Hall].
      apply elem_of_cons in Hin as [-> | Hin]; [done |].
      rewrite Forall_forall in Hall. apply Hall.
      clear -Hin. revert y Hin. induction q as [| z q IHq]; intros y Hin.
      * by apply elem_of_nil in Hin.
      * cbn [removelast] in Hin. apply elem_of_cons in Hin as [-> | Hin];
          [apply list_elem_of_here | by apply list_elem_of_further, IHq].
  - intros Hparent. cbn [fmap list_fmap]. apply list_elem_of_further. by apply IH.
Qed.

Section Flattening.

Variable world : list Transform -> Transform.

Lemma topLevel_add_root (o r : nat) (cs : list Tree) (sub : Tree) (x : nat) :
  root sub = o -> x ∈ root <$> cs ->
  x ∈ root <$> (filter (fun c => negb (root c =? o)) (map (detach o) cs) ++ [sub]).
Proof.
  intros Hsub Hx. rewrite fmap_app. apply elem_of_app.
  destruct (decide (x = o)) as [-> | Hne].
  - right. cbn. rewrite Hsub. apply list_elem_of_here.
  - left. apply list_elem_of_fmap in Hx as (c & -> & Hc).
    apply list_elem_of_fmap. exists (detach o c). split; [by rewrite root_detach |].
    apply list_elem_of_filter. split.
    + rewrite root_detach. apply negb_prop_intro.
      by intros Heq%Is_true_true%Nat.eqb_eq.
    + apply elem_of_map. by exists c.
Qed.

Lemma flattenObject_tree (T : Tree) (H : Heap) (o : nat) :
  NoDup (traverse T) ->
  let T' := (flattenObject world (T, H) o).1 in
  traverse T' ≡ₚ traverse T
  /\ root T' = root T
  /\ (forall x, x ∈ topLevel T -> x ∈ topLevel T')
  /\ (isMesh (get H o) = true -> o ∈ traverse T -> o <> root T -> o ∈ topLevel T').
Proof.
  intros Hnd. unfold flattenObject.
  destruct (isMesh (get H o)) eqn:Hmesh; cbn [fst]; [| done].
  case_bool_decide as Hparent.
  { split; [done |]. split; [done |]. split; [done |].
    intros _ _ _. by apply topLevel_parent. }
  destruct T as [r cs]. cbn [root].
  destruct (decide (o = r)) as [-> | Hne].
  { unfold add. rewrite Nat.eqb_refl. done. }
  destruct (decide (o ∈ flat_map traverse cs)) as [Hin | Hout].
  - destruct (add_root o r cs Hnd Hin) as (sub & Hsub & Hadd & Hperm).
    split; [done |]. split; [by rewrite root_add |]. rewrite Hadd.
    unfold topLevel. cbn [children]. split.
    + intros x Hx. by apply topLevel_add_root.
    + intros _ _ _. rewrite fmap_app. apply elem_of_app. right. cbn.
      rewrite Hsub. apply list_elem_of_here.
  - assert (subtree o (Node r cs) = None) as Hsub.
    { apply subtree_absent. cbn [traverse]. by apply not_elem_of_cons. }
    unfold add. rewrite (proj2 (Nat.eqb_neq r o)) by done. rewrite Hsub.
    split; [done |]. split; [done |]. split; [done |].
    intros _ [? | ?]%elem_of_cons; done.
Qed.

Lemma foldl_flattenObject_tree (l : list nat) (T : Tree) (H : Heap) :
  NoDup (traverse T) ->
  let T' := (foldl (flattenObject world) (T, H) l).1 in
  traverse T' ≡ₚ traverse T
  /\ root T' = root T
  /\ (forall x, x ∈ topLevel T -> x ∈ topLevel T')
  /\ (forall o, o ∈ l -> isMesh (get H o) = true -> o ∈ traverse T -> o <> root T ->
                o ∈ topLevel T').
Proof.
  revert T H. induction l as [| o l IH]; intros T H Hnd.
  { cbn. split; [done |]. split; [done |]. split; [done |].
    by intros o ?%elem_of_nil. }
  cbn [foldl].
  destruct (flattenObject_tree T H o Hnd) as (Hperm1 & Hroot1 & Htop1 & Hmesh1).
  destruct (foldl_flattenObject_heap world [o] (T, H)) as (Hstatic & _).
  cbn [foldl snd] in Hstatic.
  destruct (flattenObject world (T, H) o) as [T1 H1]. cbn [fst snd] in *.
  assert (NoDup (traverse T1)) as Hnd1 by (by rewrite Hperm1).
  destruct (IH T1 H1 Hnd1) as (Hperm & Hroot & Htop & Hmesh).
  split; [by rewrite Hperm |]. split; [congruence |]. split; [by auto |].
  intros x [-> | Hx]%elem_of_cons Hm Hin Hne.
  - by apply Htop, Hmesh1.
  - apply Hmesh; [done | | by rewrite Hperm1 | congruence].
    by rewrite (f_equal isMesh (Hstatic x) : isMesh (get H1 x) = isMesh (get H x)).
Qed.

(** X25.  On a hierarchy in which every object occurs once, the
    flattening pass loses and duplicates no object, keeps the root, and
    leaves every mesh other than the root directly below the root,
    whatever it was attached to before. *)
Theorem flatten_moves_meshes_to_root (t : Tree) (h : Heap) :
  NoDup (traverse t) ->
  traverse (flatten world t h).1 ≡ₚ traverse t
  /\ root (flatten world t h).1 = root t
  /\ forall o, o < length h -> isMesh (get h o) = true -> o ∈ traverse t ->
               o <> root t -> parent (flatten world t h).1 o = Some (root t).
Proof.
  intros Hnd. unfold flatten.
  destruct (foldl_flattenObject_tree (seq 0 (length h)) t h Hnd)
    as (Hperm & Hroot & _ & Hmesh).
  split; [done |]. split; [done |].
  intros o Hlt Hm Hin Hne. rewrite <- Hroot. apply parent_topLevel.
  - by rewrite Hperm.
  - apply Hmesh; [| done | done | done]. apply elem_of_seq. lia.
Qed.

End Flattening.

Lemma flatten_moves_meshes_to_root_witness :
  let t := (load (scene Examples.boneWithMesh)).1 in
  let h := (load (scene Examples.boneWithMesh)).2 in
  traverse (flatten localWorld t h).1 ≡ₚ traverse t
  /\ root (flatten localWorld t h).1 = root t
  /\ forall o, o < length h -> isMesh (get h o) = true -> o ∈ traverse t ->
               o <> root t -> parent (flatten localWorld t h).1 o = Some (root t).
Proof.
  intros t h. apply (flatten_moves_meshes_to_root localWorld t h).
  vm_compute. apply (bool_decide_unpack (NoDup [0; 1; 2])). exact I.
Defined.

Lemma edges_within (t : Tree) (a b : nat) :
  (a, b) ∈ edges t -> a ∈ traverse t /\ b ∈ flat_map traverse (children t).
Proof.
  induction t as [j cs IH] using Tree_ind_strong. cbn [edges traverse children].
  intros [Hin | Hin]%elem_of_app.
  - apply elem_of_map in Hin as (c & [= <- <-] & Hc). split; [apply list_elem_of_here |].
    apply elem_of_flat_map. exists c. split; [done | apply root_traverse].
  - apply elem_of_flat_map in Hin as (c & Hc & Hin).
    rewrite Forall_forall in IH. destruct (IH c Hc Hin) as [Ha Hb]. split.
    + apply list_elem_of_further, elem_of_flat_map. by exists c.
    + apply elem_of_flat_map. exists c. split; [done |].
      destruct c as [k ks]. cbn [traverse children] in *. by apply list_elem_of_further.
Qed.

Lemma edges_detach (o : nat) (t : Tree) (e : nat * nat) :
  e ∈ edges (detach o t) -> e ∈ edges t.
Proof.
  induction t as [j cs IH] using Tree_ind_strong. cbn [detach edges].
  rewrite Forall_forall in IH.
  intros [Hin | Hin]%elem_of_app; apply elem_of_app.
  - left. apply elem_of_map in Hin as (c' & <- & Hc').
    apply list_elem_of_filter in Hc' as [_ Hc'].
    apply elem_of_map in Hc' as (c & <- & Hc).
    apply elem_of_map. exists c. by rewrite root_detach.
  - right. apply elem_of_flat_map in Hin as (c' & Hc' & Hin).
    apply list_elem_of_filter in Hc' as [_ Hc'].
    apply elem_of_map in Hc' as (c & <- & Hc).
    apply elem_of_flat_map. exists c. split; [done | by apply IH].
Qed.

Lemma edges_attach (p : nat) (sub t : Tree) (e : nat * nat) :
  e ∈ edges (attach p sub t) -> e ∈ edges t \/ e = (p, root sub) \/ e ∈ edges sub.
Proof.
  revert e. induction t as [j cs IH] using Tree_ind_strong. intros e. cbn [attach edges].
  rewrite Forall_forall in IH.
  assert (forall e, e ∈ flat_map edges (map (attach p sub) cs) ->
                    e ∈ flat_map edges cs \/ e = (p, root sub) \/ e ∈ edges sub) as Hdeep.
  { intros e' (c' & Hc' & Hin)%elem_of_flat_map.
    apply elem_of_map in Hc' as (c & <- & Hc).
    destruct (IH c Hc e' Hin) as [? | ?]; [left | by right].
    apply elem_of_flat_map. by exists c. }
  assert (forall e, e ∈ map (fun c => (j, root c)) (map (attach p sub) cs) ->
                    e ∈ map (fun c => (j, root c)) cs) as Hflat.
  { intros e' (c' & <- & Hc')%elem_of_map.
    apply elem_of_map in Hc' as (c & <- & Hc).
    apply elem_of_map. exists c. by rewrite root_attach. }
  destruct (Nat.eqb_spec j p) as [-> | Hne].
  - rewrite map_app, flat_map_app. cbn [map flat_map]. rewrite app_nil_r.
    intros [[Hin | Hin]%elem_of_app | [Hin | Hin]%elem_of_app]%elem_of_app.
    + left. apply elem_of_app. left. by apply Hflat.
    + apply list_elem_of_singleton in Hin. by right; left.
    + destruct (Hdeep e Hin) as [? | ?]; [left | by right]. apply elem_of_app. by right.
    + by right; right.
  - intros [Hin | Hin]%elem_of_app.
    + left. apply elem_of_app. left. by apply Hflat.
    + destruct (Hdeep e Hin) as [? | ?]; [left | by right]. apply elem_of_app. by right.
Qed.

Lemma Within_traverse (s t : Tree) (x : nat) :
  Within s t -> x ∈ traverse s -> x ∈ traverse t.
Proof.
  induction 1 as [| j cs c Hc Hs IH]; [done |]. intros Hx.
  cbn [traverse]. apply list_elem_of_further, elem_of_flat_map. exists c. auto.
Qed.

Lemma Within_edges (s t : Tree) (e : nat * nat) :
  Within s t -> e ∈ edges s -> e ∈ edges t.
Proof.
  induction 1 as [| j cs c Hc Hs IH]; [done |]. intros He.
  cbn [edges]. apply elem_of_app. right. apply elem_of_flat_map. exists c. auto.
Qed.

Lemma Within_NoDup (s t : Tree) : Within s t -> NoDup (traverse t) -> NoDup (traverse s).
Proof.
  induction 1 as [| j cs c Hc Hs IH]; [done |]. cbn [traverse].
  intros [_ Hnd]%NoDup_cons. apply IH. clear -Hc Hnd.
  induction cs as [| c' cs IH]; [by apply elem_of_nil in Hc |].
  cbn [flat_map] in Hnd. apply NoDup_app in Hnd as (Hc' & _ & Hcs).
  apply elem_of_cons in Hc as [-> | Hc]; [done | by apply IH].
Qed.

Lemma subtree_Within (o : nat) (t s : Tree) :
  subtree o t = Some s -> Within s t /\ root s = o.
Proof.
  induction t as [j cs IH] using Tree_ind_strong.
  destruct (decide (o = j)) as [-> | Hne].
  { pose proof (subtree_root (Node j cs)) as Hr. cbn [root] in Hr. rewrite Hr.
    intros [= <-]. split; [constructor | done]. }
  induction cs as [| c cs IHcs].
  { cbn [subtree]. by rewrite (proj2 (Nat.eqb_neq o j)). }
  apply Forall_cons in IH as [IHc IH]. rewrite subtree_cons by done.
  destruct (subtree o c) as [s' |] eqn:Hc.
  - intros [= <-]. destruct (IHc eq_refl) as [Hw Hr]. split; [| done].
    eapply within_child; [apply list_elem_of_here | done].
  - intros Hs. destruct (IHcs IH Hs) as [Hw Hr]. split; [| done].
    inversion Hw as [| j' cs' c' Hc' Hs' Heq]; subst.
    + by rewrite (subtree_root (Node j cs)) in Hs.
    + eapply within_child; [by apply list_elem_of_further | done].
Qed.

Lemma pathTo_present (x : nat) (t : Tree) : x ∈ traverse t -> is_Some (pathTo x t).
Proof.
  induction t as [j cs IH] using Tree_ind_strong.
  destruct (decide (x = j)) as [-> | Hne].
  { pose proof (pathTo_root (Node j cs)) as Hr. cbn [root] in Hr. rewrite Hr. eauto. }
  cbn [traverse]. intros [? | Hx]%elem_of_cons; [done |].
  induction cs as [| c cs IHcs]; [by apply elem_of_nil in Hx |].
  apply Forall_cons in IH as [IHc IH]. rewrite pathTo_cons by done.
  destruct (pathTo x c) as [p |] eqn:Hc; [eauto |].
  cbn [flat_map] in Hx. apply elem_of_app in Hx as [Hx | Hx]; [| by apply IHcs].
  apply IHc in Hx. by destruct Hx.
Qed.

(** In a hierarchy without repetition, an object of a child is looked up
    in that child. *)
Lemma child_lookup (j : nat) (cs : list Tree) (c : Tree) (x : nat) :
  NoDup (traverse (Node j cs)) -> c ∈ cs -> x ∈ traverse c ->
  subtree x (Node j cs) = subtree x c
  /\ pathTo x (Node j cs) = (j ::.) <$> pathTo x c.
Proof.
  cbn [traverse]. intros [Hj Hnd]%NoDup_cons Hc Hx.
  assert (x <> j) as Hne.
  { intros ->. apply Hj, elem_of_flat_map. by exists c. }
  clear Hj. induction cs as [| c' cs IH]; [by apply elem_of_nil in Hc |].
  cbn [flat_map] in Hnd. apply NoDup_app in Hnd as (Hndc & Hdisj & Hndcs).
  rewrite subtree_cons, pathTo_cons by done.
  apply elem_of_cons in Hc as [<- | Hc].
  - destruct (pathTo_present x c Hx) as [p Hp]. rewrite Hp.
    split; [| done]. destruct (subtree x c) eqn:Hs; [done |].
    assert (subtree x (Node j cs) = None) as ->; [| done].
    apply subtree_absent. cbn [traverse]. apply not_elem_of_cons. split; [done |].
    by apply Hdisj.
  - assert (x ∉ traverse c') as Hout.
    { intros Hin. apply (Hdisj x Hin), elem_of_flat_map. by exists c. }
    rewrite (subtree_absent x c' Hout), (pathTo_absent x c' Hout). by apply IH.
Qed.

Lemma pathTo_detach (x c : nat) (t : Tree) (q : list nat) :
  pathTo x t = Some q -> c ∉ q -> pathTo x (detach c t) = Some q.
Proof.
  revert q. induction t as [j cs IH] using Tree_ind_strong. intros q Hq Hc.
  destruct (decide (x = j)) as [-> | Hne].
  { pose proof (pathTo_root (Node j cs)) as Hr. cbn [root] in Hr. rewrite Hr in Hq.
    injection Hq as <-.
    pose proof (pathTo_root (detach c (Node j cs))) as Hr'.
    by rewrite root_detach in Hr'. }
  cbn [detach].
  induction cs as [| c1 cs IHcs].
  { cbn [pathTo] in Hq. by rewrite (proj2 (Nat.eqb_neq x j)) in Hq. }
  apply Forall_cons in IH as [IH1 IH]. rewrite pathTo_cons in Hq by done.
  cbn [map]. rewrite filter_cons.
  destruct (pathTo x c1) as [p' |] eqn:H1.
  - injection Hq as <-. apply not_elem_of_cons in Hc as [Hcj Hc].
    destruct (pathTo_within x c1 p' H1) as (q' & -> & _ & _).
    apply not_elem_of_cons in Hc as [Hroot Hc'].
    destruct (decide _) as [_ | Hout].
    + rewrite pathTo_cons by done.
      by rewrite (IH1 (root c1 :: q') eq_refl ltac:(by apply not_elem_of_cons)).
    + exfalso. apply Hout. rewrite root_detach. apply negb_prop_intro.
      intros Heq%Is_true_true%Nat.eqb_eq. done.
  - specialize (IHcs IH Hq).
    destruct (decide _) as [_ | _]; [| done].
    rewrite pathTo_cons by done.
    destruct (pathTo x (detach c c1)) as [p' |] eqn:H1'; [| done]. exfalso.
    destruct (pathTo_within _ _ _ H1') as (q' & -> & Hall & Hlast).
    assert (x ∈ traverse (detach c c1)) as Hin.
    { rewrite Forall_forall in Hall. apply Hall. by apply last_Some_elem_of. }
    apply traverse_detach, pathTo_present in Hin. rewrite H1 in Hin. by destruct Hin.
Qed.

Lemma traverse_attach (p : nat) (sub t : Tree) (x : nat) :
  x ∈ traverse (attach p sub t) -> x ∈ traverse t \/ x ∈ traverse sub.
Proof.
  induction t as [j cs IH] using Tree_ind_strong. cbn [attach traverse].
  rewrite Forall_forall in IH.
  assert (x ∈ flat_map traverse (map (attach p sub) cs) ->
          x ∈ flat_map traverse cs \/ x ∈ traverse sub) as Hdeep.
  { intros (c' & Hc' & Hin)%elem_of_flat_map.
    apply elem_of_map in Hc' as (c & <- & Hc).
    destruct (IH c Hc Hin) as [? | ?]; [left | by right].
    apply elem_of_flat_map. by exists c. }
  intros [-> | Hx]%elem_of_cons; [left; apply list_elem_of_here |].
  destruct (j =? p).
  - rewrite flat_map_app in Hx. cbn [flat_map] in Hx. rewrite app_nil_r in Hx.
    apply elem_of_app in Hx as [Hx | Hx]; [| by right].
    destruct (Hdeep Hx) as [? | ?]; [left | by right]. by apply list_elem_of_further.
  - destruct (Hdeep Hx) as [? | ?]; [left | by right]. by apply list_elem_of_further.
Qed.

Lemma pathTo_attach (x p : nat) (sub t : Tree) (q : list nat) :
  pathTo x t = Some q -> x ∉ traverse sub -> pathTo x (attach p sub t) = Some q.
Proof.
  intros Hq Hsub. revert q Hq.
  induction t as [j cs IH] using Tree_ind_strong. intros q Hq.
  destruct (decide (x = j)) as [-> | Hne].
  { pose proof (pathTo_root (Node j cs)) as Hr. cbn [root] in Hr. rewrite Hr in Hq.
    injection Hq as <-.
    pose proof (pathTo_root (attach p sub (Node j cs))) as Hr'.
    by rewrite root_attach in Hr'. }
  cbn [attach].
  enough (forall extra,
            pathTo x (Node j (map (attach p sub) cs ++ extra)) = Some q) as Hgen.
  { destruct (j =? p); [apply Hgen |]. rewrite <- (app_nil_r (map _ cs)). apply Hgen. }
  intros extra.
  induction cs as [| c1 cs IHcs].
  { cbn [pathTo] in Hq. by rewrite (proj2 (Nat.eqb_neq x j)) in Hq. }
  apply Forall_cons in IH as [IH1 IH]. rewrite pathTo_cons in Hq by done.
  cbn [map app]. rewrite pathTo_cons by done.
  destruct (pathTo x c1) as [p' |] eqn:H1.
  - injection Hq as <-. by rewrite (IH1 p' eq_refl).
  - destruct (pathTo x (attach p sub c1)) as [p' |] eqn:H1'; [exfalso | by apply IHcs].
    destruct (pathTo_within _ _ _ H1') as (q' & -> & Hall & Hlast).
    assert (x ∈ traverse (attach p sub c1)) as Hin.
    { rewrite Forall_forall in Hall. apply Hall. by apply last_Some_elem_of. }
    apply traverse_attach in Hin as [Hin | Hin]; [| done].
    apply pathTo_present in Hin. rewrite H1 in Hin. by destruct Hin.
Qed.

Lemma attach_split (p : nat) (sub t : Tree) :
  NoDup (traverse t) -> p ∈ traverse t ->
  traverse (attach p sub t) ≡ₚ traverse t ++ traverse sub.
Proof.
  induction t as [j cs IH] using Tree_ind_strong. intros Hnd Hp.
  cbn [traverse] in Hnd, Hp. apply NoDup_cons in Hnd as [Hj Hnd].
  cbn [attach traverse].
  destruct (Nat.eqb_spec j p) as [-> | Hne].
  - rewrite attach_absent_forest by done. rewrite flat_map_app. cbn [flat_map].
    by rewrite app_nil_r.
  - apply elem_of_cons in Hp as [? | Hp]; [done |]. cbn [app]. f_equiv.
    clear Hj. induction cs as [| c cs IHcs]; [by apply elem_of_nil in Hp |].
    apply Forall_cons in IH as [IHc IH].
    cbn [flat_map] in Hnd, Hp. apply NoDup_app in Hnd as (Hndc & Hdisj & Hndcs).
    cbn [map flat_map].
    apply elem_of_app in Hp as [Hpc | Hpcs].
    + rewrite attach_absent_forest by (by apply Hdisj).
      rewrite (IHc Hndc Hpc). rewrite <- !app_assoc.
      apply Permutation_app_head, Permutation_app_comm.
    + assert (p ∉ traverse c) as Hpc by (intros Hpc; by apply (Hdisj p Hpc)).
      rewrite (attach_absent p sub c Hpc), (IHcs IH Hndcs Hpcs). by rewrite app_assoc.
Qed.

(** The proper ancestors of an object: none lies in the subtree of the
    object, and the path to each consists of proper ancestors. *)
Lemma ancestors_above (o : nat) (t : Tree) (path : list nat) (so : Tree) :
  NoDup (traverse t) -> pathTo o t = Some path -> subtree o t = Some so ->
  forall a, a ∈ removelast path ->
    (a ∉ traverse so)
    /\ exists q, pathTo a t = Some q /\ forall y, y ∈ q -> y ∈ removelast path.
Proof.
  revert path. induction t as [j cs IH] using Tree_ind_strong. intros path Hnd Hpath Hso.
  destruct (decide (o = j)) as [-> | Hne].
  { pose proof (pathTo_root (Node j cs)) as Hr. cbn [root] in Hr. rewrite Hr in Hpath.
    injection Hpath as <-. by intros a ?%elem_of_nil. }
  assert (o ∈ flat_map traverse cs) as Ho.
  { destruct (pathTo_within _ _ _ Hpath) as (q & -> & Hall & Hlast).
    rewrite Forall_forall in Hall. specialize (Hall o (last_Some_elem_of _ _ Hlast)).
    cbn [traverse] in Hall. by apply elem_of_cons in Hall as [? | ?]. }
  apply elem_of_flat_map in Ho as (c & Hc & Hoc).
  destruct (child_lookup j cs c o Hnd Hc Hoc) as [Hsub Hp].
  rewrite Hsub in Hso. rewrite Hp in Hpath.
  destruct (pathTo o c) as [p' |] eqn:Hpc; [| done]. injection Hpath as <-.
  assert (NoDup (traverse c)) as Hndc.
  { apply (Within_NoDup c (Node j cs)); [| done].
    eapply within_child; [done | constructor]. }
  rewrite Forall_forall in IH. specialize (IH c Hc p' Hndc Hpc Hso).
  destruct (pathTo_within _ _ _ Hpc) as (q' & -> & _ & _).
  assert (removelast (j :: root c :: q') = j :: removelast (root c :: q')) as Hrl by done.
  rewrite Hrl. pose proof Hnd as Hnd'. cbn [traverse] in Hnd'.
  apply NoDup_cons in Hnd' as [Hj _].
  intros a [-> | Ha]%elem_of_cons.
  - split.
    + intros Hin. apply Hj, elem_of_flat_map. exists c. split; [done |].
      destruct (subtree_Within _ _ _ Hso) as [Hw _]. by eapply Within_traverse.
    + exists [j]. split.
      * pose proof (pathTo_root (Node j cs)) as Hr. by cbn [root] in Hr.
      * intros y ->%list_elem_of_singleton. apply list_elem_of_here.
  - destruct (IH a Ha) as (Hout & q & Hq & Hsubq). split; [done |].
    exists (j :: q). split.
    + assert (a ∈ traverse c) as Hac.
      { destruct (pathTo_within _ _ _ Hq) as (q0 & -> & Hall & Hlast).
        rewrite Forall_forall in Hall. apply Hall. by apply last_Some_elem_of. }
      destruct (child_lookup j cs c a Hnd Hc Hac) as [_ ->]. by rewrite Hq.
    + intros y [-> | Hy]%elem_of_cons; [apply list_elem_of_here |].
      by apply list_elem_of_further, Hsubq.
Qed.

Lemma kidsOf_edges (t : Tree) (o c : nat) : c ∈ kidsOf t o -> (o, c) ∈ edges t.
Proof.
  unfold kidsOf. destruct (subtree o t) as [so |] eqn:Hso; [| by intros ?%elem_of_nil].
  intros (ch & -> & Hch)%list_elem_of_fmap.
  destruct (subtree_Within _ _ _ Hso) as [Hw <-].
  apply (Within_edges so t); [done |]. destruct so as [j cs]. cbn [edges root children] in *.
  apply elem_of_app. left. apply elem_of_map. by exists ch.
Qed.

Lemma edges_kidsOf (t : Tree) (o c : nat) :
  NoDup (traverse t) -> (o, c) ∈ edges t -> c ∈ kidsOf t o.
Proof.
  induction t as [j cs IH] using Tree_ind_strong. intros Hnd. cbn [edges].
  intros [Hin | Hin]%elem_of_app.
  - apply elem_of_map in Hin as (ch & [= <- <-] & Hch).
    unfold kidsOf. pose proof (subtree_root (Node j cs)) as Hr. cbn [root] in Hr.
    rewrite Hr. cbn [children]. apply list_elem_of_fmap. by exists ch.
  - apply elem_of_flat_map in Hin as (ch & Hch & Hin).
    destruct (edges_within _ _ _ Hin) as [Ho _].
    destruct (child_lookup j cs ch o Hnd Hch Ho) as [Hsub _].
    unfold kidsOf. rewrite Hsub. rewrite Forall_forall in IH. apply (IH ch Hch); [| done].
    apply (Within_NoDup ch (Node j cs)); [| done].
    eapply within_child; [done | constructor].
Qed.

(** [p.add(c)] for an object [c] below the root and a parent [p] that is
    not below [c]: no object is lost, the path to [p] stays, and the one
    new parent-child pair is (p, c). *)
Lemma add_moves (p c : nat) (t : Tree) (q : list nat) :
  NoDup (traverse t) -> pathTo p t = Some q -> c ∉ q -> c ∈ traverse t ->
  c <> root t ->
  traverse (add p c t) ≡ₚ traverse t
  /\ pathTo p (add p c t) = Some q
  /\ (forall e, e ∈ edges (add p c t) -> e ∈ edges t \/ e = (p, c))
  /\ (forall a, (a, c) ∈ edges (add p c t) -> a = p).
Proof.
  intros Hnd Hq Hcq Hc Hroot.
  destruct (pathTo_within _ _ _ Hq) as (q0 & Hq0 & Hall & Hlast).
  assert (p <> c) as Hpc.
  { intros ->. by apply Hcq, last_Some_elem_of. }
  destruct (detach_split c t Hnd Hc Hroot) as (sub & Hsub & Hrs & Hperm).
  pose proof (pathTo_detach p c t q Hq Hcq) as Hq'.
  assert (p ∈ traverse (detach c t)) as Hp.
  { destruct (pathTo_within _ _ _ Hq') as (q1 & _ & Hall' & Hlast').
    rewrite Forall_forall in Hall'. apply Hall'. by apply last_Some_elem_of. }
  pose proof Hnd as Hnd'. rewrite Hperm in Hnd'.
  apply NoDup_app in Hnd' as (Hndd & Hdisj & Hnds).
  assert (p ∉ traverse sub) as Hps by (by apply Hdisj).
  unfold add. rewrite (proj2 (Nat.eqb_neq p c)) by done. rewrite Hsub.
  split; [by rewrite (attach_split p sub _ Hndd Hp), Hperm |].
  split; [by apply pathTo_attach |].
  destruct (subtree_Within _ _ _ Hsub) as [Hw _].
  assert (forall e, e ∈ edges (attach p sub (detach c t)) ->
                    e ∈ edges (detach c t) \/ e = (p, c) \/ e ∈ edges sub) as Hedges.
  { intros e He. apply edges_attach in He. by rewrite Hrs in He. }
  split.
  - intros e He. destruct (Hedges e He) as [Hd | [-> | Hs]]; [left | by right | left].
    + by eapply edges_detach.
    + by eapply Within_edges.
  - intros a Ha. destruct (Hedges _ Ha) as [Hd | [[= ->] | Hs]]; [exfalso | done | exfalso].
    + destruct (edges_within _ _ _ Hd) as [_ Hin].
      assert (c ∈ traverse (detach c t)) as Hin'.
      { destruct (detach c t) as [j cs]. cbn [children traverse] in *.
        by apply list_elem_of_further. }
      apply Hroot. by eapply detach_gone.
    + destruct (edges_within _ _ _ Hs) as [_ Hin].
      destruct sub as [j cs]. cbn [root children traverse] in *. subst j.
      by apply NoDup_cons in Hnds as [Hj _].
Qed.

Lemma move_kids (p : nat) (q kids : list nat) (T : Tree) :
  NoDup (traverse T) -> pathTo p T = Some q ->
  (forall c, c ∈ kids -> (c ∉ q) /\ c ∈ traverse T /\ c <> root T) ->
  let T' := foldl (fun t c => add p c t) T kids in
  traverse T' ≡ₚ traverse T
  /\ root T' = root T
  /\ (forall e, e ∈ edges T' -> e ∈ edges T \/ exists c, c ∈ kids /\ e = (p, c))
  /\ (forall c a, c ∈ kids -> (a, c) ∈ edges T' -> a = p).
Proof.
  revert T. induction kids as [| c kids IH]; intros T Hnd Hq Hkids.
  { cbn. split; [done |]. split; [done |]. split; [by left |].
    by intros c a ?%elem_of_nil. }
  cbn [foldl]. cbv zeta.
  destruct (Hkids c (list_elem_of_here _ _)) as (Hcq & Hc & Hroot).
  destruct (add_moves p c T q Hnd Hq Hcq Hc Hroot) as (Hperm1 & Hq1 & Hedges1 & Hinto1).
  assert (NoDup (traverse (add p c T))) as Hnd1 by (by rewrite Hperm1).
  destruct (IH (add p c T) Hnd1 Hq1) as (Hperm & Hr & Hedges & Hinto).
  { intros c' Hc'. destruct (Hkids c' (list_elem_of_further _ _ _ Hc')) as (? & ? & ?).
    split; [done |]. split; [by rewrite Hperm1 | by rewrite root_add]. }
  split; [by rewrite Hperm |]. split; [by rewrite Hr, root_add |]. split.
  - intros e He. destruct (Hedges e He) as [He1 | (c' & Hc' & ->)].
    + destruct (Hedges1 e He1) as [? | ->]; [by left |].
      right. exists c. split; [apply list_elem_of_here | done].
    + right. exists c'. split; [by apply list_elem_of_further | done].
  - intros c' a [-> | Hc']%elem_of_cons Ha; [| by eapply Hinto].
    destruct (Hedges _ Ha) as [Ha1 | (c'' & _ & [= -> _])]; [by apply Hinto1 | done].
Qed.

Lemma subtree_present (o : nat) (t : Tree) :
  NoDup (traverse t) -> o ∈ traverse t -> is_Some (subtree o t).
Proof.
  intros Hnd Ho. destruct (decide (o = root t)) as [-> | Hne].
  - rewrite subtree_root. eauto.
  - destruct (detach_split o t Hnd Ho Hne) as (sub & -> & _). eauto.
Qed.

Section Restructuring.

Variable h : Heap.

Lemma moveChildren_step (T : Tree) (o : nat) :
  NoDup (traverse T) ->
  let T' := moveChildren h T o in
  traverse T' ≡ₚ traverse T
  /\ root T' = root T
  /\ (forall a b, (a, b) ∈ edges T' ->
        (a, b) ∈ edges T \/ a = root T \/ __removed (get h a) = false)
  /\ (__removed (get h o) = true -> o <> root T -> forall b, (o, b) ∉ edges T').
Proof.
  intros Hnd. unfold moveChildren.
  destruct (__removed (get h o)) eqn:Hmark.
  2: { cbv zeta. split; [done |]. split; [done |]. split; [by auto | done]. }
  fold (kidsOf T o). cbv zeta.
  destruct (decide (o ∈ traverse T)) as [Ho | Ho].
  2: { unfold kidsOf. rewrite (subtree_absent o T Ho). cbn.
       split; [done |]. split; [done |]. split; [by auto |].
       intros _ _ b Hb. by destruct (edges_within _ _ _ Hb). }
  destruct (pathTo_present o T Ho) as [path Hpath].
  destruct (subtree_present o T Hnd Ho) as [so Hso].
  set (p := survivingParent T h o).
  assert (forall c, c ∈ kidsOf T o ->
            c ∈ traverse so /\ c ∈ traverse T /\ c <> root T) as Hkids.
  { intros c Hc. split.
    - unfold kidsOf in Hc. rewrite Hso in Hc.
      apply list_elem_of_fmap in Hc as (ch & -> & Hch).
      destruct so as [j cs]. cbn [children traverse] in *.
      apply list_elem_of_further, elem_of_flat_map. exists ch.
      split; [done | apply root_traverse].
    - apply kidsOf_edges, edges_within in Hc as [_ Hc].
      destruct T as [r cs]. cbn [children traverse root] in *.
      split; [by apply list_elem_of_further |]. intros ->.
      by apply NoDup_cons in Hnd as [Hr _]. }
  assert ((p = root T \/ __removed (get h p) = false)
          /\ (o <> root T -> p <> o)
          /\ exists q, pathTo p T = Some q /\ forall c, c ∈ kidsOf T o -> c ∉ q)
    as (Hp & Hpo & q & Hq & Hcq).
  { unfold p, survivingParent. rewrite Hpath. unfold default. cbn [from_option id].
    destruct (find _ _) as [a |] eqn:Hfind; cbn [from_option id].
    - apply find_some in Hfind as [Ha Hun]. apply negb_true_iff in Hun.
      apply list_elem_of_In in Ha. rewrite elem_of_reverse in Ha.
      destruct (ancestors_above o T path so Hnd Hpath Hso a Ha) as (Hout & q & Hq & Hsub).
      split; [by right |]. split; [intros _ ->; congruence |].
      exists q. split; [done |]. intros c Hc Hin.
      destruct (Hkids c Hc) as (Hcso & _).
      by destruct (ancestors_above o T path so Hnd Hpath Hso c (Hsub c Hin)) as [Hno _].
    - split; [by left |]. split; [by auto |].
      exists [root T]. split; [apply pathTo_root |].
      intros c Hc ->%list_elem_of_singleton. by destruct (Hkids _ Hc) as (_ & _ & ?). }
  destruct (move_kids p q (kidsOf T o) T Hnd Hq) as (Hperm & Hroot & Hedges & Hinto).
  { intros c Hc. split; [by apply Hcq |]. by destruct (Hkids c Hc) as (_ & ? & ?). }
  split; [done |]. split; [done |]. split.
  - intros a b Hab. destruct (Hedges _ Hab) as [? | (c & _ & Heq)]; [by left |].
    injection Heq as Ha _. rewrite Ha. by right.
  - intros _ Hne b Hb. apply (Hpo Hne).
    destruct (Hedges _ Hb) as [Hold | (c & _ & Heq)]; [| by injection Heq as Ha _].
    symmetry. apply (Hinto b o); [by apply edges_kidsOf | done].
Qed.

Lemma moveChildren_pass (l : list nat) (T : Tree) :
  NoDup (traverse T) ->
  let T' := foldl (moveChildren h) T l in
  traverse T' ≡ₚ traverse T
  /\ root T' = root T
  /\ (forall a b, (a, b) ∈ edges T' ->
        (a, b) ∈ edges T \/ a = root T \/ __removed (get h a) = false)
  /\ (forall o, o ∈ l -> __removed (get h o) = true -> o <> root T ->
                forall b, (o, b) ∉ edges T').
Proof.
  revert T. induction l as [| o l IH]; intros T Hnd.
  { cbn. split; [done |]. split; [done |]. split; [by auto |].
    by intros o ?%elem_of_nil. }
  cbn [foldl]. cbv zeta.
  destruct (moveChildren_step T o Hnd) as (Hperm1 & Hroot1 & Hedges1 & Hleaf1).
  assert (NoDup (traverse (moveChildren h T o))) as Hnd1 by (by rewrite Hperm1).
  destruct (IH _ Hnd1) as (Hperm & Hroot & Hedges & Hleaf).
  split; [by rewrite Hperm |]. split; [congruence |]. split.
  - intros a b Hab. destruct (Hedges _ _ Hab) as [H1 | [Heq | Hun]].
    + by apply Hedges1.
    + right. left. congruence.
    + by right; right.
  - intros x [-> | Hx]%elem_of_cons Hmark Hne b Hb.
    + destruct (Hedges _ _ Hb) as [H1 | [Heq | Hun]]; [| congruence | congruence].
      by apply (Hleaf1 Hmark Hne b).
    + apply (Hleaf x Hx Hmark ltac:(congruence) b Hb).
Qed.

Lemma detach_root (T : Tree) : NoDup (traverse T) -> detach (root T) T = T.
Proof.
  destruct T as [r cs]. cbn [root traverse]. intros [Hr _]%NoDup_cons.
  assert (detach r (Node (S r) cs) = Node (S r) cs) as Hd.
  { apply detach_absent. cbn [traverse]. apply not_elem_of_cons. split; [lia | done]. }
  cbn [detach] in Hd |- *. by injection Hd as ->.
Qed.

Lemma removeDeleted_sweep (l : list nat) (T : Tree) :
  NoDup (traverse T) ->
  (forall o, o ∈ l -> __removed (get h o) = true -> o <> root T ->
             forall b, (o, b) ∉ edges T) ->
  let T' := foldl (removeDeleted h) T l in
  NoDup (traverse T')
  /\ forall x, x ∈ traverse T'
       <-> x ∈ traverse T
           /\ ~ (x ∈ l /\ __removed (get h x) = true /\ x <> root T).
Proof.
  revert T. induction l as [| o l IH]; intros T Hnd Hleaf.
  { cbn. split; [done |]. intros x. split; [| by intros [? _]].
    intros Hx. split; [done |]. by intros [?%elem_of_nil _]. }
  cbn [foldl]. cbv zeta.
  assert (exists T1,
            removeDeleted h T o = T1 /\ NoDup (traverse T1) /\ root T1 = root T
            /\ (forall e, e ∈ edges T1 -> e ∈ edges T)
            /\ forall x, x ∈ traverse T1
                 <-> x ∈ traverse T
                     /\ ~ (x = o /\ __removed (get h x) = true /\ x <> root T))
    as (T1 & -> & Hnd1 & Hroot1 & Hedges1 & Hmem1).
  { assert (~ (__removed (get h o) = true /\ o <> root T /\ o ∈ traverse T) ->
            NoDup (traverse T) /\ root T = root T
            /\ (forall e, e ∈ edges T -> e ∈ edges T)
            /\ forall x, x ∈ traverse T
                 <-> x ∈ traverse T
                     /\ ~ (x = o /\ __removed (get h x) = true /\ x <> root T))
      as Hsame.
    { intros Hno. split; [done |]. split; [done |]. split; [done |].
      intros x. split; [| by intros [? _]]. intros Hx. split; [done |].
      intros (-> & Hm & Hr). by apply Hno. }
    unfold removeDeleted. destruct (__removed (get h o)) eqn:Hmark.
    2: { exists T. split; [done |]. apply Hsame. by intros [? _]. }
    destruct (decide (o = root T)) as [Heq | Hne].
    { exists T. split; [rewrite Heq; by apply detach_root |].
      apply Hsame. by intros (_ & ? & _). }
    destruct (decide (o ∈ traverse T)) as [Ho | Ho].
    2: { exists T. split; [by apply detach_absent |]. apply Hsame. by intros (_ & _ & ?). }
    destruct (detach_split o T Hnd Ho Hne) as (sub & Hsub & Hrs & Hperm).
    assert (traverse sub = [o]) as Hleafo.
    { destruct (subtree_Within _ _ _ Hsub) as [Hw _].
      destruct sub as [j [| ch cs]]; cbn [root] in Hrs; subst j; [done |]. exfalso.
      apply (Hleaf o (list_elem_of_here _ _) Hmark Hne (root ch)).
      apply (Within_edges _ _ _ Hw). cbn [edges map]. apply list_elem_of_here. }
    rewrite Hleafo in Hperm.
    exists (detach o T). split; [done |].
    pose proof Hnd as Hnd'. rewrite Hperm in Hnd'.
    apply NoDup_app in Hnd' as (Hndd & Hdisj & _).
    split; [done |]. split; [apply root_detach |].
    split; [intros e; apply edges_detach |].
    intros x. rewrite Hperm. split.
    - intros Hx. split; [apply elem_of_app; by left |].
      intros (-> & _ & _). apply (Hdisj o Hx), list_elem_of_here.
    - intros [[Hx | ->%list_elem_of_singleton]%elem_of_app Hnot]; [done |].
      exfalso. by apply Hnot. }
  destruct (IH T1 Hnd1) as (Hnd' & Hmem).
  { intros o' Ho' Hmark Hne b Hb. rewrite Hroot1 in Hne.
    apply (Hleaf o' (list_elem_of_further _ _ _ Ho') Hmark Hne b). by apply Hedges1. }
  split; [done |]. intros x. rewrite Hmem, Hmem1, Hroot1. split.
  - intros [[Hx Hno] Hnl]. split; [done |].
    intros ([-> | Hxl]%elem_of_cons & Hmark & Hne); [by apply Hno | by apply Hnl].
  - intros [Hx Hnot]. split; [split; [done |] |].
    + intros (-> & Hmark & Hne). apply Hnot. split; [apply list_elem_of_here | done].
    + intros (Hxl & Hmark & Hne). apply Hnot. split; [by apply list_elem_of_further | done].
Qed.

(** X26.  On a hierarchy in which every object occurs once, the
    restructuring pass keeps exactly the root and the objects without a
    removal mark, each of them once: no surviving object is lost with a
    removed parent. *)
Theorem restructure_keeps_survivors (t : Tree) :
  NoDup (traverse t) ->
  NoDup (traverse (restructure t h))
  /\ forall x, x ∈ traverse (restructure t h)
       <-> x ∈ traverse t /\ (x = root t \/ __removed (get h x) = false).
Proof.
  intros Hnd. unfold restructure.
  destruct (moveChildren_pass (seq 0 (length h)) t Hnd) as (Hperm & Hroot & Hedges & Hleaf).
  set (T1 := foldl (moveChildren h) t (seq 0 (length h))) in *.
  assert (NoDup (traverse T1)) as Hnd1 by (by rewrite Hperm).
  destruct (removeDeleted_sweep (seq 0 (length h)) T1 Hnd1) as (Hnd2 & Hmem).
  { intros o Ho Hmark Hne. rewrite Hroot in Hne. by apply Hleaf. }
  split; [done |]. intros x. rewrite Hmem, Hperm, Hroot. split.
  - intros [Hx Hnot]. split; [done |].
    destruct (decide (x = root t)) as [| Hne]; [by left |]. right.
    destruct (__removed (get h x)) eqn:Hmark; [| done]. exfalso. apply Hnot.
    split; [| done]. apply elem_of_seq. split; [lia |].
    destruct (decide (x < length h)) as [| Hge]; [lia |]. exfalso.
    unfold get in Hmark. rewrite list_lookup_total_alt, lookup_ge_None_2 in Hmark by lia.
    done.
  - intros [Hx Hkeep]. split; [done |]. intros (_ & Hmark & Hne).
    destruct Hkeep as [? | ?]; [done | congruence].
Qed.

End Restructuring.

Lemma restructure_keeps_survivors_witness :
  let t := (load (scene Examples.moved)).1 in
  let h := update 0 (set_removed true) (update 1 (set_removed true)
             (load (scene Examples.moved)).2) in
  NoDup (traverse (restructure t h))
  /\ forall x, x ∈ traverse (restructure t h)
       <-> x ∈ traverse t /\ (x = root t \/ __removed (get h x) = false).
Proof.
  intros t h. apply (restructure_keeps_survivors h t).
  vm_compute. apply (bool_decide_unpack (NoDup [0; 1; 2])). exact I.
Defined.

Lemma Object_ind_strong (P : Object -> Prop) :
  (forall f cs, Forall P cs -> P (Obj f cs)) -> forall o, P o.
Proof.
  intros Hobj. fix IH 1. intros [f cs]. apply Hobj.
  induction cs as [| c cs IHcs]; constructor; [apply IH | exact IHcs].
Qed.

(** [load] numbers the objects in the order of the traversal: the
    hierarchy, read in pre-order, is 0, 1, 2, ... up to the number of
    objects. *)
Lemma load_from_preorder (o : Object) (next : nat) :
  traverse (load_from next o).1 = seq next (length (load_from next o).2)
  /\ root (load_from next o).1 = next.
Proof.
  revert next. induction o as [f cs IH] using Object_ind_strong. intros next.
  cbn [load_from].
  set (go := fix go (n : nat) (cs : list Object) {struct cs} : list Tree * Heap :=
         match cs with
         | [] => ([], [])
         | c :: cs' =>
             let '(t, os) := load_from n c in
             let '(ts, os') := go (n + length os) cs' in (t :: ts, os ++ os')
         end).
  assert (forall n, flat_map traverse (go n cs).1 = seq n (length (go n cs).2)) as Hgo.
  { induction cs as [| c cs IHcs]; intros n; [done |].
    apply Forall_cons in IH as [IHc IH]. cbn [go].
    destruct (IHc n) as [Hc _]. specialize (IHcs IH (n + length (load_from n c).2)).
    destruct (load_from n c) as [t os]. cbn [fst snd] in *.
    destruct (go (n + length os) cs) as [ts os']. cbn [fst snd flat_map] in *.
    by rewrite Hc, IHcs, length_app, seq_app. }
  specialize (Hgo (S next)). destruct (go (S next) cs) as [ts os].
  cbn [fst snd traverse root length] in *. split; [| done]. by rewrite Hgo.
Qed.

Section Prepared.

Variable world : list Transform -> Transform.

Lemma prepared_tree (options : Options) (gltf : GLTF) :
  let t := (prepared world options gltf).1 in
  let h := (prepared world options gltf).2 in
  root t = 0
  /\ length h = length (load (scene gltf)).2
  /\ traverse t ≡ₚ seq 0 (length h)
  /\ (keepgroups options = false ->
      forall o, o < length h -> isMesh (get h o) = true -> o <> 0 -> parent t o = Some 0).
Proof.
  unfold prepared.
  destruct (load_from_preorder (scene gltf) 0) as [Hpre Hroot]. fold (load (scene gltf)) in *.
  destruct (load (scene gltf)) as [t0 h0]. cbn [fst snd] in *.
  assert (NoDup (traverse t0)) as Hnd by (rewrite Hpre; apply NoDup_seq).
  destruct (keepgroups options).
  { cbn [fst snd]. split; [done |]. split; [done |]. split; [by rewrite Hpre | done]. }
  destruct (foldl_flattenObject_tree world (seq 0 (length h0)) t0 h0 Hnd)
    as (Hperm & Hr & _ & Hmesh).
  fold (flatten world t0 h0) in Hperm, Hr, Hmesh.
  destruct (foldl_flattenObject_heap world (seq 0 (length h0)) (t0, h0))
    as (Hstatic & Hlen & _).
  fold (flatten world t0 h0) in Hstatic, Hlen. cbn [snd] in Hstatic, Hlen.
  split; [congruence |]. split; [done |]. split; [by rewrite Hperm, Hlen, Hpre |].
  intros _ o Hlt Hm Hne. rewrite <- Hroot, <- Hr. apply parent_topLevel.
  - by rewrite Hperm.
  - apply Hmesh; [apply elem_of_seq; lia | | | congruence].
    + by rewrite <- (f_equal isMesh (Hstatic o)
                      : isMesh (get (flatten world t0 h0).2 o) = isMesh (get h0 o)).
    + rewrite Hpre. apply elem_of_seq. lia.
Qed.


(** X27.  The hierarchy the [try] block starts from: its root is the
    scene, it holds every collected object once, and, unless
    [keepgroups] is set, every mesh other than the scene is a child of
    the scene. *)
Theorem prepared_hierarchy (options : Options) (gltf : GLTF) :
  let t := (prepared world options gltf).1 in
  let h := (prepared world options gltf).2 in
  root t = 0
  /\ length h = length (load (scene gltf)).2
  /\ traverse t ≡ₚ seq 0 (length h)
  /\ (keepgroups options = false ->
      forall o, o < length h -> isMesh (get h o) = true -> o <> 0 -> parent t o = Some 0).
Proof. exact (prepared_tree options gltf). Qed.

End Prepared.

(** C10, amended.  With the [bones] option unset, [print] of a bone that
    is not marked removed is the one self-closing primitive reference,
    whatever hangs below the bone at that moment, and nothing below it is
    visited: the heap is left as it was.  Unless [keepgroups] is set, the
    flattening pass has run before: in the hierarchy the compile recursion
    starts from, every mesh other than the scene is a child of the scene,
    whatever bone it was below in the loaded graph. *)
Theorem bone_subtree_not_compiled (isVar : string -> bool) (options : Options)
    (clips : list string) (geometries : gmap string DuplicateRecord) :
  bones options = false ->
  (forall (id : nat) (kids : list Tree) (h : Heap),
     getType (get h id) = "bone" ->
     __removed (get h id) = false ->
     print isVar options clips geometries (Node id kids) h
     = Ok ("<TresPrimitive "
           +:+ attr ":object" ("nodes" +:+ sanitizeName isVar (name (get h id)))
           +:+ "/>", h))
  /\ (keepgroups options = false ->
      forall (world : list Transform -> Transform) (gltf : GLTF) (o : nat),
        let t := (prepared world options gltf).1 in
        let h := (prepared world options gltf).2 in
        o < length h -> isMesh (get h o) = true -> o <> root t ->
        parent t o = Some (root t)).
Proof.
  intros Hbones. split.
  - intros id kids h Hty Hrem.
    cbn [print]. rewrite Hrem, Hbones, Hty. cbn [andb negb].
    change (String.eqb "bone" "bone") with true. cbn [andb].
    unfold bonePrimitive, nodeRef. by rewrite append_empty_r.
  - intros Hkeep world gltf o t h Hlt Hmesh Hne.
    destruct (prepared_tree world options gltf) as (Hroot & _ & _ & Hparent).
    fold t in Hroot. fold t h in Hparent. rewrite Hroot in Hne |- *.
    by apply Hparent.
Qed.

Lemma bone_subtree_not_compiled_witness :
  print isVarName defaultOptions [] ∅ (Node 1 [Node 2 []])
    (load (scene Examples.boneWithMesh)).2
  = Ok ("<TresPrimitive " +:+ attr ":object" "nodes.B" +:+ "/>",
        (load (scene Examples.boneWithMesh)).2)
  /\ parent (prepared localWorld defaultOptions Examples.boneWithMesh).1 2 = Some 0.
Proof.
  destruct (bone_subtree_not_compiled isVarName defaultOptions [] ∅ eq_refl)
    as [Hbone Hmesh].
  split.
  - exact (Hbone 1 [Node 2 []] (load (scene Examples.boneWithMesh)).2 eq_refl eq_refl).
  - apply (Hmesh eq_refl localWorld Examples.boneWithMesh 2).
    + vm_compute. lia.
    + reflexivity.
    + intros Heq. vm_compute in Heq. discriminate Heq.
Defined.

(** ** The document *)

Ltac seek :=
  repeat
    lazymatch goal with
    | |- includes (?x +:+ _) (?x +:+ _) = true => fail
    | |- includes (?x +:+ _) ?x = true => fail
    | |- includes (_ +:+ _) _ = true => apply includes_skip
    end;
  apply includes_prefix; rewrite ?prefix_cancel; apply prefix_append.

(** X28.  Every text [parse] returns opens with the comment header,
    which is followed by the script block, has the template block open
    after the script block, and ends with the closing of the group and
    of the template; for a file with animations the script block calls
    [useAnimations]. *)
Theorem parse_output_frame (isVar : string -> bool)
    (world : list Transform -> Transform) (gltf : GLTF) (fileName : string)
    (options : Options) (out : string) :
  parse isVar world gltf fileName options = Ok out ->
  startsWith out ("/*" +:+ nl) = true
  /\ includes out ("*/" +:+ nl +:+ "<script setup lang=" +:+ dq +:+ "ts" +:+ dq +:+ ">")
     = true
  /\ includes out ("</script>" +:+ nl +:+ nl +:+ "<template>" +:+ nl +:+ "  <TresGroup>")
     = true
  /\ endsWith out ("  </TresGroup>" +:+ nl +:+ "</template>") = true
  /\ (animations gltf <> [] ->
      includes out "const { actions } = useAnimations(animations)" = true).
Proof.
  unfold parse. destruct (sceneMarkup isVar world options gltf) as [scene_ | e]; [| done].
  intros [= <-]. unfold headerText, document.
  rewrite !append_assoc.
  split; [| split; [| split; [| split]]].
  - unfold startsWith. rewrite <- (append_assoc "/*" nl). apply prefix_append.
  - seek.
  - seek.
  - repeat first [apply endsWith_append | apply endsWith_skip].
  - intros Hanim. destruct (animations gltf); [done |]. cbn [length Nat.ltb Nat.leb when].
    seek.
Qed.

Lemma parse_output_frame_witness :
  startsWith (headerText defaultOptions emptyJson +:+ nl
              +:+ document "/model" false "" Examples.lightMarkup) ("/*" +:+ nl) = true.
Proof.
  apply (parse_output_frame isVarName localWorld Examples.moved "model" defaultOptions).
  vm_compute. reflexivity.
Defined.

(** * The output and the type description *)

Lemma toUpperChar_cases (c : ascii) :
  toUpperChar c = c \/ markupChar (toUpperChar c) = true.
Proof. destruct c as [[] [] [] [] [] [] [] []]; vm_compute; by auto. Qed.

Lemma toLowerChar_cases (c : ascii) :
  toLowerChar c = c \/ markupChar (toLowerChar c) = true.
Proof. destruct c as [[] [] [] [] [] [] [] []]; vm_compute; by auto. Qed.

Lemma is_letter_toUpperChar (c : ascii) :
  is_letter c = true -> is_letter (toUpperChar c) = true.
Proof. destruct c as [[] [] [] [] [] [] [] []]; vm_compute; congruence. Qed.

Lemma every_replaceOutside (keep : ascii -> bool) (by_ s : string) :
  every keep by_ = true -> every keep (replaceOutside keep by_ s) = true.
Proof.
  intros Hby. induction s as [| c s IH]; [done |]. cbn [replaceOutside].
  rewrite every_app, IH, andb_true_r.
  destruct (keep c) eqn:Hc; [| exact Hby]. cbn [every]. by rewrite Hc.
Qed.

Lemma every_letter_baseName (nm : string) : every is_letter (baseName nm) = true.
Proof.
  unfold baseName.
  pose proof (every_replaceOutside is_letter "" (if String.eqb nm "" then "Part" else nm)
                eq_refl) as H.
  destruct (replaceOutside _ _ _) as [| c s]; [done |].
  cbn [capitalize every] in *. apply andb_true_iff in H as [Hc Hs].
  by rewrite (is_letter_toUpperChar c Hc), Hs.
Qed.

Lemma prefix_every (test : ascii -> bool) (p s : string) :
  String.prefix p s = true -> every test s = true -> every test p = true.
Proof.
  revert s. induction p as [| c p IH]; intros s; [done |].
  destruct s as [| d s]; [done |]. cbn [String.prefix every].
  destruct (ascii_dec c d) as [<- | _]; [| done].
  intros Hp [Hc Hs]%andb_true_iff. by rewrite Hc, (IH s Hp Hs).
Qed.

(** A text that occurs in [s] holds characters of [s] only. *)
Lemma includes_every (test : ascii -> bool) (s p : string) :
  includes s p = true -> every test s = true -> every test p = true.
Proof.
  induction s as [| c s IH]; cbn [includes].
  - rewrite orb_false_r. intros Hp Hs. by apply (prefix_every test p "").
  - intros [Hp | Hp]%orb_true_iff Hs; [by apply (prefix_every test p (String c s)) |].
    cbn [every] in Hs. apply andb_true_iff in Hs as [_ Hs]. by apply IH.
Qed.

Ltac closed_text s :=
  tryif (match s with context [?v] => is_var v end) then fail else idtac.

Section MarkupCharacters.

Variable ok : ascii -> bool.
Hypothesis ok_markup : forall ch, markupChar ch = true -> ok ch = true.

Variable isVar : string -> bool.
Variable options : Options.
Variable clips : list string.
Variable geometries : gmap string DuplicateRecord.
Hypothesis names_ok : forall k r, geometries !! k = Some r -> every ok (dup_name r) = true.

Ltac chars :=
  repeat
    lazymatch goal with
    | |- every ok (_ +:+ _) = true => rewrite every_app; apply andb_true_intro; split
    | |- every ok (if ?b then _ else _) = true => destruct b
    | |- every ok (attr _ _) = true => apply (every_ok_attr ok ok_markup)
    | |- every ok (nodeRef _ _ _) = true => apply (every_ok_nodeRef ok ok_markup)
    | |- every ok (sanitizeName _ _) = true => apply (every_ok_sanitizeName ok ok_markup)
    | |- every ok (pretty _) = true => apply (every_ok_pretty_nat ok ok_markup)
    | |- every ok ?s = true =>
        first [ assumption | closed_text s; literal ok_markup ]
    end.

Lemma every_ok_capitalize (s : string) :
  every ok s = true -> every ok (capitalize s) = true.
Proof.
  destruct s as [| c s]; [done |]. cbn [capitalize every].
  intros [Hc Hs]%andb_true_iff. rewrite Hs, andb_true_r.
  destruct (toUpperChar_cases c) as [-> | Hup]; [exact Hc | by apply ok_markup].
Qed.

Lemma every_ok_uncapitalize (s : string) :
  every ok s = true -> every ok (uncapitalize s) = true.
Proof.
  destruct s as [| c s]; [done |]. cbn [uncapitalize every].
  intros [Hc Hs]%andb_true_iff. rewrite Hs, andb_true_r.
  destruct (toLowerChar_cases c) as [-> | Hlow]; [exact Hc | by apply ok_markup].
Qed.

Lemma every_ok_getType (obj : Object3D) :
  every ok (type obj) = true -> every ok (getType obj) = true.
Proof.
  intros Hty. apply every_ok_uncapitalize in Hty. unfold getType. cbv zeta.
  repeat match goal with |- context [if ?b then _ else _] => destruct b end; chars.
Qed.

Lemma every_ok_getTresType (obj : Object3D) :
  every ok (type obj) = true -> every ok (getTresType (getType obj)) = true.
Proof.
  intros Hty. unfold getTresType. rewrite every_app.
  rewrite (every_ok_capitalize _ (every_ok_getType obj Hty)), andb_true_r.
  literal ok_markup.
Qed.

Lemma objectTexts_static (o o' : Object3D) :
  static o = static o' -> objectTexts ok o -> objectTexts ok o'.
Proof.
  intros Hs. unfold objectTexts.
  rewrite (f_equal type Hs : type o = type o').
  rewrite (f_equal name Hs : name o = name o').
  rewrite (f_equal material Hs : material o = material o').
  rewrite (f_equal color Hs : color o = color o').
  by rewrite (f_equal userData Hs : userData o = userData o').
Qed.

Lemma heapTexts_static (h h' : Heap) :
  sameStatic h h' ->
  (forall i, objectTexts ok (get h i)) -> forall i, objectTexts ok (get h' i).
Proof.
  intros Hs Hh i. apply (objectTexts_static (get h i)); [| apply Hh]. symmetry. apply Hs.
Qed.

Lemma every_ok_propsText (obj : Object3D) :
  objectTexts ok obj -> every ok (propsText isVar options geometries obj) = true.
Proof.
  intros (_ & Hname & Hmat & Hcolor & Hdata).
  destruct (propsText_front ok ok_markup isVar options geometries obj Hname Hmat Hcolor)
    as (front & -> & Hfront).
  rewrite every_app, Hfront. cbn [andb].
  destruct (userData obj) as [| json | e]; [done | | done].
  specialize (Hdata json eq_refl). unfold when. chars.
Qed.

Lemma every_ok_handleProps (obj : Object3D) (props : string) :
  objectTexts ok obj ->
  handleProps isVar options geometries obj = Ok props -> every ok props = true.
Proof.
  intros Hobj Hprops. rewrite (handleProps_text _ _ _ _ _ Hprops).
  by apply every_ok_propsText.
Qed.

Lemma instancedAs_entry (obj : Object3D) (r : DuplicateRecord) :
  instancedAs options geometries obj = Some r -> exists k, geometries !! k = Some r.
Proof.
  unfold instancedAs, duplicateOf.
  destruct (instance options || instanceall options); [| done].
  destruct (geometry obj) as [g |]; [| done].
  destruct (material obj) as [m |]; [| done].
  destruct (geometries !! _) as [r' |] eqn:Hk; [| done].
  destruct (_ <? _); [| done]. intros [= <-]. eauto.
Qed.

Lemma every_ok_openTag (obj : Object3D) (opening ty' : string) :
  objectTexts ok obj ->
  openTag isVar options geometries obj = Ok (opening, ty') -> every ok opening = true.
Proof.
  intros (Hty & Hname & Hmat & _). unfold openTag.
  destruct (instancedAs options geometries obj) as [r |] eqn:Hr.
  { destruct (instancedAs_entry obj r Hr) as [k Hk]. pose proof (names_ok k r Hk).
    intros [= <- <-]. chars. }
  destruct (isInstancedMesh obj).
  { destruct (material obj) as [m |]; [| done]. specialize (Hmat m eq_refl).
    intros [= <- <-]. cbv zeta. chars. }
  pose proof (every_ok_getTresType obj Hty).
  destruct (String.eqb (getType obj) "bone"); intros [= <- <-]; chars.
Qed.

Lemma every_ok_nameAttr (obj : Object3D) :
  objectTexts ok obj -> every ok (nameAttr options clips obj) = true.
Proof. intros (_ & Hname & _). unfold nameAttr, when. chars. Qed.

Lemma every_ok_bonePrimitive (obj : Object3D) :
  objectTexts ok obj -> every ok (bonePrimitive isVar obj) = true.
Proof. intros (_ & Hname & _). unfold bonePrimitive. chars. Qed.

Lemma every_ok_lightWithTarget (obj tgt : Object3D) (s : string) :
  objectTexts ok obj -> objectTexts ok tgt ->
  lightWithTarget isVar options geometries obj tgt = Ok s -> every ok s = true.
Proof.
  intros Hobj Htgt. unfold lightWithTarget.
  intros (props & Hprops & Hrun)%bind_Ok.
  apply bind_Ok in Hrun as (targetProps & Htarget & Hrun). injection Hrun as <-.
  pose proof (every_ok_handleProps obj props Hobj Hprops).
  pose proof (every_ok_handleProps tgt targetProps Htgt Htarget).
  pose proof (every_ok_getTresType obj (proj1 Hobj)).
  destruct Hobj as (_ & Hname & _). chars.
Qed.

Lemma every_ok_closeTag (obj : Object3D) (ty' children_ result : string) :
  objectTexts ok obj -> every ok children_ = true -> every ok result = true ->
  every ok (closeTag (getType obj) ty' children_ result) = true.
Proof.
  intros Hobj Hchildren Hresult. pose proof (every_ok_getTresType obj (proj1 Hobj)).
  unfold closeTag. chars.
Qed.

Lemma printEach_chars (ks : list Tree) :
  Forall (fun k => forall h s h',
            (forall i, objectTexts ok (get h i)) ->
            print isVar options clips geometries k h = Ok (s, h') ->
            every ok s = true) ks ->
  forall acc h s h',
    (forall i, objectTexts ok (get h i)) -> every ok acc = true ->
    printEach (print isVar options clips geometries) ks acc h = Ok (s, h') ->
    every ok s = true.
Proof.
  induction 1 as [| k ks Hk Hks IH]; intros acc h s h' Hh Hacc Hrun; simpl in Hrun.
  - by injection Hrun as <- <-.
  - apply bind_Ok in Hrun as ([s1 h1] & Hk1 & Hrest).
    apply (IH (acc +:+ s1) h1 s h'); [| | exact Hrest].
    + eapply heapTexts_static; [| exact Hh].
      by eapply (proj1 (print_static isVar options clips geometries k)).
    + by rewrite every_app, Hacc, (Hk h s1 h1 Hh Hk1).
Qed.

Lemma prune_chars (id : nat) (kids : list Tree)
    (printFirst printGrandchildren : Heap -> Result (string * Heap))
    (children_ result oldResult : string) (h : Heap) (s : string) (h' : Heap) :
  (forall h0 s0 h0', (forall i, objectTexts ok (get h0 i)) ->
                     printFirst h0 = Ok (s0, h0') -> every ok s0 = true) ->
  (forall h0 s0 h0', (forall i, objectTexts ok (get h0 i)) ->
                     printGrandchildren h0 = Ok (s0, h0') -> every ok s0 = true) ->
  (forall i, objectTexts ok (get h i)) ->
  every ok children_ = true ->
  prune isVar options clips geometries id kids printFirst printGrandchildren
    children_ result oldResult h = Ok (Some s, h') ->
  every ok s = true.
Proof.
  intros Hfirst Hgrand Hh Hchildren Hrun. unfold prune in Hrun.
  assert (forall h0, sameStatic h h0 -> forall i, objectTexts ok (get h0 i)) as Hst.
  { intros h0 Hs. by apply (heapTexts_static h). }
  assert (forall i f, static (f (get h i)) = static (get h i) ->
                      sameStatic h (update i f h)) as Hup.
  { intros i f Hf. by apply sameStatic_update. }
  match type of Hrun with (if ?c then _ else _) = _ => destruct c end; [| done].
  destruct kids as [| first rest]; [by injection Hrun as <- <- |].
  destruct (String.eqb result oldResult); [by injection Hrun as <- <- |].
  apply bind_Ok in Hrun as (firstProps & _ & Hrun).
  match type of Hrun with (if ?c then _ else _) = _ => destruct c end.
  { apply bind_Ok in Hrun as ([s2 h2] & Hg & Hrun). injection Hrun as <- <-.
    eapply Hgrand; [| exact Hg]. apply Hst.
    eapply sameStatic_trans; [| by apply sameStatic_update]. by apply sameStatic_update. }
  match type of Hrun with (if ?c then _ else _) = _ => destruct c end.
  { apply bind_Ok in Hrun as ([s2 h2] & Hf & Hrun). injection Hrun as <- <-.
    eapply Hfirst; [| exact Hf]. apply Hst.
    eapply sameStatic_trans; [| by apply sameStatic_update]. by apply sameStatic_update. }
  match type of Hrun with (if ?c then _ else _) = _ => destruct c end.
  { apply bind_Ok in Hrun as ([s2 h2] & Hf & Hrun). injection Hrun as <- <-.
    eapply Hfirst; [| exact Hf]. apply Hst. apply foldl_copy_static. }
  match type of Hrun with (if ?c then _ else _) = _ => destruct c end;
    [by injection Hrun as <- <- | done].
Qed.

Lemma print_chars (t : Tree) :
  (forall h s h',
     (forall i, objectTexts ok (get h i)) ->
     print isVar options clips geometries t h = Ok (s, h') -> every ok s = true)
  /\ (forall acc h s h',
        (forall i, objectTexts ok (get h i)) -> every ok acc = true ->
        printEach (print isVar options clips geometries) (children t) acc h = Ok (s, h') ->
        every ok s = true).
Proof.
  induction t as [id kids IH] using Tree_ind_strong.
  assert (forall acc h s h',
            (forall i, objectTexts ok (get h i)) -> every ok acc = true ->
            printEach (print isVar options clips geometries) kids acc h = Ok (s, h') ->
            every ok s = true) as Heach.
  { apply printEach_chars. eapply Forall_impl; [exact IH |]. by intros k [Hk _]. }
  split; [| exact Heach].
  intros h s h' Hh Hrun. cbn [print] in Hrun.
  destruct (__removed (get h id) && (0 <? length kids)).
  { by apply (Heach "" h s h'). }
  destruct (negb (bones options) && String.eqb (getType (get h id)) "bone").
  { injection Hrun as <- <-. apply every_ok_bonePrimitive, Hh. }
  destruct (endsWith (getType (get h id)) "Light" && targetIsFirstChild (get h id) kids).
  { apply bind_Ok in Hrun as (s1 & Hlight & Hrun). injection Hrun as <- <-.
    eapply every_ok_lightWithTarget; [apply Hh | apply Hh | exact Hlight]. }
  apply bind_Ok in Hrun as ([children_ h1] & Hkids & Hrun).
  apply bind_Ok in Hrun as ([opening ty'] & Hopen & Hrun).
  apply bind_Ok in Hrun as (props & Hprops & Hrun).
  apply bind_Ok in Hrun as ([pruned h2] & Hprune & Hrun).
  assert (forall i, objectTexts ok (get h1 i)) as Hh1.
  { eapply heapTexts_static; [| exact Hh].
    by eapply (proj2 (print_static isVar options clips geometries (Node id kids))). }
  assert (every ok children_ = true) as Hchildren by (by apply (Heach "" h children_ h1)).
  destruct pruned as [replacement |]; injection Hrun as <- <-.
  - eapply prune_chars; [| | exact Hh1 | exact Hchildren | exact Hprune].
    + destruct kids as [| first rest]; [by intros h0 s0 h0' _ [= <- <-] |].
      by destruct (Forall_cons_1 _ _ _ IH) as [[Hfirst _] _].
    + destruct kids as [| [fid gks] rest]; [by intros h0 s0 h0' _ [= <- <-] |].
      destruct (Forall_cons_1 _ _ _ IH) as [[_ Hgrand] _].
      intros h0 s0 h0' Hh0. by apply (Hgrand "" h0 s0 h0').
  - rewrite (getType_static (get h id) (get h1 id)).
    2:{ symmetry.
        by eapply (proj2 (print_static isVar options clips geometries (Node id kids))). }
    apply every_ok_closeTag; [apply Hh1 | exact Hchildren |].
    rewrite !every_app.
    rewrite (every_ok_openTag _ _ _ (Hh1 id) Hopen).
    rewrite (every_ok_nameAttr _ (Hh1 id)).
    by rewrite (every_ok_handleProps _ _ (Hh1 id) Hprops).
Qed.

End MarkupCharacters.

(** The names of the table are letters followed by digits. *)
Lemma every_markup_newAttempt (nm : string) (index : nat) :
  every markupChar (newAttempt (baseName nm) index) = true.
Proof.
  assert (every markupChar (baseName nm) = true) as Hbase.
  { apply (every_impl is_letter); [exact markupChar_letter | apply every_letter_baseName]. }
  unfold newAttempt. destruct (0 <? index); [| exact Hbase].
  rewrite every_app, Hbase. apply (every_ok_pretty_nat markupChar). auto.
Qed.

Lemma indexGeometry_names (isVar : string -> bool)
    (geometries : gmap string DuplicateRecord) (o : Object3D) :
  (forall k r, geometries !! k = Some r -> every markupChar (dup_name r) = true) ->
  forall k r, indexGeometry isVar geometries o !! k = Some r ->
              every markupChar (dup_name r) = true.
Proof.
  intros Hg k r. unfold indexGeometry.
  destruct (isMesh o); [| apply Hg].
  destruct (geometry o) as [g |]; [| apply Hg]. cbv zeta.
  destruct (geometries !! signature g (material o)) as [r0 |] eqn:Hkey.
  - destruct (decide (k = signature g (material o))) as [-> | Hne].
    + rewrite lookup_insert_eq. intros [= <-]. by apply (Hg _ _ Hkey).
    + rewrite lookup_insert_ne by done. apply Hg.
  - destruct (inherited _); [apply Hg |].
    destruct (decide (k = signature g (material o))) as [-> | Hne].
    + rewrite lookup_insert_eq. intros [= <-]. cbn [dup_name].
      destruct (uniqueName_first geometries (baseName (name o))) as (j & -> & _).
      apply every_markup_newAttempt.
    + rewrite lookup_insert_ne by done. apply Hg.
Qed.

Lemma duplicateGeometries_names (isVar : string -> bool) (options : Options)
    (objects : Heap) (k : string) (r : DuplicateRecord) :
  duplicateGeometries isVar options objects !! k = Some r ->
  every markupChar (dup_name r) = true.
Proof.
  unfold duplicateGeometries, pruneDuplicates. intros Hr.
  assert (indexGeometries isVar objects !! k = Some r) as Hr0.
  { destruct (instanceall options); [done |].
    by apply map_lookup_filter_Some in Hr as [Hr _]. }
  clear Hr. revert k r Hr0. unfold indexGeometries.
  enough (forall g,
            (forall k r, g !! k = Some r -> every markupChar (dup_name r) = true) ->
            forall k r, foldl (indexGeometry isVar) g objects !! k = Some r ->
                        every markupChar (dup_name r) = true) as Hall.
  { apply Hall. intros k r Hk. by rewrite lookup_empty in Hk. }
  induction objects as [| o objects IH]; intros g Hg; [exact Hg |].
  cbn [foldl]. apply IH. by apply indexGeometry_names.
Qed.

Section DocumentCharacters.

Variable ok : ascii -> bool.
Hypothesis ok_document : forall ch, documentChar ch = true -> ok ch = true.

Variable isVar : string -> bool.
Variable world : list Transform -> Transform.

Lemma ok_markup_of_document (ch : ascii) : markupChar ch = true -> ok ch = true.
Proof. intros H. by apply ok_document, documentChar_markup. Qed.

Ltac texts :=
  repeat
    lazymatch goal with
    | |- every ok (_ +:+ _) = true => rewrite every_app; apply andb_true_intro; split
    | |- every ok (if ?b then _ else _) = true => destruct b
    | |- every ok (sanitizeName _ _) = true =>
        apply (every_ok_sanitizeName ok ok_markup_of_document)
    | |- every ok (String.substring _ _ _) = true => apply every_substring
    | |- every ok ?s = true =>
        first [ assumption | closed_text s; literal ok_document ]
    end.

Lemma heapTexts_Forall (h : Heap) :
  Forall (objectTexts ok) h -> forall i, objectTexts ok (get h i).
Proof.
  intros Hall i. destruct (decide (i < length h)) as [Hlt | Hge].
  - rewrite Forall_forall in Hall. apply Hall.
    unfold get. by apply list_elem_of_lookup_total_2.
  - unfold get. rewrite list_lookup_total_alt, lookup_ge_None_2 by lia.
    repeat split; try done; literal ok_document.
Qed.

Lemma sceneMarkup_chars (options : Options) (gltf : GLTF) (scene_ : string) :
  Forall (objectTexts ok) (load (scene gltf)).2 ->
  sceneMarkup isVar world options gltf = Ok scene_ -> every ok scene_ = true.
Proof.
  intros Hall. pose proof (heapTexts_Forall _ Hall) as Hobjects. clear Hall.
  unfold sceneMarkup.
  destruct (prepared world options gltf) as [t h] eqn:Hprep.
  assert (forall i, objectTexts ok (get h i)) as Hh.
  { unfold prepared in Hprep. destruct (load (scene gltf)) as [t0 h0].
    cbn [snd] in Hobjects.
    destruct (keepgroups options); [by injection Hprep as <- <- |].
    eapply (heapTexts_static ok); [| exact Hobjects].
    destruct (foldl_flattenObject_heap world (seq 0 (length h0)) (t0, h0)) as (Hs & _).
    unfold flatten in Hprep. rewrite Hprep in Hs. exact Hs. }
  set (geometries := duplicateGeometries isVar options (load (scene gltf)).2).
  assert (forall k r, geometries !! k = Some r -> every ok (dup_name r) = true) as Hnames.
  { intros k r Hk. apply (every_impl markupChar); [exact ok_markup_of_document |].
    exact (duplicateGeometries_names isVar options _ k r Hk). }
  pose proof (fun t => proj1 (print_chars ok ok_markup_of_document isVar options
                                (animations gltf) geometries Hnames t)) as Hprint.
  unfold compileScene. destruct (keepgroups options).
  - intros ([s1 h1] & Hrun1 & [= <-])%bind_Ok. by apply (Hprint t h s1 h1).
  - intros ([s1 h1] & Hrun1 & Hrun)%bind_Ok.
    apply bind_Ok in Hrun as ([s2 h2] & Hrun2 & [= <-]).
    apply (Hprint (restructure t h1) h1 s2 h2); [| exact Hrun2].
    eapply (heapTexts_static ok); [| exact Hh].
    by eapply (proj1 (print_static isVar options (animations gltf) geometries t)).
Qed.

Lemma every_ok_join (sep : string) (l : list string) :
  every ok sep = true -> Forall (fun s => every ok s = true) l ->
  every ok (join sep l) = true.
Proof.
  intros Hsep. induction 1 as [| s l Hs Hl IH]; [done |].
  cbn [join]. destruct l as [| s' l]; [exact Hs |].
  by rewrite !every_app, Hs, Hsep, IH.
Qed.

Lemma every_ok_upper (s : string) : every ok s = true -> every ok (capitalize s) = true.
Proof. apply (every_ok_capitalize ok ok_markup_of_document). Qed.

Lemma headerText_chars (options : Options) (js : Json) :
  every ok (header options) = true -> every ok (fileSize options) = true ->
  (forall entries, extras js = Some entries ->
     Forall (fun kv => every ok kv.1 = true /\ every ok kv.2 = true) entries) ->
  every ok (headerText options js) = true.
Proof.
  intros Hheader Hsize Hextras.
  assert (every ok (parseExtras (extras js)) = true) as Hparse.
  { unfold parseExtras. destruct (extras js) as [entries |]; [| done].
    specialize (Hextras entries eq_refl). rewrite every_app.
    apply andb_true_intro. split; [| literal ok_document].
    apply every_ok_join; [literal ok_document |].
    apply Forall_map. eapply Forall_impl; [exact Hextras |].
    intros [k v] [Hk Hv]. cbn [fst snd] in *.
    rewrite !every_app, (every_ok_upper k Hk), Hv, andb_true_r. cbn [andb].
    literal ok_document. }
  unfold headerText, when. texts.
Qed.

Lemma materialFix_chars (url : string) (js : Json) (mat : JsonMaterial) :
  every ok url = true -> every ok (jm_name mat) = true ->
  (forall imgs, images js = Some imgs -> Forall (fun path => every ok path = true) imgs) ->
  every ok (materialFix isVar url js mat) = true.
Proof.
  intros Hurl Hname Himages. unfold materialFix, when. cbv zeta.
  assert (every ok (replaceOutside (fun c => is_letter c || is_digit c) "_" (jm_name mat))
          = true) as Hvar.
  { apply (every_impl (fun c => is_letter c || is_digit c || Ascii.eqb c "_")).
    - intros ch Hch. apply ok_document. revert Hch.
      destruct ch as [[] [] [] [] [] [] [] []]; vm_compute; congruence.
    - generalize (jm_name mat). intros s. induction s as [| c s IH]; [done |].
      cbn [replaceOutside]. rewrite every_app, IH, andb_true_r.
      destruct (is_letter c || is_digit c) eqn:Hc; [| done]. cbn [every].
      by rewrite Hc. }
  destruct (jm_unlit mat); [| done].
  destruct (jm_baseColorTexture mat); [texts |].
  destruct (jm_emissiveTexture mat) as [texIndex |]; [| done].
  destruct (images js) as [imgs |] eqn:Himgs; [| done].
  specialize (Himages imgs eq_refl).
  rewrite every_app. apply andb_true_intro. split; [texts |].
  destruct (mjoin (textures js !! texIndex)) as [imageIndex |]; [| done].
  destruct (imgs !! imageIndex) as [imagePath |] eqn:Hpath; [| done].
  assert (every ok imagePath = true) as Himage.
  { rewrite Forall_forall in Himages. apply Himages. by eapply list_elem_of_lookup_2. }
  texts.
Qed.

Lemma materialFixCode_chars (url : string) (js : Json) :
  every ok url = true ->
  (forall mats, materials js = Some mats ->
     Forall (fun mat => every ok (jm_name mat) = true) mats) ->
  (forall imgs, images js = Some imgs -> Forall (fun path => every ok path = true) imgs) ->
  every ok (materialFixCode isVar url js) = true.
Proof.
  intros Hurl Hmats Himages. unfold materialFixCode, when.
  destruct (materials js) as [mats |]; [| done]. specialize (Hmats mats eq_refl).
  destruct (_ && _); [| done].
  assert (every ok (foldr (fun mat rest => materialFix isVar url js mat +:+ rest) "" mats)
          = true) as Hfold.
  { induction Hmats as [| mat mats Hmat _ IH]; [done |]. cbn [foldr].
    by rewrite every_app, IH, (materialFix_chars url js mat Hurl Hmat Himages). }
  texts.
Qed.

Lemma document_chars (url : string) (hasAnimations : bool) (fix_ scene_ : string) :
  every ok url = true -> every ok fix_ = true -> every ok scene_ = true ->
  every ok (document url hasAnimations fix_ scene_) = true.
Proof. intros Hurl Hfix Hscene. unfold document, when. texts. Qed.

(** Every character of the text [parse] returns is a character of the
    literal text of the compiler or passes the test the input texts
    pass. *)
Lemma parse_chars (gltf : GLTF) (fileName : string) (options : Options) (out : string) :
  inputTexts ok gltf fileName options ->
  parse isVar world gltf fileName options = Ok out -> every ok out = true.
Proof.
  intros (Hobjects & Hfile & Hheader & Hsize & Hextras & Hmats & Himages).
  unfold parse. destruct (sceneMarkup isVar world options gltf) as [scene_ | e] eqn:Hscene;
    [| done].
  intros [= <-].
  assert (every ok ((if startsWith (toLowerCase fileName) "http" then "" else "/")
                    +:+ fileName) = true) as Hurl by texts.
  rewrite !every_app.
  rewrite (headerText_chars options (json gltf) Hheader Hsize Hextras).
  rewrite (document_chars _ _ _ _ Hurl
             (materialFixCode_chars _ (json gltf) Hurl Hmats Himages)
             (sceneMarkup_chars options gltf scene_ Hobjects Hscene)).
  rewrite andb_true_r. cbn [andb]. literal ok_document.
Qed.

End DocumentCharacters.

Lemma documentChar_ampersand (ch : ascii) :
  documentChar ch = true -> negb (Ascii.eqb ch "&"%char) = true.
Proof. destruct (Ascii.eqb_spec ch "&"%char) as [-> | _]; [by vm_compute | done]. Qed.

(** The type description always holds an ampersand. *)
Lemma printTypes_ampersand (isVar : string -> bool) (options : Options)
    (clips : list string) (geometries : gmap string DuplicateRecord) (t : Tree) (h : Heap) :
  without "&" (printTypes isVar options clips geometries t h) = false.
Proof.
  unfold printTypes, without. cbv zeta.
  do 3 (etransitivity; [apply every_app |]; apply andb_false_intro2).
  etransitivity; [apply every_app |]. apply andb_false_intro1. reflexivity.
Qed.


